(** * Innertube support service: session and token lifecycle

    A shallow embedding of the TypeScript sources
      - [lib/innertube/Service.ts]  ([InnertubeSupportService], [evalFnImpl]),
      - [lib/innertube/Server.ts]   ([InnertubeSupportServer] and its routes),
      - [lib/innertube/Spawn.ts]    ([spawnInnertubeSupportService]),
      - [lib/innertube/Wrapper.ts]  ([InnertubeWrapper]),
      - [lib/innertube/Utils.ts]    ([isDenoInstalled],
        [getActiveAccountDatasyncIdToken]),
      - [lib/volumio/AutoplayManager.ts] ([#findLastPlayedTrackQueueIndex],
        [#handleAutoplay]) and the run script of the subprocess,
    followed by the properties proved about them.

    Conventions.  JavaScript runs one task at a time: every function below
    that models a method or a callback is one such task, run to its next
    suspension point ([await]).  What the outside world decides (the result
    of a network exchange, the moment a timer fires, what a subprocess
    prints) arrives as an event.  Numbers that count seconds or
    milliseconds are integers ([Z]); promises and timers are named by
    natural numbers handed out by a counter. *)

From Stdlib Require Import ZArith Ascii String List Bool Lia.
From stdpp Require Import base option gmap list strings.

Import ListNotations.

Set Default Proof Using "Type".

(** A settled promise. *)
Inductive settled (A : Type) : Type :=
  | Fulfilled (a : A)
  | Rejected (e : string).
Arguments Fulfilled {A} a.
Arguments Rejected {A} e.

(** What a call gives back to its caller: a value, an exception thrown before
    the call returns, or (an [async] function whose body throws before its
    first [await]) a promise that is already rejected when the call returns. *)
Inductive outcome (A : Type) : Type :=
  | Returned (a : A)
  | Thrown (e : string)
  | RejectedNow (e : string).
Arguments Returned {A} a.
Arguments Thrown {A} e.
Arguments RejectedNow {A} e.

(** ** Timers of the host event loop *)

Module EventLoop.

(** One call of the timer interface, as the program issued it. *)
Inductive op : Type :=
  | OpSet (h : nat) (ms : Z)
  | OpClear (h : nat).

(** [pending] maps the handle of every timer that is armed and has not yet
    fired to the delay (milliseconds) it was armed with; [ops] is the
    journal of the calls made so far, oldest first. *)
Record t : Type := mk {
  pending : gmap nat Z;
  next_handle : nat;
  ops : list op
}.

Definition empty : t := mk ∅ 0 [].

Definition setTimeout (ms : Z) (l : t) : nat * t :=
  let h := next_handle l in
  (h, mk (<[h := ms]> (pending l)) (S h) (ops l ++ [OpSet h ms])).

(** Clearing a handle that has fired (or was cleared) changes nothing. *)
Definition clearTimeout (h : nat) (l : t) : t :=
  mk (delete h (pending l)) (next_handle l) (ops l ++ [OpClear h]).

(** A one-shot timer leaves the table when it fires. *)
Definition fire (h : nat) (l : t) : t :=
  mk (delete h (pending l)) (next_handle l) (ops l).

Definition TIMEOUT_MAX : Z := 2147483647.

(** Node replaces a delay outside [1 .. TIMEOUT_MAX] by one millisecond;
    it never raises. *)
Definition effective_delay (ms : Z) : Z :=
  if (1 <=? ms)%Z && (ms <=? TIMEOUT_MAX)%Z then ms else 1%Z.

(** The calls journalled by [l'] since [l]. *)
Definition ops_since (l l' : t) : list op :=
  drop (length (ops l)) (ops l').

(** Every [OpSet] of the list comes after some [OpClear] of the same list. *)
Fixpoint set_after_clear (seen_clear : bool) (os : list op) : bool :=
  match os with
  | [] => true
  | OpClear _ :: os' => set_after_clear true os'
  | OpSet _ _ :: os' => seen_clear && set_after_clear seen_clear os'
  end.

End EventLoop.

(** ** PoToken.ts: the result of one challenge exchange *)

Module PoToken.

(** [minter] names the [WebPoMinter]; [refreshThreshold] is the third
    element of the server's reply and may be missing. *)
Record PoTokenMinterResult : Type := mk {
  minter : nat;
  ttl : Z;
  refreshThreshold : option Z;
  created : Z
}.

End PoToken.

(** ** Text helpers *)

Module Text.

Definition dquote : string := String "034"%char EmptyString.
Definition newline : string := String "010"%char EmptyString.

(** [Array.prototype.join] on strings. *)
Fixpoint join (sep : string) (l : list string) : string :=
  match l with
  | [] => EmptyString
  | [x] => x
  | x :: rest => x +:+ sep +:+ join sep rest
  end.

(** What follows [p] in [s], when [s] starts with [p]. *)
Fixpoint strip_prefix (p s : string) : option string :=
  match p with
  | EmptyString => Some s
  | String c p' =>
      match s with
      | String c' s' => if Ascii.eqb c c' then strip_prefix p' s' else None
      | EmptyString => None
      end
  end.

(** A JavaScript string is truthy unless it is empty. *)
Definition truthy (o : option string) : option string :=
  match o with
  | Some EmptyString => None
  | Some s => Some s
  | None => None
  end.

(** The characters that cannot stand for themselves between the double
    quotes of a string literal. *)
Definition plain_char (c : ascii) : bool :=
  negb (Ascii.eqb c "034" || Ascii.eqb c "092" || Ascii.eqb c "010" || Ascii.eqb c "013").

Fixpoint literal_safe (s : string) : bool :=
  match s with
  | EmptyString => true
  | String c rest => plain_char c && literal_safe rest
  end.

End Text.

(** ** Service.ts: [evalFnImpl]

    [evalFnImpl] builds the text of a function body and hands it to the
    engine ([Function(code)()]).  The text is modelled exactly
    ([evalFnImpl_code]): [env.n] and [env.sig] are pasted into it as they
    are.  The engine reads the text.  The remote script [data.output] is
    opaque, so what running it does is an input of the model
    ([script_outcome]); what follows it is read back from the text
    ([parse_return_clause]) as an object literal whose properties are calls
    of [exportedVars.nFunction] / [exportedVars.sigFunction] on a string
    literal, however many the text holds, and evaluated as such.  A text
    whose end is not of that form is another program, which the model does
    not run. *)

Module EvalFn.

Record BuildScriptResult : Type := { output : string }.

Record Env : Type := { n : option string; sig : option string }.

(** Values the evaluated program can produce: what a call of an exported
    function gives ([atom]), and objects whose fields hold such values. *)
Inductive atom : Type :=
  | AUndefined
  | AString (s : string)
  | AOpaque (tag : nat).   (* any other value, which JSON keeps *)

Inductive value : Type :=
  | VAtom (a : atom)
  | VObject (fields : list (string * atom)).

(** One entry of the [properties] array, with the parts it is made of. *)
Record property : Type := {
  key : string;
  fn : string;
  arg : string
}.

Definition render (p : property) : string :=
  key p +:+ ": exportedVars." +:+ fn p +:+ "(" +:+ Text.dquote +:+ arg p
    +:+ Text.dquote +:+ ")".

Definition properties (env : Env) : list property :=
  (match Text.truthy (n env) with
   | Some v => [ {| key := "n"; fn := "nFunction"; arg := v |} ]
   | None => []
   end)
  ++
  (match Text.truthy (sig env) with
   | Some v => [ {| key := "sig"; fn := "sigFunction"; arg := v |} ]
   | None => []
   end).

(** [`${data.output}\nreturn { ${properties.join(', ')} }`] *)
Definition evalFnImpl_code (data : BuildScriptResult) (env : Env) : string :=
  output data +:+ Text.newline +:+ "return { "
    +:+ Text.join ", " (map render (properties env)) +:+ " }".

(** The object the remote script is expected to leave in scope. *)
Record ExportedVars : Type := {
  nFunction : string -> settled atom;
  sigFunction : string -> settled atom
}.

(** What running the remote script does: it runs to its end (leaving
    [exportedVars] bound or not), returns by itself, or throws. *)
Inductive script_outcome : Type :=
  | FallsThrough (exported : option ExportedVars)
  | ReturnsEarly (v : value)
  | Throws (e : string).

Definition call (x : ExportedVars) (p : property) : settled atom :=
  if String.eqb (fn p) "nFunction" then nFunction x (arg p)
  else sigFunction x (arg p).

(** A property written twice in an object literal keeps the place of the
    first and takes the value of the last. *)
Fixpoint set_field (k : string) (v : atom) (fields : list (string * atom))
  : list (string * atom) :=
  match fields with
  | [] => [(k, v)]
  | (k', v') :: rest =>
      if String.eqb k' k then (k, v) :: rest else (k', v') :: set_field k v rest
  end.

(** Evaluation of the object literal, property by property, in order;
    [fields] holds the properties set so far. *)
Fixpoint eval_literal (exported : option ExportedVars) (ps : list property)
    (fields : list (string * atom)) : settled (list (string * atom)) :=
  match ps with
  | [] => Fulfilled fields
  | p :: rest =>
      match exported with
      | None => Rejected "ReferenceError: exportedVars is not defined"
      | Some x =>
          match call x p with
          | Rejected e => Rejected e
          | Fulfilled v => eval_literal exported rest (set_field (key p) v fields)
          end
      end
  end.

(** *** Reading the return clause back from the text *)

Definition is_letter (c : ascii) : bool :=
  let k := nat_of_ascii c in
  ((65 <=? k) && (k <=? 90) || (97 <=? k) && (k <=? 122))%nat.

Definition is_digit (c : ascii) : bool :=
  let k := nat_of_ascii c in ((48 <=? k) && (k <=? 57))%nat.

Definition ident_start (c : ascii) : bool :=
  is_letter c || Ascii.eqb c "_" || Ascii.eqb c "$".

Definition ident_char (c : ascii) : bool := ident_start c || is_digit c.

Fixpoint all_chars (p : ascii -> bool) (s : string) : bool :=
  match s with
  | EmptyString => true
  | String c rest => p c && all_chars p rest
  end.

(** The longest start of [s] made of characters that satisfy [p], and what
    follows it. *)
Fixpoint span (p : ascii -> bool) (s : string) : string * string :=
  match s with
  | EmptyString => (EmptyString, EmptyString)
  | String c rest =>
      if p c then let '(a, b) := span p rest in (String c a, b)
      else (EmptyString, s)
  end.

(** An identifier name, and what follows it. *)
Definition parse_ident (s : string) : option (string * string) :=
  match s with
  | String c rest =>
      if ident_start c then
        let '(a, b) := span ident_char rest in Some (String c a, b)
      else None
  | EmptyString => None
  end.

(** The properties [key: exportedVars.fn("arg")] separated by [", "] and
    closed by [" }"], as [render] and [join] write them.  The key is an
    identifier other than [__proto__] (which in a literal sets no
    property), the function one of the two exported ones, the argument a
    string literal without escapes. *)
Fixpoint parse_properties (fuel : nat) (s : string) : option (list property) :=
  match fuel with
  | O => None
  | S fuel' =>
      match parse_ident s with
      | None => None
      | Some (k, r1) =>
          if String.eqb k "__proto__" then None
          else
            match Text.strip_prefix ": exportedVars." r1 with
            | None => None
            | Some r2 =>
                match parse_ident r2 with
                | None => None
                | Some (f, r3) =>
                    if String.eqb f "nFunction" || String.eqb f "sigFunction" then
                      match Text.strip_prefix "(" r3 with
                      | None => None
                      | Some r4 =>
                          match Text.strip_prefix Text.dquote r4 with
                          | None => None
                          | Some r5 =>
                              let '(a, r6) := span Text.plain_char r5 in
                              match Text.strip_prefix Text.dquote r6 with
                              | None => None
                              | Some r7 =>
                                  match Text.strip_prefix ")" r7 with
                                  | None => None
                                  | Some r8 =>
                                      let p := {| key := k; fn := f; arg := a |} in
                                      if String.eqb r8 " }" then Some [p]
                                      else
                                        match Text.strip_prefix ", " r8 with
                                        | None => None
                                        | Some r9 =>
                                            match parse_properties fuel' r9 with
                                            | Some ps => Some (p :: ps)
                                            | None => None
                                            end
                                        end
                                  end
                              end
                          end
                      end
                    else None
                end
            end
      end
  end.

(** What follows [return { ] in the text. *)
Definition parse_return_clause (clause : string) : option (list property) :=
  if String.eqb clause " }" then Some []
  else parse_properties (String.length clause) clause.

(** The properties that [parse_properties] reads back as written. *)
Definition identifier (k : string) : bool :=
  match k with
  | String c rest => ident_start c && all_chars ident_char rest
  | EmptyString => false
  end.

Definition well_formed (p : property) : bool :=
  identifier (key p) && negb (String.eqb (key p) "__proto__")
  && (String.eqb (fn p) "nFunction" || String.eqb (fn p) "sigFunction")
  && Text.literal_safe (arg p).

(** *** What [res.json] makes of a value *)

(** [JSON.stringify] leaves out the fields whose value is [undefined]. *)
Definition json_field (f : string * atom) : bool :=
  match snd f with
  | AUndefined => false
  | _ => true
  end.

(** The JSON sent for a value; [None]: [undefined] has no JSON text. *)
Definition to_json (v : value) : option value :=
  match v with
  | VAtom AUndefined => None
  | VAtom a => Some (VAtom a)
  | VObject fields => Some (VObject (List.filter json_field fields))
  end.

Section Engine.

(** The behaviour of the remote script, by its text. *)
Variable run_output : string -> script_outcome.

(** The script, then the object literal with the properties [ps]. *)
Definition run_clause (data : BuildScriptResult) (ps : list property)
  : settled value :=
  match run_output (output data) with
  | Throws e => Rejected e
  | ReturnsEarly v => Fulfilled v
  | FallsThrough exported =>
      match eval_literal exported ps [] with
      | Rejected e => Rejected e
      | Fulfilled fs => Fulfilled (VObject fs)
      end
  end.

(** [Function(code)()] for a text that starts with the script of [data].
    [None]: what follows the script is not a return clause of the form
    read by [parse_return_clause]. *)
Definition run_program (data : BuildScriptResult) (code : string)
  : option (settled value) :=
  match Text.strip_prefix (output data +:+ Text.newline +:+ "return { ") code with
  | None => None
  | Some clause =>
      match parse_return_clause clause with
      | None => None
      | Some ps => Some (run_clause data ps)
      end
  end.

Definition evalFnImpl (data : BuildScriptResult) (env : Env)
  : option (settled value) :=
  run_program data (evalFnImpl_code data env).

End Engine.

End EvalFn.

(** ** Server.ts: [InnertubeSupportServer] *)

Module Server.

Record AddressInfo : Type := { address : string; port : Z }.

Inductive Status : Type := stopped | started.

Record PotFnResult : Type := {
  poToken : string;
  ttl : Z;
  refreshThreshold : option Z
}.

(** *** Routes *)

Inductive payload : Type :=
  | ErrorJson (error : string)
  | PotJson (r : PotFnResult)
  | EvalJson (json : option EvalFn.value).

(** A handler answers with a status code and a JSON body, or an exception
    leaves it ([Escapes]) and the handler sends nothing; [Unmodelled] when
    the engine model does not cover the program.  [EvalJson] holds what
    [res.json] sends for the value it is given: an object without its
    [undefined] fields, nothing for [undefined] itself. *)
Inductive reply : Type :=
  | Respond (code : Z) (body : payload)
  | Escapes (e : string)
  | Unmodelled.

(** The parsed JSON body of [POST /eval], when [req.body] is an object; a
    field that is absent is [None] (an object is truthy, so [!data] holds
    exactly when it is absent).  A request without a parsed body
    ([req.body] is [undefined]) is [None] at the route. *)
Record EvalBody : Type := {
  data : option EvalFn.BuildScriptResult;
  env : option EvalFn.Env
}.

Definition missing_data_or_env : string :=
  "Request body is missing " +:+ Text.dquote +:+ "data" +:+ Text.dquote
    +:+ " or " +:+ Text.dquote +:+ "env" +:+ Text.dquote.

Definition missing_identifier : string :=
  "Request is missing param " +:+ Text.dquote +:+ "identifier" +:+ Text.dquote.

(** What [const { data, env } = req.body] throws when [req.body] is
    [undefined]. *)
Definition no_body_error : string :=
  "TypeError: Cannot destructure property 'data' of 'req.body' as it is undefined.".

Definition eval_route
    (evalFn : EvalFn.BuildScriptResult -> EvalFn.Env -> option (settled EvalFn.value))
    (body : option EvalBody) : reply :=
  match body with
  | None => Escapes no_body_error
  | Some b =>
      match data b, env b with
      | Some d, Some e =>
          match evalFn d e with
          | None => Unmodelled
          | Some (Rejected err) => Escapes err
          | Some (Fulfilled v) => Respond 200 (EvalJson (EvalFn.to_json v))
          end
      | _, _ => Respond 500 (ErrorJson missing_data_or_env)
      end
  end.

Definition pot_route (potFn : string -> settled PotFnResult)
    (identifier : option string) : reply :=
  match Text.truthy identifier with
  | None => Respond 500 (ErrorJson missing_identifier)
  | Some i =>
      match potFn i with
      | Rejected err => Escapes err
      | Fulfilled r => Respond 200 (PotJson r)
      end
  end.

(** *** Start and stop

    [server] is the [http.Server] held in [#server], named by the address
    it is bound to; [listening] is the socket itself (what [app.listen]
    opened and [server.close] shuts down).  [startPromise] holds the
    resolved value: a rejected promise is never kept, the slot is reset. *)
Record state : Type := mk {
  server : option AddressInfo;
  status : Status;
  startPromise : option AddressInfo;
  routes : bool;
  listening : option AddressInfo
}.

Definition new : state := mk None stopped None false None.

(** [start()], awaited; [listen] is what [app.listen] reports. *)
Definition start (listen : string + AddressInfo) (s : state)
  : state * (string + AddressInfo) :=
  match startPromise s with
  | Some a => (s, inr a)
  | None =>
      match listen with
      | inl err => (mk None stopped None (routes s) (listening s), inl err)
      | inr a => (mk (Some a) started (Some a) true (Some a), inr a)
      end
  end.

(** [stop()]: [None] is the [undefined] returned when already stopped;
    otherwise the awaited result of the promise.  [close] is the error
    [server.close] reports, if any. *)
Definition stop (close : option string) (s : state)
  : state * option (settled unit) :=
  match status s with
  | stopped => (s, None)
  | started =>
      match server s with
      | Some _ =>
          match close with
          | Some err => (s, Some (Rejected err))
          | None => (mk None stopped None (routes s) None, Some (Fulfilled tt))
          end
      | None => (s, Some (Fulfilled tt))
      end
  end.

End Server.

(** ** Service.ts: [InnertubeSupportService]

    The class has two groups of private fields that no method shares:
    [#status], [#server], [#startPromise] (start and stop) and
    [#minterPromise], [#refreshMinterTimer] (the cached minter).  They are
    modelled as two records. *)

Module Service.

Import PoToken.

Inductive InnertubeSupportServiceStatus : Type :=
  | Stopped
  | Started (address : string) (port : Z).

(** *** The cached minter *)

(** [creating]: the calls of [#createMinter] suspended at
    [await createPoTokenMinter()], by the promise each will settle;
    [minters]: the promises of [#createMinter] settled so far;
    [exchanges]: how many times [createPoTokenMinter] was called. *)
Record minting : Type := mkMinting {
  minterPromise : option nat;
  refreshMinterTimer : option nat;
  loop : EventLoop.t;
  creating : gset nat;
  minters : gmap nat (settled PoTokenMinterResult);
  next_promise : nat;
  exchanges : nat
}.

Definition minting0 : minting :=
  mkMinting None None EventLoop.empty ∅ ∅ 0 0.

Definition clearRefreshMinterTimer (s : minting) : minting :=
  let l :=
    match refreshMinterTimer s with
    | Some h => EventLoop.clearTimeout h (loop s)
    | None => loop s
    end in
  mkMinting (minterPromise s) None l (creating s) (minters s)
    (next_promise s) (exchanges s).

(** [#createMinter()] up to its [await]: the timer is cleared, the
    exchange is started, and the promise of the call is returned. *)
Definition createMinter (s : minting) : nat * minting :=
  let s1 := clearRefreshMinterTimer s in
  let p := next_promise s1 in
  (p, mkMinting (minterPromise s1) (refreshMinterTimer s1) (loop s1)
        ({[p]} ∪ creating s1) (minters s1) (S p) (S (exchanges s1))).

(** [ttl - refreshThreshold - 100], with the default of the destructuring. *)
Definition refresh_timeout (ttl : Z) (refreshThreshold : option Z) : Z :=
  (ttl - default 100 refreshThreshold - 100)%Z.

(** [#createMinter()] from its [await] on, for the call that settles
    promise [p]: [r] is what [createPoTokenMinter()] gave. *)
Definition createMinter_resume (p : nat) (r : settled PoTokenMinterResult)
    (s : minting) : minting :=
  match r with
  | Rejected e =>
      mkMinting (minterPromise s) (refreshMinterTimer s) (loop s)
        (creating s ∖ {[p]}) (<[p := Rejected e]> (minters s))
        (next_promise s) (exchanges s)
  | Fulfilled minterResult =>
      let timeout := refresh_timeout (ttl minterResult) (refreshThreshold minterResult) in
      let '(h, l) := EventLoop.setTimeout (timeout * 1000) (loop s) in
      mkMinting (minterPromise s) (Some h) l
        (creating s ∖ {[p]}) (<[p := Fulfilled minterResult]> (minters s))
        (next_promise s) (exchanges s)
  end.

(** [#getMinter(forceCreate)]: the promise the caller awaits. *)
Definition getMinter (forceCreate : bool) (s : minting) : nat * minting :=
  match minterPromise s with
  | Some p =>
      if forceCreate then
        let '(q, s1) := createMinter s in
        (q, mkMinting (Some q) (refreshMinterTimer s1) (loop s1) (creating s1)
              (minters s1) (next_promise s1) (exchanges s1))
      else (p, s)
  | None =>
      let '(q, s1) := createMinter s in
      (q, mkMinting (Some q) (refreshMinterTimer s1) (loop s1) (creating s1)
            (minters s1) (next_promise s1) (exchanges s1))
  end.

(** The callback given to [setTimeout]: [this.#minterPromise = this.#createMinter()]. *)
Definition refresh_callback (s : minting) : minting :=
  let '(q, s1) := createMinter s in
  mkMinting (Some q) (refreshMinterTimer s1) (loop s1) (creating s1)
    (minters s1) (next_promise s1) (exchanges s1).

(** What can happen to the cached minter: a [GET /pot] request reaches
    [potFn] (the only caller of [#getMinter], always without argument), a
    pending exchange settles, a pending timer fires. *)
Inductive event : Type :=
  | PotRequest
  | ExchangeSettled (p : nat) (r : settled PoTokenMinterResult)
  | TimerFired (h : nat).

Definition step (e : event) (s : minting) : minting :=
  match e with
  | PotRequest => snd (getMinter false s)
  | ExchangeSettled p r =>
      if decide (p ∈ creating s) then createMinter_resume p r s else s
  | TimerFired h =>
      if decide (is_Some (EventLoop.pending (loop s) !! h)) then
        refresh_callback
          (mkMinting (minterPromise s) (refreshMinterTimer s)
             (EventLoop.fire h (loop s)) (creating s) (minters s)
             (next_promise s) (exchanges s))
      else s
  end.

Definition run (evs : list event) (s : minting) : minting :=
  fold_left (fun acc e => step e acc) evs s.

(** The promises handed to the [PotRequest]s of a run, in order. *)
Fixpoint answers (evs : list event) (s : minting) : list nat :=
  match evs with
  | [] => []
  | PotRequest :: rest => fst (getMinter false s) :: answers rest (step PotRequest s)
  | e :: rest => answers rest (step e s)
  end.

(** The timer calls a step makes. *)
Definition step_ops (e : event) (s : minting) : list EventLoop.op :=
  EventLoop.ops_since (loop s) (loop (step e s)).

Definition settles (e : event) : bool :=
  match e with
  | ExchangeSettled _ _ => true
  | _ => false
  end.

(** No creation has resolved for what is cached: nothing is cached, or the
    cached promise is that of a creation still in flight. *)
Definition unresolved (s : minting) : bool :=
  match minterPromise s with
  | None => true
  | Some p => bool_decide (p ∈ creating s)
  end.

(** *** [potFn]: the reply to [GET /pot] once the minter is there *)

(** [Math.floor((ttl * 1000 + created - Date.now()) / 1000)] *)
Definition adjustedTTL (r : PoTokenMinterResult) (now : Z) : Z :=
  ((ttl r * 1000 + created r - now) / 1000)%Z.

Definition potFn (r : PoTokenMinterResult) (poToken : string) (now : Z)
  : Server.PotFnResult :=
  {| Server.poToken := poToken;
     Server.ttl := adjustedTTL r now;
     Server.refreshThreshold := refreshThreshold r |}.

(** *** Start and stop *)

Record lifecycle : Type := mkLifecycle {
  status : InnertubeSupportServiceStatus;
  server : option Server.state;
  startPromise : option InnertubeSupportServiceStatus
}.

(** The constructor. *)
Definition lifecycle0 : lifecycle := mkLifecycle Stopped None None.

(** [start()], awaited.  [startPromise] holds the value the promise was
    resolved with (the [catch] resets the slot, so a rejected promise is
    never kept). *)
Definition start (listen : string + Server.AddressInfo) (s : lifecycle)
  : lifecycle * (string + InnertubeSupportServiceStatus) :=
  match startPromise s with
  | Some v => (s, inr v)
  | None =>
      match Server.start listen Server.new with
      | (sv, inr a) =>
          let v := Started (Server.address a) (Server.port a) in
          (mkLifecycle (status s) (Some sv) (Some v), inr v)
      | (_, inl err) => (mkLifecycle Stopped None None, inl err)
      end
  end.

(** [stop()], awaited. *)
Definition stop (close : option string) (s : lifecycle)
  : lifecycle * settled unit :=
  match status s with
  | Stopped => (s, Fulfilled tt)
  | Started _ _ =>
      match server s with
      | None => (s, Fulfilled tt)
      | Some sv =>
          match Server.stop close sv with
          | (sv', None) => (mkLifecycle (status s) (Some sv') (startPromise s), Fulfilled tt)
          | (_, Some r) => (mkLifecycle Stopped None None, r)
          end
      end
  end.

(** The [status] getter. *)
Definition get_status (s : lifecycle) : InnertubeSupportServiceStatus :=
  status s.

(** A caller that awaits each call before the next. *)
Inductive call : Type :=
  | CallStart (listen : string + Server.AddressInfo)
  | CallStop (close : option string).

Definition perform (c : call) (s : lifecycle) : lifecycle :=
  match c with
  | CallStart listen => fst (start listen s)
  | CallStop close => fst (stop close s)
  end.

Definition perform_all (cs : list call) (s : lifecycle) : lifecycle :=
  fold_left (fun acc c => perform c acc) cs s.

End Service.

(** ** Spawn.ts: [spawnInnertubeSupportService] *)

Module Spawn.

Inductive runtime : Type := node | deno.

(** [isDenoInstalled()] *)
Inductive DenoInstallStatus : Type :=
  | Installed (version : string)
  | NotInstalled (error_message : string).

(** What the callbacks [onStdOut] / [onStdErr] were called with. *)
Inductive logged : Type :=
  | Text (s : string)
  | Data (chunk : string)
  | ClosedWithCode (code : option Z).

(** Signals sent: [kill(proc.pid)] of tree-kill, which signals the process
    and all its descendants, and [proc.kill()], which signals the process
    alone. *)
Inductive signal : Type :=
  | TreeKill (pid : nat)
  | ProcKill.

(** The value the promise of the spawn resolves with: the parsed payload
    and the runtime (its [stop] member is the function [stop] below). *)
Record SpawnedInnertubeSupportService : Type := {
  payload : Service.InnertubeSupportServiceStatus;
  runtime_used : runtime
}.

(** [promise]: the promise returned by the spawn, [None] while pending.
    [close_waiters]: the listeners registered by [proc.once('close', ...)],
    by the promise of the [stop()] call each resolves.
    [stops_resolved]: the promises of [stop()] calls resolved so far. *)
Record state : Type := mk {
  promise : option (settled SpawnedInnertubeSupportService);
  used : runtime;
  pid : option nat;
  rl_closed : bool;
  stdout_log : list logged;
  stderr_log : list logged;
  onStop_calls : nat;
  signals : list signal;
  close_waiters : list nat;
  stops_resolved : list nat;
  next_stop : nat
}.

(** The executor of the promise, up to the registration of the listeners.
    [proc_pid] is the pid of the spawned process, if it has one. *)
Definition spawnInnertubeSupportService (denoStatus : DenoInstallStatus)
    (proc_pid : option nat) : state :=
  match denoStatus with
  | Installed version =>
      mk None deno proc_pid false
        [Text ("Start service with Deno: " +:+ version)] [] 0 [] [] [] 0
  | NotInstalled msg =>
      mk None node proc_pid false
        [Text ("Deno not installed or otherwise failed to start: " +:+ msg);
         Text "Start service with Node"] [] 0 [] [] [] 0
  end.

(** [resolve] and [reject] do nothing on a promise that is settled. *)
Definition settle (r : settled SpawnedInnertubeSupportService)
    (s : state) : option (settled SpawnedInnertubeSupportService) :=
  match promise s with
  | Some v => Some v
  | None => Some r
  end.

Definition result_prefix : string := "result: ".

Section Handlers.

(** [JSON.parse]: the parsed payload, or the message of the error. *)
Variable JSON_parse : string -> string + Service.InnertubeSupportServiceStatus.

(** The ['line'] listener of the readline interface. *)
Definition on_line (line : string) (s : state) : state :=
  if String.prefix result_prefix line then
    let resultJSON :=
      String.substring (String.length result_prefix)
        (String.length line - String.length result_prefix) line in
    match JSON_parse resultJSON with
    | inr parsed =>
        mk (settle (Fulfilled {| payload := parsed; runtime_used := used s |}) s)
          (used s) (pid s) true (stdout_log s) (stderr_log s)
          (onStop_calls s) (signals s) (close_waiters s)
          (stops_resolved s) (next_stop s)
    | inl msg =>
        mk (settle (Rejected ("Failed to parse service result: " +:+ msg)) s)
          (used s) (pid s) true (stdout_log s) (stderr_log s)
          (onStop_calls s) (signals s ++ [ProcKill]) (close_waiters s)
          (stops_resolved s) (next_stop s)
    end
  else s.

(** The ['close'] listeners of the process: the one registered by the
    spawn, then those registered once by [stop()]. *)
Definition on_close (code : option Z) (s : state) : state :=
  mk (promise s) (used s) (pid s) (rl_closed s)
    (stdout_log s ++ [ClosedWithCode code]) (stderr_log s)
    (S (onStop_calls s)) (signals s) []
    (stops_resolved s ++ close_waiters s) (next_stop s).

(** The [stop] closure: the promise it returns, and the state after. *)
Definition stop (s : state) : nat * state :=
  let k := next_stop s in
  match pid s with
  | Some p =>
      (k, mk (promise s) (used s) (pid s) (rl_closed s)
            (stdout_log s ++ [Text "Stopping service..."]) (stderr_log s)
            (onStop_calls s) (signals s ++ [TreeKill p])
            (close_waiters s ++ [k]) (stops_resolved s) (S k))
  | None =>
      (k, mk (promise s) (used s) (pid s) (rl_closed s)
            (stdout_log s ++ [Text "Stopping service..."])
            (stderr_log s ++ [Text "Could not stop service because process lacks pid"])
            (onStop_calls s) (signals s)
            (close_waiters s) (stops_resolved s ++ [k]) (S k))
  end.

(** What the subprocess and the holder of the spawned service can do.
    [stop] exists only in the value the promise resolved with.  Lines
    are handed to the listener whether or not [rl.close()] was called:
    readline may still deliver the lines it had buffered. *)
Inductive event : Type :=
  | StdoutData (chunk : string)
  | StderrData (chunk : string)
  | Line (line : string)
  | Close (code : option Z)
  | CallStop.

Definition step (e : event) (s : state) : state :=
  match e with
  | StdoutData chunk =>
      mk (promise s) (used s) (pid s) (rl_closed s)
        (stdout_log s ++ [Data chunk]) (stderr_log s)
        (onStop_calls s) (signals s) (close_waiters s)
        (stops_resolved s) (next_stop s)
  | StderrData chunk =>
      mk (promise s) (used s) (pid s) (rl_closed s)
        (stdout_log s) (stderr_log s ++ [Data chunk])
        (onStop_calls s) (signals s) (close_waiters s)
        (stops_resolved s) (next_stop s)
  | Line line => on_line line s
  | Close code => on_close code s
  | CallStop =>
      match promise s with
      | Some (Fulfilled _) => snd (stop s)
      | _ => s
      end
  end.

Definition run (evs : list event) (s : state) : state :=
  fold_left (fun acc e => step e acc) evs s.

Definition is_ready_line (e : event) : bool :=
  match e with
  | Line line => String.prefix result_prefix line
  | _ => false
  end.

Definition is_close (e : event) : bool :=
  match e with
  | Close _ => true
  | _ => false
  end.

End Handlers.

End Spawn.

(** ** Wrapper.ts: [InnertubeWrapper] *)

Module Wrapper.

Inductive IdentifierType : Type := visitorData_id | datasyncIdToken_id.

Record Identifier : Type := {
  id_type : IdentifierType;
  id_value : string;
  pageId : option string
}.

(** [POToken], with [params] flattened. *)
Record POToken : Type := {
  visitorData : option string;
  identifier : Identifier;
  value : string;
  ttl : option Z;
  refreshThreshold : option Z
}.

Record AccountConfig : Type := {
  cookie : option string;
  activeChannelHandle : option string
}.

Record Locale : Type := { region : option string; language : option string }.

(** The client instance: which one it is, and the two fields of its
    session context that the wrapper writes. *)
Record Innertube : Type := {
  instance : nat;
  gl : option string;
  hl : option string
}.

(** Where a call of [#initInnertube] is suspended: at
    [await this.#generateSessionPoToken()], or at [await Innertube.create]
    with the session token it got (if any). *)
Inductive stage : Type :=
  | AwaitToken
  | AwaitClient (sessionPot : option POToken).

Inductive logged : Type :=
  | WarnNoPoToken
  | InfoGoingToRefreshIn (timeout : Z)
  | InfoRefresh.

(** The private fields of the class, then the run-time around them:
    [tasks], the suspended calls of [#initInnertube] by the promise each
    will settle; [sessions], the promises settled so far (a fulfilled one
    holds the instance); [constructions], how many times [#initInnertube]
    was called; [stop_calls], how many times [#service.stop()] was. *)
Record state : Type := mk {
  account : option AccountConfig;
  locale : Locale;
  innertubePromise : option nat;
  service : option Spawn.SpawnedInnertubeSupportService;
  innertube : option Innertube;
  lastSessionPoToken : option POToken;
  poTokenRefreshTimer : option nat;
  disposed : bool;
  loop : EventLoop.t;
  tasks : gmap nat stage;
  sessions : gmap nat (settled nat);
  next_promise : nat;
  constructions : nat;
  stop_calls : nat;
  log : list logged
}.

Definition set_locale (v : Locale) (s : state) : state :=
  mk (account s) v (innertubePromise s) (service s) (innertube s)
    (lastSessionPoToken s) (poTokenRefreshTimer s) (disposed s) (loop s)
    (tasks s) (sessions s) (next_promise s) (constructions s)
    (stop_calls s) (log s).

Definition set_innertubePromise (v : option nat) (s : state) : state :=
  mk (account s) (locale s) v (service s) (innertube s)
    (lastSessionPoToken s) (poTokenRefreshTimer s) (disposed s) (loop s)
    (tasks s) (sessions s) (next_promise s) (constructions s)
    (stop_calls s) (log s).

Definition set_service (v : option Spawn.SpawnedInnertubeSupportService)
    (s : state) : state :=
  mk (account s) (locale s) (innertubePromise s) v (innertube s)
    (lastSessionPoToken s) (poTokenRefreshTimer s) (disposed s) (loop s)
    (tasks s) (sessions s) (next_promise s) (constructions s)
    (stop_calls s) (log s).

Definition set_innertube (v : option Innertube) (s : state) : state :=
  mk (account s) (locale s) (innertubePromise s) (service s) v
    (lastSessionPoToken s) (poTokenRefreshTimer s) (disposed s) (loop s)
    (tasks s) (sessions s) (next_promise s) (constructions s)
    (stop_calls s) (log s).

Definition set_lastSessionPoToken (v : option POToken) (s : state) : state :=
  mk (account s) (locale s) (innertubePromise s) (service s) (innertube s)
    v (poTokenRefreshTimer s) (disposed s) (loop s) (tasks s) (sessions s)
    (next_promise s) (constructions s) (stop_calls s) (log s).

Definition set_poTokenRefreshTimer (v : option nat) (s : state) : state :=
  mk (account s) (locale s) (innertubePromise s) (service s) (innertube s)
    (lastSessionPoToken s) v (disposed s) (loop s) (tasks s) (sessions s)
    (next_promise s) (constructions s) (stop_calls s) (log s).

Definition set_disposed (v : bool) (s : state) : state :=
  mk (account s) (locale s) (innertubePromise s) (service s) (innertube s)
    (lastSessionPoToken s) (poTokenRefreshTimer s) v (loop s) (tasks s)
    (sessions s) (next_promise s) (constructions s) (stop_calls s) (log s).

Definition set_loop (v : EventLoop.t) (s : state) : state :=
  mk (account s) (locale s) (innertubePromise s) (service s) (innertube s)
    (lastSessionPoToken s) (poTokenRefreshTimer s) (disposed s) v
    (tasks s) (sessions s) (next_promise s) (constructions s)
    (stop_calls s) (log s).

Definition set_tasks (v : gmap nat stage) (s : state) : state :=
  mk (account s) (locale s) (innertubePromise s) (service s) (innertube s)
    (lastSessionPoToken s) (poTokenRefreshTimer s) (disposed s) (loop s) v
    (sessions s) (next_promise s) (constructions s) (stop_calls s) (log s).

Definition set_sessions (v : gmap nat (settled nat)) (s : state) : state :=
  mk (account s) (locale s) (innertubePromise s) (service s) (innertube s)
    (lastSessionPoToken s) (poTokenRefreshTimer s) (disposed s) (loop s)
    (tasks s) v (next_promise s) (constructions s) (stop_calls s) (log s).

Definition set_next_promise (v : nat) (s : state) : state :=
  mk (account s) (locale s) (innertubePromise s) (service s) (innertube s)
    (lastSessionPoToken s) (poTokenRefreshTimer s) (disposed s) (loop s)
    (tasks s) (sessions s) v (constructions s) (stop_calls s) (log s).

Definition set_constructions (v : nat) (s : state) : state :=
  mk (account s) (locale s) (innertubePromise s) (service s) (innertube s)
    (lastSessionPoToken s) (poTokenRefreshTimer s) (disposed s) (loop s)
    (tasks s) (sessions s) (next_promise s) v (stop_calls s) (log s).

Definition set_stop_calls (v : nat) (s : state) : state :=
  mk (account s) (locale s) (innertubePromise s) (service s) (innertube s)
    (lastSessionPoToken s) (poTokenRefreshTimer s) (disposed s) (loop s)
    (tasks s) (sessions s) (next_promise s) (constructions s) v (log s).

Definition set_log (v : list logged) (s : state) : state :=
  mk (account s) (locale s) (innertubePromise s) (service s) (innertube s)
    (lastSessionPoToken s) (poTokenRefreshTimer s) (disposed s) (loop s)
    (tasks s) (sessions s) (next_promise s) (constructions s)
    (stop_calls s) v.

Definition disposed_error : string := "Innertube instance already disposed".

Definition not_started_error : string := "Innertube support service not started".

(** The constructor and the assignments of [create] that follow the spawn. *)
Definition fresh (acct : option AccountConfig) (loc : Locale)
    (svc : Spawn.SpawnedInnertubeSupportService) : state :=
  mk acct loc None (Some svc) None None None false EventLoop.empty ∅ ∅ 0 0 0 [].

Definition clearPoTokenRefreshTimer (s : state) : state :=
  match poTokenRefreshTimer s with
  | Some h =>
      set_poTokenRefreshTimer None
        (set_loop (EventLoop.clearTimeout h (loop s)) s)
  | None => s
  end.

Definition set_gl (v : option string) (c : Innertube) : Innertube :=
  {| instance := instance c; gl := v; hl := hl c |}.

Definition set_hl (v : option string) (c : Innertube) : Innertube :=
  {| instance := instance c; gl := gl c; hl := v |}.

(** [#applyLocale()]: [inl] is the error thrown by [#checkDisposed]. *)
Definition applyLocale (s : state) : string + state :=
  if disposed s then inl disposed_error
  else
    match innertube s with
    | None => inr s
    | Some c =>
        let c1 :=
          match Text.truthy (region (locale s)) with
          | Some r => set_gl (Some r) c
          | None => c
          end in
        let c2 :=
          match Text.truthy (language (locale s)) with
          | Some l => set_hl (Some l) c1
          | None => c1
          end in
        inr (set_innertube (Some c2) s)
    end.

(** [#initInnertube()] up to its first [await]. *)
Definition initInnertube (s : state) : nat * state :=
  let s1 := clearPoTokenRefreshTimer s in
  let p := next_promise s1 in
  (p, set_constructions (S (constructions s1))
        (set_next_promise (S p)
           (set_tasks (<[p := AwaitToken]> (tasks s1)) s1))).

Definition initInnertubePromise (s : state) : nat * state :=
  match innertubePromise s with
  | Some p => (p, s)
  | None =>
      let '(p, s1) := initInnertube s in
      (p, set_innertubePromise (Some p) s1)
  end.

(** How far the promise that [create] returned has come. *)
Inductive create_status : Type :=
  | CreatePending
  | CreateResolved
  | CreateRejected (e : string).

Definition getInnertube (s : state) : outcome nat * state :=
  if disposed s then (Thrown disposed_error, s)
  else
    let '(p, s1) := initInnertubePromise s in
    (Returned p, s1).

(** The request [generatePoToken] sends. *)
Record pot_request : Type := {
  to_address : string;
  to_port : Z;
  for_identifier : string
}.

(** [generatePoToken(identifier)] up to its [await]: the function is
    [async], so an error in this part is the rejection of the promise it
    returns. *)
Definition generatePoToken (ident : string) (s : state) : outcome pot_request :=
  if disposed s then RejectedNow disposed_error
  else
    match service s with
    | None => RejectedNow not_started_error
    | Some svc =>
        match Spawn.payload svc with
        | Service.Stopped => RejectedNow not_started_error
        | Service.Started a p =>
            Returned {| to_address := a; to_port := p; for_identifier := ident |}
        end
    end.

Definition setLocale (loc : Locale) (s : state) : outcome unit * state :=
  if disposed s then (Thrown disposed_error, s)
  else
    match applyLocale (set_locale loc s) with
    | inl e => (Thrown e, set_locale loc s)
    | inr s1 => (Returned tt, s1)
    end.

(** [dispose()] up to its [await]; what follows the [await] is
    [service_gone]. *)
Definition dispose (s : state) : state :=
  if disposed s then s
  else
    let s1 := clearPoTokenRefreshTimer s in
    let s2 :=
      set_innertube None
        (set_lastSessionPoToken None
           (set_innertubePromise None (set_disposed true s1))) in
    match service s2 with
    | Some _ => set_stop_calls (S (stop_calls s2)) s2
    | None => s2
    end.

(** [this.#service = null]: the end of [dispose()], and the [onStop]
    callback given to the spawn. *)
Definition service_gone (s : state) : state := set_service None s.

(** The seconds after which the session is refreshed. *)
Definition session_timeout (ttl : Z) (refreshThreshold : option Z) : Z :=
  let timeout := (ttl - default 100 refreshThreshold)%Z in
  if (timeout <? 0)%Z then 120%Z else timeout.

(** The end of [#initInnertube()] once the client made with the token is
    there: [if (ttl) { ... setTimeout ... }]. *)
Definition arm_refresh (sessionPot : POToken) (s : state) : state :=
  match ttl sessionPot with
  | None => s
  | Some t =>
      if (t =? 0)%Z then s
      else
        let timeout := session_timeout t (refreshThreshold sessionPot) in
        let '(h, l) := EventLoop.setTimeout (timeout * 1000) (loop s) in
        set_poTokenRefreshTimer (Some h)
          (set_loop l (set_log (log s ++ [InfoGoingToRefreshIn timeout]) s))
  end.

Definition finish (p : nat) (r : settled nat) (s : state) : state :=
  set_sessions (<[p := r]> (sessions s)) (set_tasks (delete p (tasks s)) s).

(** [#initInnertube()] resumed with the result of
    [#generateSessionPoToken()].  That function reads fields of the wrapper
    and waits for the network, but writes no field; its result is an input
    here. *)
Definition token_settled (p : nat) (r : settled (option POToken)) (s : state)
  : state :=
  match r with
  | Rejected e => finish p (Rejected e) s
  | Fulfilled sessionPot =>
      let s1 := set_lastSessionPoToken sessionPot s in
      match sessionPot with
      | Some pot => set_tasks (<[p := AwaitClient (Some pot)]> (tasks s1)) s1
      | None =>
          match innertube s1 with
          | None => set_tasks (<[p := AwaitClient None]> (tasks s1)) s1
          | Some _ =>
              match applyLocale s1 with
              | inl e => finish p (Rejected e) s1
              | inr s2 =>
                  let s3 := set_log (log s2 ++ [WarnNoPoToken]) s2 in
                  match innertube s3 with
                  | Some c => finish p (Fulfilled (instance c)) s3
                  | None => s3
                  end
              end
          end
      end
  end.

(** [#initInnertube()] resumed with the result of [Innertube.create]. *)
Definition client_settled (p : nat) (sessionPot : option POToken)
    (r : settled Innertube) (s : state) : state :=
  match r with
  | Rejected e => finish p (Rejected e) s
  | Fulfilled c =>
      let s1 := set_innertube (Some c) s in
      match applyLocale s1 with
      | inl e => finish p (Rejected e) s1
      | inr s2 =>
          let s3 :=
            match sessionPot with
            | None => set_log (log s2 ++ [WarnNoPoToken]) s2
            | Some pot => arm_refresh pot s2
            end in
          finish p (Fulfilled (instance c)) s3
      end
  end.

(** [#refreshSessionPoToken()], the callback of the timer. *)
Definition refreshSessionPoToken (s : state) : state :=
  let s1 := clearPoTokenRefreshTimer s in
  let s2 := set_log (log s1 ++ [InfoRefresh]) s1 in
  let '(p, s3) := initInnertube s2 in
  set_innertubePromise (Some p) s3.

(** What can happen to a wrapper: the public operations, the loss of the
    service, the settling of what a construction awaits, a timer firing. *)
Inductive event : Type :=
  | GetInnertube
  | GeneratePoToken (ident : string)
  | SetLocale (loc : Locale)
  | Dispose
  | ServiceGone
  | TokenSettled (p : nat) (r : settled (option POToken))
  | ClientSettled (p : nat) (r : settled Innertube)
  | TimerFired (h : nat).

Definition step (e : event) (s : state) : state :=
  match e with
  | GetInnertube => snd (getInnertube s)
  | GeneratePoToken _ => s
  | SetLocale loc => snd (setLocale loc s)
  | Dispose => dispose s
  | ServiceGone => service_gone s
  | TokenSettled p r =>
      match tasks s !! p with
      | Some AwaitToken => token_settled p r s
      | _ => s
      end
  | ClientSettled p r =>
      match tasks s !! p with
      | Some (AwaitClient sessionPot) => client_settled p sessionPot r s
      | _ => s
      end
  | TimerFired h =>
      if decide (is_Some (EventLoop.pending (loop s) !! h)) then
        refreshSessionPoToken (set_loop (EventLoop.fire h (loop s)) s)
      else s
  end.

Definition run (evs : list event) (s : state) : state :=
  fold_left (fun acc e => step e acc) evs s.

(** The promises handed to the [GetInnertube] calls of a run, in order. *)
Fixpoint answers (evs : list event) (s : state) : list nat :=
  match evs with
  | [] => []
  | GetInnertube :: rest =>
      match fst (getInnertube s) with
      | Returned p => p :: answers rest (step GetInnertube s)
      | _ => answers rest (step GetInnertube s)
      end
  | e :: rest => answers rest (step e s)
  end.

Definition step_ops (e : event) (s : state) : list EventLoop.op :=
  EventLoop.ops_since (loop s) (loop (step e s)).

Definition settles (e : event) : bool :=
  match e with
  | TokenSettled _ _ | ClientSettled _ _ => true
  | _ => false
  end.

(** [create], from the moment the spawn has resolved with [svc], followed
    through the events [evs] that reach the instance afterwards.  When the
    service did not start, [create] throws and nothing holds the instance.
    Otherwise it calls [#initInnertubePromise()] and awaits the promise it
    gets: [create] is pending as long as that promise is, resolves with the
    instance when it is fulfilled, and is rejected with its error when it
    is rejected. *)
Definition create (acct : option AccountConfig) (loc : Locale)
    (svc : Spawn.SpawnedInnertubeSupportService) (evs : list event)
  : create_status * option state :=
  match Spawn.payload svc with
  | Service.Stopped =>
      (CreateRejected "Failed to start Innertube support service", None)
  | Service.Started _ _ =>
      let '(p, s0) := initInnertubePromise (fresh acct loc svc) in
      let s := run evs s0 in
      (match sessions s !! p with
       | None => CreatePending
       | Some (Fulfilled _) => CreateResolved
       | Some (Rejected e) => CreateRejected e
       end, Some s)
  end.

(** No construction has resolved for what is cached: nothing is cached, or
    the cached promise is that of a construction still in flight. *)
Definition unresolved (s : state) : bool :=
  match innertubePromise s with
  | None => true
  | Some p => bool_decide (is_Some (tasks s !! p))
  end.

End Wrapper.

(** ** Sample values used by the examples *)

Module Sample.

Definition minterResult (ttl : Z) (refreshThreshold : option Z)
  : PoToken.PoTokenMinterResult :=
  PoToken.mk 7 ttl refreshThreshold 1700000000000.

Definition address : Server.AddressInfo :=
  {| Server.address := "127.0.0.1"; Server.port := 40123 |}.

Definition spawned : Spawn.SpawnedInnertubeSupportService :=
  {| Spawn.payload := Service.Started "127.0.0.1" 40123;
     Spawn.runtime_used := Spawn.deno |}.

Definition locale : Wrapper.Locale :=
  {| Wrapper.region := Some "US"; Wrapper.language := Some "en" |}.

Definition sessionPot (ttl refreshThreshold : option Z) : Wrapper.POToken :=
  {| Wrapper.visitorData := Some "visitor";
     Wrapper.identifier :=
       {| Wrapper.id_type := Wrapper.visitorData_id;
          Wrapper.id_value := "visitor";
          Wrapper.pageId := None |};
     Wrapper.value := "token";
     Wrapper.ttl := ttl;
     Wrapper.refreshThreshold := refreshThreshold |}.

Definition client : Wrapper.Innertube :=
  {| Wrapper.instance := 1; Wrapper.gl := None; Wrapper.hl := None |}.

(** A remote script that runs to its end and exports two functions. *)
Definition script : EvalFn.BuildScriptResult :=
  {| EvalFn.output := "var exportedVars = player();" |}.

Definition exported : EvalFn.ExportedVars :=
  {| EvalFn.nFunction := fun a => Fulfilled (EvalFn.AString ("n-" +:+ a));
     EvalFn.sigFunction := fun a => Fulfilled (EvalFn.AString ("sig-" +:+ a)) |}.

Definition run_output (text : string) : EvalFn.script_outcome :=
  EvalFn.FallsThrough (Some exported).

(** A remote script whose exported functions return nothing. *)
Definition exported_nothing : EvalFn.ExportedVars :=
  {| EvalFn.nFunction := fun _ => Fulfilled EvalFn.AUndefined;
     EvalFn.sigFunction := fun _ => Fulfilled EvalFn.AUndefined |}.

Definition run_output_nothing (text : string) : EvalFn.script_outcome :=
  EvalFn.FallsThrough (Some exported_nothing).

(** An [env.sig] that closes the string literal it is pasted into and
    writes a second property. *)
Definition sig_with_quote : string :=
  "a" +:+ Text.dquote +:+ "), x: exportedVars.sigFunction(" +:+ Text.dquote +:+ "b".

(** A [JSON.stringify] and a [JSON.parse] for the status, which agree on
    the address (the port is the sample one). *)
Definition JSON_stringify_status (status : Service.InnertubeSupportServiceStatus)
  : string :=
  match status with
  | Service.Started a _ => "started at " +:+ a
  | Service.Stopped => "stopped"
  end.

Definition JSON_parse_status (text : string)
  : string + Service.InnertubeSupportServiceStatus :=
  match Text.strip_prefix "started at " text with
  | Some a => inr (Service.Started a 40123)
  | None =>
      if String.eqb text "stopped" then inr Service.Stopped
      else inl "Unexpected token"
  end.

(** A [JSON.parse] that accepts one payload. *)
Definition JSON_parse (text : string)
  : string + Service.InnertubeSupportServiceStatus :=
  if String.eqb text "{}" then inr Service.Stopped
  else inl "Unexpected token".

(** A wrapper whose construction waits for the client made with the
    session token [pot]. *)
Definition awaiting_client (pot : Wrapper.POToken) : Wrapper.state :=
  Wrapper.run
    [Wrapper.GetInnertube; Wrapper.TokenSettled 0 (Fulfilled (Some pot))]
    (Wrapper.fresh None locale spawned).

End Sample.

(** ** Utils.ts *)

Module Utils.

(** *** [isDenoInstalled] *)

(** [split(/\r?\n/)[0]]: the text before the first line break, where a
    carriage return counts as part of the break only when a line feed
    follows it. *)
Fixpoint first_line (s : string) : string :=
  match s with
  | EmptyString => EmptyString
  | String c rest =>
      if Ascii.eqb c "010" then EmptyString
      else if Ascii.eqb c "013" then
        match rest with
        | String c' _ =>
            if Ascii.eqb c' "010" then EmptyString else String c (first_line rest)
        | EmptyString => String c EmptyString
        end
      else String c (first_line rest)
  end.

Fixpoint has_line_feed (s : string) : bool :=
  match s with
  | EmptyString => false
  | String c rest => Ascii.eqb c "010" || has_line_feed rest
  end.

Fixpoint ends_with_cr (s : string) : bool :=
  match s with
  | EmptyString => false
  | String c EmptyString => Ascii.eqb c "013"
  | String _ rest => ends_with_cr rest
  end.

(** [t] is what follows the first line [v] of a text: nothing, or a line
    break, which is a line feed, or a carriage return and a line feed; a
    line feed alone is not preceded by a carriage return (the carriage
    return would belong to the break). *)
Definition line_break_follows (v t : string) : Prop :=
  t = EmptyString
  \/ (exists r, t = String "013" (String "010" r))
  \/ (exists r, t = String "010" r /\ ends_with_cr v = false).

(** The module-level variable [denoInstalled], and how many times the
    version command was run. *)
Record probe_cache : Type := mkCache {
  denoInstalled : option Spawn.DenoInstallStatus;
  probes : nat
}.

Definition no_probe : probe_cache := mkCache None 0.

Section Probe.

(** [String.prototype.trim], taken as given. *)
Variable trim : string -> string.

(** What the probe makes of the outcome of [execSync]: its output, or the
    message of the error it threw. *)
Definition probe_status (exec : string + string) : Spawn.DenoInstallStatus :=
  match exec with
  | inr output => Spawn.Installed (first_line (trim output))
  | inl message => Spawn.NotInstalled message
  end.

(** [isDenoInstalled()]; [exec] is what [execSync] would give if it were
    run now. *)
Definition isDenoInstalled (exec : string + string) (c : probe_cache)
  : Spawn.DenoInstallStatus * probe_cache :=
  match denoInstalled c with
  | Some d => (d, c)
  | None =>
      let d := probe_status exec in
      (d, mkCache (Some d) (S (probes c)))
  end.

(** Successive calls, each with what [execSync] would give at that time. *)
Fixpoint ask (execs : list (string + string)) (c : probe_cache)
  : list Spawn.DenoInstallStatus * probe_cache :=
  match execs with
  | [] => ([], c)
  | exec :: rest =>
      let '(d, c1) := isDenoInstalled exec c in
      let '(ds, c2) := ask rest c1 in
      (d :: ds, c2)
  end.

End Probe.

(** *** [getActiveAccountDatasyncIdToken] *)

(** One entry of [supportedTokens].  [pageIdToken] is [None] when the entry
    has no such property, [Some None] when it has one without a [pageId],
    [Some (Some v)] when [String(pageId)] is [v]; likewise
    [datasyncIdToken]. *)
Record SupportedToken : Type := {
  pageIdToken : option (option string);
  datasyncIdToken : option (option string)
}.

(** An account as [account.getInfo] lists it; [supportedTokens] is [None]
    when the payload holds no array. *)
Record Account : Type := {
  is_disabled : bool;
  is_selected : bool;
  channel_handle : string;
  supportedTokens : option (list SupportedToken)
}.

Inductive DatasyncResult : Type :=
  | NoActiveAccount
  | ActiveAccount (datasyncId : option string) (pageId : option string).

(** One turn of the loop over [supportedTokens]; the pair is
    [(pageId, datasyncIdToken)]. *)
Definition scan_token (found : option string * option string)
    (token : SupportedToken) : option string * option string :=
  match pageIdToken token with
  | Some (Some v) => (Some v, snd found)
  | _ =>
      match datasyncIdToken token with
      | Some (Some v) => (fst found, Some v)
      | _ => found
      end
  end.

(** The [pageId] an entry carries, and the [datasyncIdToken] it contributes
    (none when it carries a [pageId]: the second test is an [else if]). *)
Definition page_of (token : SupportedToken) : option string :=
  match pageIdToken token with
  | Some (Some v) => Some v
  | _ => None
  end.

Definition datasync_of (token : SupportedToken) : option string :=
  match page_of token with
  | Some _ => None
  | None =>
      match datasyncIdToken token with
      | Some (Some v) => Some v
      | _ => None
      end
  end.

Definition scan_tokens (tokens : option (list SupportedToken))
  : option string * option string :=
  match tokens with
  | Some ts => fold_left scan_token ts (None, None)
  | None => (None, None)
  end.

Definition enabled (accounts : list Account) : list Account :=
  List.filter (fun ac => negb (is_disabled ac)) accounts.

Definition has_handle (h : string) (ac : Account) : bool :=
  String.eqb (channel_handle ac) h.

Definition no_accounts_warning (h : string) : string :=
  "No accounts found with channel handle " +:+ Text.dquote +:+ h +:+ Text.dquote.

(** The account the tokens are read from, and the warnings logged. *)
Definition target_account (info : list Account) (activeChannelHandle : option string)
  : option Account * list string :=
  let accounts := enabled info in
  let active := List.find is_selected accounts in
  match Text.truthy activeChannelHandle with
  | Some h =>
      match List.find (has_handle h) accounts with
      | Some t => (Some t, [])
      | None => (active, [no_accounts_warning h])
      end
  | None => (active, [])
  end.

(** [getActiveAccountDatasyncIdToken]: [logged_in] is
    [innertube.session.logged_in], [info] what [account.getInfo(true)]
    resolves with (asked only when logged in). *)
Definition getActiveAccountDatasyncIdToken (logged_in : bool)
    (info : list Account) (activeChannelHandle : option string)
  : DatasyncResult * list string :=
  if logged_in then
    match target_account info activeChannelHandle with
    | (None, warnings) => (NoActiveAccount, warnings)
    | (Some t, warnings) =>
        let '(page, datasync) := scan_tokens (supportedTokens t) in
        (ActiveAccount datasync page, warnings)
    end
  else (NoActiveAccount, []).

End Utils.

(** ** Server.ts: sequences of awaited calls *)

Module ServerCalls.

(** A caller of [InnertubeSupportServer] that awaits each call before the
    next; a call carries what the host reports for it. *)
Inductive call : Type :=
  | CallStart (listen : string + Server.AddressInfo)
  | CallStop (close : option string).

Definition perform (c : call) (s : Server.state) : Server.state :=
  match c with
  | CallStart listen => fst (Server.start listen s)
  | CallStop close => fst (Server.stop close s)
  end.

Definition perform_all (cs : list call) (s : Server.state) : Server.state :=
  fold_left (fun acc c => perform c acc) cs s.

End ServerCalls.

(** ** Wrapper.ts: [#generateSessionPoToken]

    The function writes no field of the wrapper.  It reads
    [#lastSessionPoToken], [#innertube] and [#account] when it is called,
    and, through [generatePoToken], [#disposed] and [#service] at the moment
    it asks for the token: the moment of the call when nothing was awaited
    before, a later one otherwise. *)

Module SessionToken.

(** What the function reads from the client it looks at. *)
Record ClientView : Type := {
  client_visitorData : option string;
  logged_in : bool;
  account_info : settled (list Utils.Account)
}.

Inductive logged : Type :=
  | Warn (text : string)
  | InfoObtained (type : Wrapper.IdentifierType) (ttl : Z).

Definition no_datasync_warning : string :=
  "Signed in but could not get datasyncIdToken for fetching session PO token - will use visitorData instead".

(** [this.#account?.cookie] and [this.#account?.activeChannelHandle] *)
Definition cookie_of (account : option Wrapper.AccountConfig) : option string :=
  account ≫= Wrapper.cookie.

Definition handle_of (account : option Wrapper.AccountConfig) : option string :=
  account ≫= Wrapper.activeChannelHandle.

(** The identifier the account gives: the block under
    [if (this.#account?.cookie)].  The accounts are asked for only when the
    session is logged in. *)
Definition account_identifier (account : option Wrapper.AccountConfig)
    (v : ClientView) : settled (option Wrapper.Identifier) * list logged :=
  match Text.truthy (cookie_of account) with
  | None => (Fulfilled None, [])
  | Some _ =>
      match (if logged_in v then account_info v else Fulfilled []) with
      | Rejected e => (Rejected e, [])
      | Fulfilled info =>
          match Utils.getActiveAccountDatasyncIdToken (logged_in v) info
                  (handle_of account) with
          | (Utils.ActiveAccount datasyncIdToken pageId, warnings) =>
              match Text.truthy datasyncIdToken with
              | Some d =>
                  (Fulfilled
                     (Some {| Wrapper.id_type := Wrapper.datasyncIdToken_id;
                              Wrapper.id_value := d;
                              Wrapper.pageId := pageId |}),
                   map Warn warnings)
              | None =>
                  (Fulfilled None, map Warn warnings ++ [Warn no_datasync_warning])
              end
          | (Utils.NoActiveAccount, warnings) => (Fulfilled None, map Warn warnings)
          end
      end
  end.

(** [if (!identifier && visitorData) identifier = { type: 'visitorData', ... }] *)
Definition or_visitor (identifier : option Wrapper.Identifier)
    (visitorData : option string) : option Wrapper.Identifier :=
  match identifier with
  | Some i => Some i
  | None =>
      match Text.truthy visitorData with
      | Some v =>
          Some {| Wrapper.id_type := Wrapper.visitorData_id;
                  Wrapper.id_value := v;
                  Wrapper.pageId := None |}
      | None => None
      end
  end.

(** What a call gave: the value of its promise, what it logged, the
    requests it sent to [/pot], and whether it called [Innertube.create]. *)
Record attempt : Type := mkAttempt {
  outcome : settled (option Wrapper.POToken);
  log : list logged;
  requests : list Wrapper.pot_request;
  created_client : bool
}.

(** Whether the function awaits something before it asks for the token. *)
Definition suspends (s : Wrapper.state) : bool :=
  match Wrapper.lastSessionPoToken s with
  | Some _ => false
  | None =>
      match Wrapper.innertube s with
      | None => true
      | Some _ =>
          match Text.truthy (cookie_of (Wrapper.account s)) with
          | Some _ => true
          | None => false
          end
      end
  end.

Section Run.

(** [view_of c]: what the session of the client [c] shows.  [created]:
    what [Innertube.create] gives when the function calls it.  [fetch]:
    the parsed reply to a request to [/pot].  [s]: the wrapper when the
    function is called; [s_later]: the wrapper when it asks for the token,
    if it was suspended before. *)
Variable view_of : Wrapper.Innertube -> ClientView.
Variable created : settled ClientView.
Variable fetch : Wrapper.pot_request -> settled Server.PotFnResult.

(** From [if (identifier)] on. *)
Definition mint (lg : list logged) (made : bool)
    (identifier : option Wrapper.Identifier) (visitorData : option string)
    (s_gen : Wrapper.state) : attempt :=
  match identifier with
  | None => mkAttempt (Fulfilled None) lg [] made
  | Some i =>
      match Wrapper.generatePoToken (Wrapper.id_value i) s_gen with
      | Returned req =>
          match fetch req with
          | Fulfilled poTokenResult =>
              mkAttempt
                (Fulfilled
                   (Some {| Wrapper.visitorData := visitorData;
                            Wrapper.identifier := i;
                            Wrapper.value := Server.poToken poTokenResult;
                            Wrapper.ttl := Some (Server.ttl poTokenResult);
                            Wrapper.refreshThreshold :=
                              Server.refreshThreshold poTokenResult |}))
                (lg ++ [InfoObtained (Wrapper.id_type i) (Server.ttl poTokenResult)])
                [req] made
          | Rejected e => mkAttempt (Rejected e) lg [req] made
          end
      | Thrown e | RejectedNow e => mkAttempt (Rejected e) lg [] made
      end
  end.

Definition generateSessionPoToken (s s_later : Wrapper.state) : attempt :=
  let s_gen := if suspends s then s_later else s in
  match Wrapper.lastSessionPoToken s with
  | Some last =>
      mint [] false (Some (Wrapper.identifier last)) (Wrapper.visitorData last) s_gen
  | None =>
      let made :=
        match Wrapper.innertube s with
        | Some _ => false
        | None => true
        end in
      match (match Wrapper.innertube s with
             | Some c => Fulfilled (view_of c)
             | None => created
             end) with
      | Rejected e => mkAttempt (Rejected e) [] [] made
      | Fulfilled v =>
          let visitorData := client_visitorData v in
          match account_identifier (Wrapper.account s) v with
          | (Rejected e, lg) => mkAttempt (Rejected e) lg [] made
          | (Fulfilled identifier, lg) =>
              mint lg made (or_visitor identifier visitorData) visitorData s_gen
          end
      end
  end.

End Run.

End SessionToken.

(** ** AutoplayManager.ts: [#findLastPlayedTrackQueueIndex] and [#handleAutoplay] *)

Module Autoplay.

(** A queue item, with the fields the interface requires. *)
Record QueueItem : Type := {
  service : string;
  uri : string;
  name : string;
  title : string
}.

(** [position] is the index Volumio reports for the track, an integer. *)
Record LastPlaybackInfo : Type := {
  track : QueueItem;
  position : Z
}.

(** [queue[i]?.uri === trackUri]; an index past the end gives [undefined]. *)
Definition at_uri (queue : list QueueItem) (trackUri : string) (i : nat) : bool :=
  match queue !! i with
  | Some q => String.eqb (uri q) trackUri
  | None => false
  end.

(** [for (let i = endIndex; i >= 0; i--)] from [i] down. *)
Fixpoint scan_down (queue : list QueueItem) (trackUri : string) (i : nat) : Z :=
  if at_uri queue trackUri i then Z.of_nat i
  else
    match i with
    | O => (-1)%Z
    | S j => scan_down queue trackUri j
    end.

Definition findLastPlayedTrackQueueIndex (lastPlaybackInfo : option LastPlaybackInfo)
    (queue : list QueueItem) : Z :=
  match lastPlaybackInfo with
  | None => (-1)%Z
  | Some info =>
      if (position info <? 0)%Z then (-1)%Z
      else scan_down queue (uri (track info)) (Z.to_nat (position info))
  end.

(** What [stateMachine.getState()] shows, by truthiness. *)
Record PlayerState : Type := {
  random : bool;
  repeat : bool;
  repeatSingle : bool
}.

(** The five ways the checks of [#handleAutoplay] end, by the message
    logged. *)
Inductive verdict : Type :=
  | NotApplicable
  | NotConfigured
  | NotFound
  | NotLast
  | Triggered.

Definition check (state : PlayerState) (autoplay : bool)
    (lastPlaybackInfo : option LastPlaybackInfo) (queue : list QueueItem)
  : verdict :=
  if random state || repeat state || repeatSingle state then NotApplicable
  else
    match autoplay, lastPlaybackInfo with
    | true, Some _ =>
        let lastPlayedQueueIndex :=
          findLastPlayedTrackQueueIndex lastPlaybackInfo queue in
        if (lastPlayedQueueIndex <? 0)%Z then NotFound
        else if (Z.of_nat (length queue) - 1 =? lastPlayedQueueIndex)%Z then Triggered
        else NotLast
    | _, _ => NotConfigured
    end.

(** What [#handleAutoplay] does to the state machine and its listeners. *)
Inductive action : Type :=
  | GetAutoplayItems (info : LastPlaybackInfo)
  | ClearQueue
  | AddQueueItems (items : list QueueItem)
  | Play (index : Z)
  | EmitQueued (items : list QueueItem).

(** How the promise of [#handleAutoplay] ends; [Hangs]: it is never
    settled (the promise around [addQueueItems] has no rejection path). *)
Inductive ending : Type :=
  | Done
  | Failed (e : string)
  | Hangs.

(** [fetched]: what [getAutoplayItems] gives; [clearQueue]: the value of
    [autoplayClearQueue]; [added]: what [addQueueItems] gives (the
    [firstItemIndex] of its result). *)
Definition handleAutoplay (state : PlayerState) (autoplay : bool)
    (lastPlaybackInfo : option LastPlaybackInfo) (queue : list QueueItem)
    (fetched : settled (list QueueItem)) (clearQueue : bool) (added : settled Z)
  : list action * ending :=
  match check state autoplay lastPlaybackInfo queue, lastPlaybackInfo with
  | Triggered, Some info =>
      match fetched with
      | Rejected e => ([GetAutoplayItems info], Failed e)
      | Fulfilled [] => ([GetAutoplayItems info; EmitQueued []], Done)
      | Fulfilled items =>
          let clear := if clearQueue then [ClearQueue] else [] in
          match added with
          | Fulfilled firstItemIndex =>
              (GetAutoplayItems info :: clear
                 ++ [AddQueueItems items; Play firstItemIndex; EmitQueued items],
               Done)
          | Rejected _ =>
              (GetAutoplayItems info :: clear ++ [AddQueueItems items], Hangs)
          end
      end
  | _, _ => ([], Done)
  end.

End Autoplay.

(** ** Wrapper.ts: [#eval], the function installed as [Platform.shim.eval] *)

Module WrapperEval.

(** The request [#eval] sends: [POST /eval] with the JSON of
    [{ data, env }]. *)
Record eval_request : Type := {
  to_address : string;
  to_port : Z;
  body : Server.EvalBody
}.

(** [#eval(data, env)] up to its [await]; the function is [async], so an
    error in this part is the rejection of the promise it returns. *)
Definition eval (data : EvalFn.BuildScriptResult) (env : EvalFn.Env)
    (s : Wrapper.state) : outcome eval_request :=
  if Wrapper.disposed s then RejectedNow Wrapper.disposed_error
  else
    match Wrapper.service s with
    | None => RejectedNow Wrapper.not_started_error
    | Some svc =>
        match Spawn.payload svc with
        | Service.Stopped => RejectedNow Wrapper.not_started_error
        | Service.Started a p =>
            Returned {| to_address := a; to_port := p;
                        body := {| Server.data := Some data;
                                   Server.env := Some env |} |}
        end
    end.

End WrapperEval.

(** ** The run script of the subprocess *)

Module RunScript.

Section Script.

(** [JSON.stringify] on the status. *)
Variable JSON_stringify : Service.InnertubeSupportServiceStatus -> string.

(** The lines the script prints when it starts the service: the result
    line once [service.start()] has resolved.  When [start()] rejects
    nothing is printed: the rejection is that of the promise of the
    [async] function, which the [try] around the call does not catch. *)
Definition printed (listen : string + Server.AddressInfo) : list string :=
  match snd (Service.start listen Service.lifecycle0) with
  | inr status => [Spawn.result_prefix +:+ JSON_stringify status]
  | inl _ => []
  end.

(** What the parent sees of these lines: the chunk on the standard output
    and the line handed to the readline listener. *)
Definition output (listen : string + Server.AddressInfo) : list Spawn.event :=
  flat_map (fun line => [Spawn.StdoutData (line +:+ Text.newline); Spawn.Line line])
    (printed listen).

End Script.

End RunScript.

(** ** AutoplayManager.ts: the two listeners

    The manager registers a callback with Volumio
    ([volumioCoreCommand.addCallback], which appends to the array
    [callbacks['volumioPushState']] that [#removeVolumioStateListener]
    reads) and a listener on the MPD client (an [EventEmitter]).  Both
    registries also hold the listeners of others.  [volumioCoreCommand] is
    taken to be there. *)

Module AutoplayManager.

Import Autoplay.

(** A registered function: one of the closures the manager made, by the
    number of its making, or somebody else's. *)
Inductive listener : Type :=
  | Own (n : nat)
  | Foreign (n : nat).

#[global] Instance listener_eq_dec : EqDecision listener.
Proof. solve_decision. Defined.

(** The state Volumio pushes; the track stored is this object. *)
Record VolumioState : Type := {
  status : string;
  item : QueueItem;
  at_position : Z
}.

(** [handled]: the calls of [#handleAutoplay] made so far, each with the
    [#lastPlaybackInfo] it found; [asked]: the [mpdPlugin.getState()]
    promises not yet resolved. *)
Record state : Type := mk {
  volumioStateListener : option nat;
  mpdStateListener : option nat;
  lastPlaybackInfo : option LastPlaybackInfo;
  callbacks : list listener;
  mpd_listeners : list listener;
  next_listener : nat;
  asked : list nat;
  next_promise : nat;
  handled : list (option LastPlaybackInfo)
}.

(** The constructor, with the listeners others have registered. *)
Definition new (callbacks mpd_listeners : list listener) : state :=
  mk None None None callbacks mpd_listeners 0 [] 0 [].

(** [array.splice(array.indexOf(x), 1)] when the index is not negative. *)
Fixpoint remove_first (x : listener) (l : list listener) : list listener :=
  match l with
  | [] => []
  | y :: rest => if decide (x = y) then rest else y :: remove_first x rest
  end.

(** [emitter.removeListener]: the most recently added instance goes. *)
Definition remove_last (x : listener) (l : list listener) : list listener :=
  rev (remove_first x (rev l)).

Definition addVolumioStateListener (s : state) : state :=
  match volumioStateListener s with
  | Some _ => s
  | None =>
      let n := next_listener s in
      mk (Some n) (mpdStateListener s) (lastPlaybackInfo s)
        (callbacks s ++ [Own n]) (mpd_listeners s) (S n)
        (asked s) (next_promise s) (handled s)
  end.

Definition removeVolumioStateListener (s : state) : state :=
  match volumioStateListener s with
  | Some n =>
      mk None (mpdStateListener s) (lastPlaybackInfo s)
        (remove_first (Own n) (callbacks s)) (mpd_listeners s) (next_listener s)
        (asked s) (next_promise s) (handled s)
  | None => s
  end.

Definition addMpdStateListener (s : state) : state :=
  match mpdStateListener s with
  | Some _ => s
  | None =>
      let n := next_listener s in
      mk (volumioStateListener s) (Some n) (lastPlaybackInfo s)
        (callbacks s) (mpd_listeners s ++ [Own n]) (S n)
        (asked s) (next_promise s) (handled s)
  end.

Definition removeMpdStateListener (s : state) : state :=
  match mpdStateListener s with
  | Some n =>
      mk (volumioStateListener s) None (lastPlaybackInfo s)
        (callbacks s) (remove_last (Own n) (mpd_listeners s)) (next_listener s)
        (asked s) (next_promise s) (handled s)
  | None => s
  end.

Definition set_lastPlaybackInfo (v : option LastPlaybackInfo) (s : state) : state :=
  mk (volumioStateListener s) (mpdStateListener s) v
    (callbacks s) (mpd_listeners s) (next_listener s)
    (asked s) (next_promise s) (handled s).

Definition enable (s : state) : state := addVolumioStateListener s.

Definition disable (s : state) : state :=
  removeVolumioStateListener (removeMpdStateListener s).

Section Manager.

(** [config.serviceName] *)
Variable serviceName : string.

(** The body of the Volumio callback. *)
Definition on_volumio_state (pushed : VolumioState) (s : state) : state :=
  if String.eqb (status pushed) "play" then
    if String.eqb (service (item pushed)) serviceName then
      addMpdStateListener
        (set_lastPlaybackInfo
           (Some {| track := item pushed; position := at_position pushed |}) s)
    else set_lastPlaybackInfo None (removeMpdStateListener s)
  else s.

(** The body of the MPD listener up to [getState()]: the promise asked. *)
Definition on_system_player (s : state) : state :=
  mk (volumioStateListener s) (mpdStateListener s) (lastPlaybackInfo s)
    (callbacks s) (mpd_listeners s) (next_listener s)
    (asked s ++ [next_promise s]) (S (next_promise s)) (handled s).

(** The [then] of that promise. *)
Definition on_mpd_state (mpd_status : string) (s : state) : state :=
  if String.eqb mpd_status "stop" then
    removeMpdStateListener
      (mk (volumioStateListener s) (mpdStateListener s) (lastPlaybackInfo s)
         (callbacks s) (mpd_listeners s) (next_listener s)
         (asked s) (next_promise s) (handled s ++ [lastPlaybackInfo s]))
  else s.

Definition is_own (l : listener) : bool :=
  match l with
  | Own _ => true
  | Foreign _ => false
  end.

(** What can happen to a manager.  A pushed state runs the callback once
    for each of the manager's entries in Volumio's array; a player event of
    MPD runs the listener once for each of its entries in the emitter. *)
Inductive event : Type :=
  | Enable
  | Disable
  | VolumioPushState (pushed : VolumioState)
  | MpdSystemPlayer
  | MpdStateReply (promise : nat) (mpd_status : string).

Definition step (e : event) (s : state) : state :=
  match e with
  | Enable => enable s
  | Disable => disable s
  | VolumioPushState pushed =>
      fold_left (fun acc _ => on_volumio_state pushed acc)
        (List.filter is_own (callbacks s)) s
  | MpdSystemPlayer =>
      fold_left (fun acc _ => on_system_player acc)
        (List.filter is_own (mpd_listeners s)) s
  | MpdStateReply promise mpd_status =>
      if decide (promise ∈ asked s) then
        on_mpd_state mpd_status
          (mk (volumioStateListener s) (mpdStateListener s) (lastPlaybackInfo s)
             (callbacks s) (mpd_listeners s) (next_listener s)
             (List.filter (fun q => negb (Nat.eqb q promise)) (asked s))
             (next_promise s) (handled s))
      else s
  end.

Definition run (evs : list event) (s : state) : state :=
  fold_left (fun acc e => step e acc) evs s.

End Manager.

End AutoplayManager.

(** * Invariants *)

(** ** The spawn *)

(** The promises of [stop()] are numbered below [next_stop]. *)
Definition stops_numbered (s : Spawn.state) : Prop :=
  forall k, In k (Spawn.stops_resolved s) \/ In k (Spawn.close_waiters s) ->
            (k < Spawn.next_stop s)%nat.

(** The exit codes of the close events of a trace, and the exit codes that
    [onStdOut] was told ([Process closed with code ...]), in order. *)
Definition close_codes (evs : list Spawn.event) : list (option Z) :=
  flat_map (fun e => match e with
                     | Spawn.Close code => [code]
                     | _ => []
                     end) evs.

Definition reported_closes (log : list Spawn.logged) : list (option Z) :=
  flat_map (fun l => match l with
                     | Spawn.ClosedWithCode code => [code]
                     | _ => []
                     end) log.

(** [k] waits for the close of a process that has a pid. *)
Definition waiting (k : nat) (s : Spawn.state) : Prop :=
  In k (Spawn.close_waiters s)
  /\ ~ In k (Spawn.stops_resolved s)
  /\ (k < Spawn.next_stop s)%nat
  /\ is_Some (Spawn.pid s).

(** ** The server *)

(** What [start()] and [stop()] of the server keep: the three private
    fields and the socket agree. *)
Definition server_coherent (s : Server.state) : Prop :=
  Server.server s = Server.listening s
  /\ Server.startPromise s = Server.listening s
  /\ (Server.status s = Server.started <-> is_Some (Server.listening s))
  /\ (is_Some (Server.listening s) -> Server.routes s = true).

(** ** The scan of the supported tokens *)

(** A loop that keeps the last value [f] finds. *)
Definition keep_last {A B : Type} (f : A -> option B) (acc : option B) (x : A)
  : option B :=
  match f x with
  | Some v => Some v
  | None => acc
  end.

(** ** The cached minter *)

(** The four shapes the cached minter goes through: nothing asked yet; a
    creation in flight (and no timer); a minter there and its refresh timer
    armed; a creation that failed (nothing in flight, no timer). *)
Inductive minting_shape (s : Service.minting) : Prop :=
  | shape_idle :
      Service.minterPromise s = None ->
      Service.creating s = ∅ ->
      EventLoop.pending (Service.loop s) = ∅ ->
      minting_shape s
  | shape_creating (p : nat) :
      Service.minterPromise s = Some p ->
      Service.creating s = {[p]} ->
      EventLoop.pending (Service.loop s) = ∅ ->
      minting_shape s
  | shape_armed (p h : nat) (ms : Z) :
      Service.minterPromise s = Some p ->
      Service.creating s = ∅ ->
      Service.refreshMinterTimer s = Some h ->
      EventLoop.pending (Service.loop s) = {[h := ms]} ->
      minting_shape s
  | shape_failed (p : nat) :
      Service.minterPromise s = Some p ->
      Service.creating s = ∅ ->
      EventLoop.pending (Service.loop s) = ∅ ->
      minting_shape s.

(** ** The wrapper *)

(** The shapes a wrapper goes through.  Not disposed: nothing constructed
    yet; a construction in flight (and no timer); a session there and its
    refresh timer armed; a session settled without a timer (the construction
    failed, or the token had no [ttl]).  Disposed: no timer, and at most one
    construction that was in flight when [dispose()] was called. *)
Inductive wrapper_shape (s : Wrapper.state) : Prop :=
  | shape_fresh :
      Wrapper.disposed s = false ->
      Wrapper.innertubePromise s = None ->
      Wrapper.tasks s = ∅ ->
      EventLoop.pending (Wrapper.loop s) = ∅ ->
      wrapper_shape s
  | shape_constructing (p : nat) (st : Wrapper.stage) :
      Wrapper.disposed s = false ->
      Wrapper.innertubePromise s = Some p ->
      Wrapper.tasks s = {[p := st]} ->
      EventLoop.pending (Wrapper.loop s) = ∅ ->
      wrapper_shape s
  | shape_session_armed (p h : nat) (ms : Z) :
      Wrapper.disposed s = false ->
      Wrapper.innertubePromise s = Some p ->
      Wrapper.tasks s = ∅ ->
      Wrapper.poTokenRefreshTimer s = Some h ->
      EventLoop.pending (Wrapper.loop s) = {[h := ms]} ->
      wrapper_shape s
  | shape_session_settled (p : nat) :
      Wrapper.disposed s = false ->
      Wrapper.innertubePromise s = Some p ->
      Wrapper.tasks s = ∅ ->
      EventLoop.pending (Wrapper.loop s) = ∅ ->
      wrapper_shape s
  | shape_disposed :
      Wrapper.disposed s = true ->
      Wrapper.tasks s = ∅ ->
      EventLoop.pending (Wrapper.loop s) = ∅ ->
      wrapper_shape s
  | shape_disposed_busy (p : nat) (st : Wrapper.stage) :
      Wrapper.disposed s = true ->
      Wrapper.tasks s = {[p := st]} ->
      EventLoop.pending (Wrapper.loop s) = ∅ ->
      wrapper_shape s.

(** The fields that the timer and task bookkeeping leaves alone. *)
Definition wrapper_frame (s s' : Wrapper.state) : Prop :=
  Wrapper.account s' = Wrapper.account s
  /\ Wrapper.locale s' = Wrapper.locale s
  /\ Wrapper.service s' = Wrapper.service s
  /\ Wrapper.innertube s' = Wrapper.innertube s
  /\ Wrapper.sessions s' = Wrapper.sessions s
  /\ Wrapper.stop_calls s' = Wrapper.stop_calls s
  /\ Wrapper.disposed s' = Wrapper.disposed s.

(** The client held in [#innertube] carries the region and the language of
    [#locale], where the locale has them. *)
Definition locale_applied (s : Wrapper.state) : Prop :=
  forall c, Wrapper.innertube s = Some c ->
    (forall r, Text.truthy (Wrapper.region (Wrapper.locale s)) = Some r ->
       Wrapper.gl c = Some r)
    /\ (forall l, Text.truthy (Wrapper.language (Wrapper.locale s)) = Some l ->
          Wrapper.hl c = Some l).

(** ** The autoplay manager *)

(** The registries hold what others registered, followed by the manager's
    own listener when it has one. *)
Definition registries_tidy (theirs_volumio theirs_mpd : list AutoplayManager.listener)
    (s : AutoplayManager.state) : Prop :=
  AutoplayManager.callbacks s
  = theirs_volumio
    ++ match AutoplayManager.volumioStateListener s with
       | Some n => [AutoplayManager.Own n]
       | None => []
       end
  /\ AutoplayManager.mpd_listeners s
     = theirs_mpd
       ++ match AutoplayManager.mpdStateListener s with
          | Some n => [AutoplayManager.Own n]
          | None => []
          end.

(** The track remembered is one of the plugin's service, and it is there
    while the MPD listener is registered. *)
Definition playback_known (serviceName : string) (s : AutoplayManager.state) : Prop :=
  (forall info, AutoplayManager.lastPlaybackInfo s = Some info ->
     Autoplay.service (Autoplay.track info) = serviceName)
  /\ (is_Some (AutoplayManager.mpdStateListener s) ->
      is_Some (AutoplayManager.lastPlaybackInfo s))
  /\ (forall info, In (Some info) (AutoplayManager.handled s) ->
        Autoplay.service (Autoplay.track info) = serviceName).

(** * Tactics *)

(** Projections of the wrapper's state through its setters.  The setters are
    unfolded only under a projection, so terms stay small. *)
Ltac unfold_setters :=
  cbn [Wrapper.finish Wrapper.set_locale Wrapper.set_innertubePromise
       Wrapper.set_service Wrapper.set_innertube Wrapper.set_lastSessionPoToken
       Wrapper.set_poTokenRefreshTimer Wrapper.set_disposed Wrapper.set_loop
       Wrapper.set_tasks Wrapper.set_sessions Wrapper.set_next_promise
       Wrapper.set_constructions Wrapper.set_stop_calls Wrapper.set_log
       Wrapper.account Wrapper.locale Wrapper.innertubePromise Wrapper.service
       Wrapper.innertube Wrapper.lastSessionPoToken Wrapper.poTokenRefreshTimer
       Wrapper.disposed Wrapper.loop Wrapper.tasks Wrapper.sessions
       Wrapper.next_promise Wrapper.constructions Wrapper.stop_calls
       Wrapper.log fst snd] in *.

Ltac split_ands := repeat match goal with |- _ /\ _ => split end.

(** Closes the routine parts of a conjunction of field equations. *)
Ltac close_fields :=
  split_ands;
  try assumption; try reflexivity;
  try (left; first [assumption | reflexivity]);
  try (right; first [assumption | reflexivity]);
  try (intros; discriminate);
  try (intros; congruence).

(** * Properties *)

Local Open Scope Z_scope.

(** ** Refresh delays *)

Lemma effective_delay_below ms : ms < 1 -> EventLoop.effective_delay ms = 1.
Proof.
  intros H. unfold EventLoop.effective_delay.
  destruct (1 <=? ms) eqn:E; [apply Z.leb_le in E; lia | reflexivity].
Qed.

(** C4.  When [createPoTokenMinter()] gives a result with [ttl] and
    [refreshThreshold] (100 when absent), [#createMinter] fulfils its promise
    with that result and arms the refresh timer with
    [(ttl - refreshThreshold - 100) * 1000] milliseconds.  For [ttl = 500],
    [refreshThreshold = 100] that is 300 seconds, which is also when the
    timer fires.  For [ttl = 50], [refreshThreshold = 100] the delay is
    negative ([-150] seconds); the call still fulfils its promise, and the
    event loop fires a timer whose delay is negative after one millisecond. *)
Theorem service_refresh_delay (p : nat) (r : PoToken.PoTokenMinterResult)
    (s : Service.minting) :
  let s' := Service.createMinter_resume p (Fulfilled r) s in
  let delay := PoToken.ttl r - default 100 (PoToken.refreshThreshold r) - 100 in
  (exists h,
      Service.refreshMinterTimer s' = Some h
      /\ EventLoop.pending (Service.loop s') !! h = Some (delay * 1000))
  /\ Service.minters s' !! p = Some (Fulfilled r)
  /\ (delay < 0 -> EventLoop.effective_delay (delay * 1000) = 1)
  /\ Service.refresh_timeout 500 (Some 100) = 300
  /\ EventLoop.effective_delay (Service.refresh_timeout 500 (Some 100) * 1000) = 300 * 1000
  /\ Service.refresh_timeout 500 None = 300
  /\ Service.refresh_timeout 50 (Some 100) = -150
  /\ EventLoop.effective_delay (Service.refresh_timeout 50 (Some 100) * 1000) = 1
  /\ Service.minters
       (Service.createMinter_resume p (Fulfilled (Sample.minterResult 50 (Some 100))) s)
       !! p = Some (Fulfilled (Sample.minterResult 50 (Some 100))).
Proof.
  cbn zeta. unfold Service.createMinter_resume, Service.refresh_timeout.
  split_ands; try reflexivity.
  - eexists. split; [reflexivity |]. cbn. apply lookup_insert_eq.
  - cbn. apply lookup_insert_eq.
  - intros Hneg. apply effective_delay_below. lia.
  - cbn. apply lookup_insert_eq.
Qed.

(** ** The reply to [GET /pot] *)

Lemma adjustedTTL_elapsed (r : PoToken.PoTokenMinterResult) (now : Z) :
  Service.adjustedTTL r now
  = PoToken.ttl r - (now - PoToken.created r + 999) / 1000.
Proof.
  unfold Service.adjustedTTL.
  set (t := PoToken.ttl r). set (e := now - PoToken.created r).
  replace (t * 1000 + PoToken.created r - now) with (t * 1000 - e) by (unfold e; lia).
  pose proof (Z.div_mod (t * 1000 - e) 1000 ltac:(lia)) as H1.
  pose proof (Z.mod_pos_bound (t * 1000 - e) 1000 ltac:(lia)) as H2.
  pose proof (Z.div_mod (e + 999) 1000 ltac:(lia)) as H3.
  pose proof (Z.mod_pos_bound (e + 999) 1000 ltac:(lia)) as H4.
  lia.
Qed.

Lemma adjustedTTL_antitone (r : PoToken.PoTokenMinterResult) (now later : Z) :
  now <= later -> Service.adjustedTTL r later <= Service.adjustedTTL r now.
Proof.
  intros H. unfold Service.adjustedTTL. apply Z.div_le_mono; lia.
Qed.

(** C10, as the code has it.  A [GET /pot] request with an identifier,
    served at time [now] with the cached minter [r], is answered 200 with a
    token whose [ttl] is [floor((ttl * 1000 + created - now) / 1000)]: the
    declared [ttl] less the time elapsed since [created] rounded up to whole
    seconds.  That is the declared [ttl] less the whole seconds elapsed
    exactly when the elapsed time is a whole number of seconds, and one less
    than that otherwise.  The value does not increase as time passes, is at
    most zero once the minter is as old as its [ttl], and negative once it
    is older. *)
Theorem pot_reply_ttl (r : PoToken.PoTokenMinterResult) (identifier poToken : string)
    (now : Z) :
  identifier <> EmptyString ->
  let reply := Service.potFn r poToken now in
  Server.pot_route (fun _ => Fulfilled reply) (Some identifier)
    = Server.Respond 200 (Server.PotJson reply)
  /\ Server.ttl reply = (PoToken.ttl r * 1000 + PoToken.created r - now) / 1000
  /\ Server.ttl reply = PoToken.ttl r - (now - PoToken.created r + 999) / 1000
  /\ PoToken.ttl r - (now - PoToken.created r) / 1000 - 1 <= Server.ttl reply
     <= PoToken.ttl r - (now - PoToken.created r) / 1000
  /\ (forall later, now <= later ->
        Server.ttl (Service.potFn r poToken later) <= Server.ttl reply)
  /\ (PoToken.ttl r * 1000 <= now - PoToken.created r -> Server.ttl reply <= 0)
  /\ (PoToken.ttl r * 1000 < now - PoToken.created r -> Server.ttl reply < 0)
  /\ ((now - PoToken.created r) mod 1000 = 0 ->
      Server.ttl reply = PoToken.ttl r - (now - PoToken.created r) / 1000)
  /\ ((now - PoToken.created r) mod 1000 <> 0 ->
      Server.ttl reply = PoToken.ttl r - (now - PoToken.created r) / 1000 - 1).
Proof.
  intros Hid reply.
  assert (Hexact : forall e : Z,
            (e mod 1000 = 0 -> (e + 999) / 1000 = e / 1000)
            /\ (e mod 1000 <> 0 -> (e + 999) / 1000 = e / 1000 + 1)).
  { intros e.
    pose proof (Z.div_mod e 1000 ltac:(lia)) as H1.
    pose proof (Z.mod_pos_bound e 1000 ltac:(lia)) as H2.
    split; intros H.
    - symmetry. apply (Z.div_unique (e + 999) 1000 (e / 1000) 999); lia.
    - symmetry.
      apply (Z.div_unique (e + 999) 1000 (e / 1000 + 1) (e mod 1000 - 1)); lia. }
  split_ands.
  - unfold Server.pot_route. destruct identifier; [congruence | reflexivity].
  - reflexivity.
  - apply adjustedTTL_elapsed.
  - unfold reply. cbn. rewrite adjustedTTL_elapsed.
    pose proof (Z.div_le_mono (now - PoToken.created r + 999)
                  (now - PoToken.created r + 1000) 1000 ltac:(lia) ltac:(lia)) as H.
    replace (now - PoToken.created r + 1000)
      with ((now - PoToken.created r) + 1 * 1000) in H by lia.
    rewrite Z.div_add in H by lia. lia.
  - unfold reply. cbn. rewrite adjustedTTL_elapsed.
    pose proof (Z.div_le_mono (now - PoToken.created r)
                  (now - PoToken.created r + 999) 1000 ltac:(lia) ltac:(lia)) as H.
    lia.
  - intros later Hl. now apply adjustedTTL_antitone.
  - intros H. cbn. unfold Service.adjustedTTL.
    apply Z.div_le_upper_bound; lia.
  - intros H. cbn. unfold Service.adjustedTTL.
    apply Z.div_lt_upper_bound; lia.
  - intros H. unfold reply. cbn. rewrite adjustedTTL_elapsed.
    now rewrite (proj1 (Hexact (now - PoToken.created r)) H).
  - intros H. unfold reply. cbn. rewrite adjustedTTL_elapsed.
    rewrite (proj2 (Hexact (now - PoToken.created r)) H). lia.
Qed.

Lemma pot_reply_ttl_witness :
  Server.ttl (Service.potFn (Sample.minterResult 500 (Some 100)) "tok" 1700000001500) = 498
  /\ Server.ttl (Service.potFn (Sample.minterResult 500 (Some 100)) "tok" 1700000600000) = -100.
Proof.
  destruct (pot_reply_ttl (Sample.minterResult 500 (Some 100)) "id" "tok"
              1700000001500 ltac:(discriminate)) as (_ & H1 & _).
  destruct (pot_reply_ttl (Sample.minterResult 500 (Some 100)) "id" "tok"
              1700000600000 ltac:(discriminate)) as (_ & H2 & _).
  split; [rewrite H1 | rewrite H2]; reflexivity.
Defined.

(** C10, as stated, fails: 1500 ms after a minter with a [ttl] of 500 s was
    created, one whole second has elapsed, and the [ttl] of the reply is
    498, not 499. *)
Lemma pot_reply_ttl_not_whole_seconds :
  let r := Sample.minterResult 500 (Some 100) in
  let now := PoToken.created r + 1500 in
  (now - PoToken.created r) / 1000 = 1
  /\ PoToken.ttl r - (now - PoToken.created r) / 1000 = 499
  /\ Server.ttl (Service.potFn r "tok" now) = 498.
Proof. cbn. repeat split. Qed.

(** ** The session refresh timer *)

Lemma applyLocale_live (s : Wrapper.state) :
  Wrapper.disposed s = false ->
  exists s', Wrapper.applyLocale s = inr s'
    /\ Wrapper.loop s' = Wrapper.loop s
    /\ Wrapper.tasks s' = Wrapper.tasks s
    /\ Wrapper.sessions s' = Wrapper.sessions s
    /\ Wrapper.poTokenRefreshTimer s' = Wrapper.poTokenRefreshTimer s
    /\ Wrapper.disposed s' = false
    /\ Wrapper.innertubePromise s' = Wrapper.innertubePromise s
    /\ Wrapper.constructions s' = Wrapper.constructions s
    /\ (Wrapper.instance <$> Wrapper.innertube s')
       = (Wrapper.instance <$> Wrapper.innertube s).
Proof.
  intros Hd. unfold Wrapper.applyLocale. rewrite Hd.
  destruct (Wrapper.innertube s) as [c |] eqn:Hc; eexists;
    (split; [reflexivity |]); cbn; rewrite ?Hd, ?Hc; repeat split; try reflexivity.
  cbn. f_equal.
  destruct (Text.truthy (Wrapper.region (Wrapper.locale s)));
    destruct (Text.truthy (Wrapper.language (Wrapper.locale s))); reflexivity.
Qed.

Lemma applyLocale_disposed (s : Wrapper.state) :
  Wrapper.disposed s = true -> Wrapper.applyLocale s = inl Wrapper.disposed_error.
Proof. intros Hd. unfold Wrapper.applyLocale. now rewrite Hd. Qed.

(** C1, as the code has it.  When the client made with a session token is
    there and the wrapper is not disposed, a token with a non-zero [ttl] and
    a [refreshThreshold] (100 when absent) arms the session refresh timer
    with [ttl - refreshThreshold] seconds when that is not negative, and
    with 120 seconds when it is negative.  For [ttl = 200],
    [refreshThreshold = 100] that is 100 seconds; for [ttl = 150],
    [refreshThreshold = 100] it is 50 seconds (no floor applies); for
    [ttl = 50], [refreshThreshold = 100] it is 120 seconds. *)
Theorem session_refresh_delay (p : nat) (pot : Wrapper.POToken)
    (c : Wrapper.Innertube) (t : Z) (s : Wrapper.state) :
  Wrapper.ttl pot = Some t ->
  t <> 0 ->
  Wrapper.disposed s = false ->
  let s' := Wrapper.client_settled p (Some pot) (Fulfilled c) s in
  let d := t - default 100 (Wrapper.refreshThreshold pot) in
  (exists h,
      Wrapper.poTokenRefreshTimer s' = Some h
      /\ EventLoop.pending (Wrapper.loop s') !! h
         = Some ((if d <? 0 then 120 else d) * 1000))
  /\ Wrapper.sessions s' !! p = Some (Fulfilled (Wrapper.instance c))
  /\ Wrapper.session_timeout 200 (Some 100) = 100
  /\ Wrapper.session_timeout 150 (Some 100) = 50
  /\ Wrapper.session_timeout 50 (Some 100) = 120.
Proof.
  intros Ht Hnz Hd. cbn zeta. unfold Wrapper.client_settled.
  destruct (applyLocale_live (Wrapper.set_innertube (Some c) s) Hd)
    as (s2 & -> & Hl & _).
  unfold Wrapper.arm_refresh. rewrite Ht.
  apply Z.eqb_neq in Hnz. rewrite Hnz.
  repeat split; try reflexivity.
  - eexists. split; [reflexivity |]. cbn. apply lookup_insert_eq.
  - cbn. apply lookup_insert_eq.
Qed.

Lemma session_refresh_delay_witness :
  let pot := Sample.sessionPot (Some 200) (Some 100) in
  let s' := Wrapper.client_settled 0 (Some pot) (Fulfilled Sample.client)
              (Sample.awaiting_client pot) in
  exists h,
    Wrapper.poTokenRefreshTimer s' = Some h
    /\ EventLoop.pending (Wrapper.loop s') !! h
       = Some ((if 200 - default 100 (Wrapper.refreshThreshold pot) <? 0
                then 120 else 200 - default 100 (Wrapper.refreshThreshold pot))
               * 1000).
Proof.
  exact (proj1 (session_refresh_delay 0 (Sample.sessionPot (Some 200) (Some 100))
                  Sample.client 200
                  (Sample.awaiting_client (Sample.sessionPot (Some 200) (Some 100)))
                  eq_refl ltac:(lia) ltac:(vm_compute; reflexivity))).
Defined.

(** C1, as stated, fails: with [ttl = 150] and [refreshThreshold = 100] the
    timer is armed with 50 seconds, while [max(150 - 100, 120)] is 120. *)
Lemma session_refresh_delay_not_max :
  let pot := Sample.sessionPot (Some 150) (Some 100) in
  let s' := Wrapper.step (Wrapper.ClientSettled 0 (Fulfilled Sample.client))
              (Sample.awaiting_client pot) in
  Wrapper.poTokenRefreshTimer s' = Some 0%nat
  /\ EventLoop.pending (Wrapper.loop s') !! 0%nat = Some (50 * 1000)
  /\ 50 * 1000 <> Z.max (150 - 100) 120 * 1000.
Proof.
  cbn zeta. split; [reflexivity |]. split; [| lia].
  vm_compute. reflexivity.
Qed.

(** ** Start and stop of the service *)

Lemma perform_keeps_stopped (c : Service.call) (s : Service.lifecycle) :
  Service.status s = Service.Stopped ->
  Service.status (Service.perform c s) = Service.Stopped.
Proof.
  intros H. destruct c as [listen | close]; cbn.
  - unfold Service.start. destruct (Service.startPromise s); [exact H |].
    destruct listen; cbn; [reflexivity | exact H].
  - unfold Service.stop. now rewrite H.
Qed.

Lemma status_always_stopped (cs : list Service.call) :
  Service.get_status (Service.perform_all cs Service.lifecycle0) = Service.Stopped.
Proof.
  unfold Service.perform_all, Service.get_status.
  assert (H : Service.status Service.lifecycle0 = Service.Stopped) by reflexivity.
  revert H. generalize Service.lifecycle0.
  induction cs as [| c cs IH]; intros s H; cbn; [exact H |].
  apply IH. now apply perform_keeps_stopped.
Qed.

(** C2, evaluated on the code.  When [app.listen] succeeds at address [a],
    [start()] resolves with [Started] carrying the address and the port, but
    the [status] getter still answers [Stopped]: no path assigns [#status] a
    started value.  A [stop()] that follows therefore returns at once: the
    state is unchanged and the HTTP server keeps listening at [a]. *)
Theorem start_leaves_status_stopped (a : Server.AddressInfo) (close : option string) :
  let after_start := Service.start (inr a) Service.lifecycle0 in
  let after_stop := Service.stop close (fst after_start) in
  snd after_start = inr (Service.Started (Server.address a) (Server.port a))
  /\ Service.get_status (fst after_start) = Service.Stopped
  /\ after_stop = (fst after_start, Fulfilled tt)
  /\ (Service.server (fst after_stop) ≫= Server.listening) = Some a
  /\ (Server.status <$> Service.server (fst after_stop)) = Some Server.started.
Proof. cbn. repeat split; reflexivity. Qed.

(** ** The [/eval] route *)

Lemma append_assoc (a b c : string) : (a +:+ b) +:+ c = a +:+ (b +:+ c).
Proof.
  induction a as [| ch a IH]; [reflexivity |].
  change (String ch ((a +:+ b) +:+ c) = String ch (a +:+ (b +:+ c))).
  now rewrite IH.
Qed.

Lemma truthy_Some (o : option string) (s : string) :
  o = Some s -> s <> EmptyString -> Text.truthy o = Some s.
Proof. intros -> H. destruct s; [congruence | reflexivity]. Qed.

Lemma properties_only_sig (e : EvalFn.Env) (s : string) :
  Text.truthy (EvalFn.n e) = None ->
  EvalFn.sig e = Some s -> s <> EmptyString ->
  EvalFn.properties e
  = [ {| EvalFn.key := "sig"; EvalFn.fn := "sigFunction"; EvalFn.arg := s |} ].
Proof.
  intros Hn Hs Hne. unfold EvalFn.properties.
  now rewrite Hn, (truthy_Some _ _ Hs Hne).
Qed.

Lemma properties_neither (e : EvalFn.Env) :
  Text.truthy (EvalFn.n e) = None -> Text.truthy (EvalFn.sig e) = None ->
  EvalFn.properties e = [].
Proof. intros Hn Hs. unfold EvalFn.properties. now rewrite Hn, Hs. Qed.

(** *** The return clause is read back as it was written *)

Lemma strip_prefix_append (p r : string) :
  Text.strip_prefix p (p +:+ r) = Some r.
Proof.
  induction p as [| c p IH]; [reflexivity |].
  change (String c p +:+ r) with (String c (p +:+ r)).
  cbn [Text.strip_prefix]. rewrite Ascii.eqb_refl. exact IH.
Qed.

Lemma span_stop (p : ascii -> bool) (a : string) (c : ascii) (l r : string) :
  EvalFn.all_chars p a = true -> p c = false ->
  EvalFn.span p (a +:+ (String c l +:+ r)) = (a, String c l +:+ r).
Proof.
  intros Ha Hc. induction a as [| x a IH].
  - change (EmptyString +:+ (String c l +:+ r)) with (String c (l +:+ r)).
    cbn [EvalFn.span]. rewrite Hc. reflexivity.
  - cbn [EvalFn.all_chars] in Ha. apply Bool.andb_true_iff in Ha as [Hx Ha].
    change (String x a +:+ (String c l +:+ r))
      with (String x (a +:+ (String c l +:+ r))).
    cbn [EvalFn.span]. rewrite Hx, (IH Ha). reflexivity.
Qed.

Lemma parse_ident_stop (k : string) (c : ascii) (l r : string) :
  EvalFn.identifier k = true -> EvalFn.ident_char c = false ->
  EvalFn.parse_ident (k +:+ (String c l +:+ r)) = Some (k, String c l +:+ r).
Proof.
  intros Hk Hc. destruct k as [| x k]; [discriminate |].
  cbn [EvalFn.identifier] in Hk. apply Bool.andb_true_iff in Hk as [Hx Hk].
  change (String x k +:+ (String c l +:+ r))
    with (String x (k +:+ (String c l +:+ r))).
  unfold EvalFn.parse_ident. rewrite Hx, (span_stop _ _ _ _ _ Hk Hc).
  reflexivity.
Qed.

Lemma literal_safe_all_chars (s : string) :
  EvalFn.all_chars Text.plain_char s = Text.literal_safe s.
Proof. induction s as [| c s IH]; [reflexivity |]. cbn. now rewrite IH. Qed.

Lemma render_assoc (p : EvalFn.property) (tail : string) :
  EvalFn.render p +:+ tail
  = EvalFn.key p +:+ (": exportedVars." +:+ (EvalFn.fn p +:+ ("(" +:+
      (Text.dquote +:+ (EvalFn.arg p +:+ (Text.dquote +:+ (")" +:+ tail))))))).
Proof. unfold EvalFn.render. rewrite !append_assoc. reflexivity. Qed.

(** One property is read; what follows it decides how the reading goes on. *)
Lemma parse_properties_step (fuel : nat) (p : EvalFn.property) (tail : string) :
  EvalFn.well_formed p = true ->
  EvalFn.parse_properties (S fuel) (EvalFn.render p +:+ tail)
  = if String.eqb tail " }" then Some [p]
    else match Text.strip_prefix ", " tail with
         | None => None
         | Some r =>
             match EvalFn.parse_properties fuel r with
             | Some ps => Some (p :: ps)
             | None => None
             end
         end.
Proof.
  destruct p as [k f a]. unfold EvalFn.well_formed.
  cbn [EvalFn.key EvalFn.fn EvalFn.arg]. intros H.
  apply Bool.andb_true_iff in H as [H Ha].
  apply Bool.andb_true_iff in H as [H Hf].
  apply Bool.andb_true_iff in H as [Hk Hproto].
  apply Bool.negb_true_iff in Hproto.
  assert (Hfi : EvalFn.identifier f = true).
  { apply Bool.orb_true_iff in Hf as [Hf | Hf]; apply String.eqb_eq in Hf;
      subst f; reflexivity. }
  rewrite <- literal_safe_all_chars in Ha.
  rewrite render_assoc. cbn [EvalFn.key EvalFn.fn EvalFn.arg].
  unfold Text.dquote. cbn [EvalFn.parse_properties].
  rewrite (parse_ident_stop k ":" _ _ Hk eq_refl). cbv beta iota.
  rewrite Hproto, strip_prefix_append.
  rewrite (parse_ident_stop f "(" _ _ Hfi eq_refl). cbv beta iota.
  rewrite Hf, !strip_prefix_append.
  rewrite (span_stop _ a "034" _ _ Ha eq_refl). cbv beta iota.
  rewrite !strip_prefix_append. reflexivity.
Qed.

Lemma parse_properties_render (ps : list EvalFn.property) : forall fuel,
  ps <> [] -> forallb EvalFn.well_formed ps = true -> (length ps <= fuel)%nat ->
  EvalFn.parse_properties fuel (Text.join ", " (map EvalFn.render ps) +:+ " }")
  = Some ps.
Proof.
  induction ps as [| p rest IH]; intros fuel Hne Hwf Hlen; [congruence |].
  cbn [forallb] in Hwf. apply Bool.andb_true_iff in Hwf as [Hp Hrest].
  destruct fuel as [| fuel]; [cbn in Hlen; lia |].
  destruct rest as [| q rest].
  - cbn [map Text.join]. rewrite (parse_properties_step _ _ _ Hp). reflexivity.
  - change (Text.join ", " (map EvalFn.render (p :: q :: rest)))
      with (EvalFn.render p
              +:+ (", " +:+ Text.join ", " (map EvalFn.render (q :: rest)))).
    rewrite !append_assoc, (parse_properties_step _ _ _ Hp).
    change (String.eqb
              (", " +:+ (Text.join ", " (map EvalFn.render (q :: rest)) +:+ " }"))
              " }") with false.
    cbv iota. rewrite strip_prefix_append, IH;
      [reflexivity | discriminate | exact Hrest | cbn in Hlen |- *; lia].
Qed.

Lemma length_append (a b : string) :
  String.length (a +:+ b) = (String.length a + String.length b)%nat.
Proof.
  induction a as [| c a IH]; [reflexivity |].
  change (String c a +:+ b) with (String c (a +:+ b)). cbn. now rewrite IH.
Qed.

Lemma length_render (ps : list EvalFn.property) (tail : string) :
  (length ps <= String.length (Text.join ", " (map EvalFn.render ps) +:+ tail))%nat.
Proof.
  revert tail. induction ps as [| p rest IH]; intros tail; [cbn; lia |].
  destruct rest as [| q rest].
  - cbn [map Text.join]. rewrite render_assoc, !length_append. cbn. lia.
  - change (Text.join ", " (map EvalFn.render (p :: q :: rest)))
      with (EvalFn.render p
              +:+ (", " +:+ Text.join ", " (map EvalFn.render (q :: rest)))).
    rewrite append_assoc, render_assoc, !length_append.
    pose proof (IH EmptyString) as Hl. rewrite length_append in Hl.
    cbn in Hl |- *. lia.
Qed.

Lemma parse_return_clause_render (ps : list EvalFn.property) :
  forallb EvalFn.well_formed ps = true ->
  EvalFn.parse_return_clause (Text.join ", " (map EvalFn.render ps) +:+ " }")
  = Some ps.
Proof.
  intros Hwf. destruct ps as [| p rest]; [reflexivity |].
  unfold EvalFn.parse_return_clause.
  assert (Hk : String.eqb
                 (Text.join ", " (map EvalFn.render (p :: rest)) +:+ " }") " }"
               = false).
  { cbn [forallb] in Hwf. apply Bool.andb_true_iff in Hwf as [Hp _].
    unfold EvalFn.well_formed in Hp.
    apply Bool.andb_true_iff in Hp as [Hp _].
    apply Bool.andb_true_iff in Hp as [Hp _].
    apply Bool.andb_true_iff in Hp as [Hp _].
    assert (Hform : exists t,
               Text.join ", " (map EvalFn.render (p :: rest)) +:+ " }"
               = EvalFn.key p +:+ t).
    { destruct rest as [| q rest].
      - cbn [map Text.join]. rewrite render_assoc. eauto.
      - change (Text.join ", " (map EvalFn.render (p :: q :: rest)))
          with (EvalFn.render p
                  +:+ (", " +:+ Text.join ", " (map EvalFn.render (q :: rest)))).
        rewrite append_assoc, render_assoc. eauto. }
    destruct Hform as [t ->].
    destruct (EvalFn.key p) as [| c k]; [discriminate |].
    cbn [EvalFn.identifier] in Hp. apply Bool.andb_true_iff in Hp as [Hc _].
    change (String c k +:+ t) with (String c (k +:+ t)). cbn [String.eqb].
    destruct (Ascii.eqb c " ") eqn:E; [| reflexivity].
    apply Ascii.eqb_eq in E. subst c. discriminate. }
  rewrite Hk. apply parse_properties_render;
    [discriminate | exact Hwf | apply length_render].
Qed.

(** The properties [evalFnImpl] writes are read back when [env.n] and
    [env.sig] can stand between the quotes of a string literal. *)
Lemma properties_well_formed (e : EvalFn.Env) :
  (forall a, Text.truthy (EvalFn.n e) = Some a -> Text.literal_safe a = true) ->
  (forall a, Text.truthy (EvalFn.sig e) = Some a -> Text.literal_safe a = true) ->
  forallb EvalFn.well_formed (EvalFn.properties e) = true.
Proof.
  intros Hn Hs. unfold EvalFn.properties.
  destruct (Text.truthy (EvalFn.n e)) as [a |];
    destruct (Text.truthy (EvalFn.sig e)) as [b |]; cbn;
    unfold EvalFn.well_formed; cbn;
    rewrite ?(Hn _ eq_refl), ?(Hs _ eq_refl); reflexivity.
Qed.

Lemma evalFnImpl_runs (run_output : string -> EvalFn.script_outcome)
    (d : EvalFn.BuildScriptResult) (e : EvalFn.Env) :
  forallb EvalFn.well_formed (EvalFn.properties e) = true ->
  EvalFn.evalFnImpl run_output d e
  = Some (EvalFn.run_clause run_output d (EvalFn.properties e)).
Proof.
  intros Hwf. unfold EvalFn.evalFnImpl, EvalFn.run_program, EvalFn.evalFnImpl_code.
  replace (EvalFn.output d +:+ Text.newline +:+ "return { "
             +:+ Text.join ", " (map EvalFn.render (EvalFn.properties e)) +:+ " }")
    with ((EvalFn.output d +:+ Text.newline +:+ "return { ")
            +:+ (Text.join ", " (map EvalFn.render (EvalFn.properties e)) +:+ " }"))
    by (rewrite !append_assoc; reflexivity).
  rewrite strip_prefix_append, (parse_return_clause_render _ Hwf). reflexivity.
Qed.

(** C9, as the code has it.  [POST /eval]:
    - a request without a parsed body is not answered by the handler: the
      destructuring of [req.body] throws, and the error leaves it;
    - a body without [data] or without [env] is answered 500 with a JSON
      body that has an [error] field;
    - a body with both, where of [env.n] and [env.sig] only [env.sig] is set,
      to a text without quote, backslash or line break, makes the program
      [<data.output>\nreturn { sig: exportedVars.sigFunction("<sig>") }];
      when the script runs to its end and [sigFunction] returns, the answer
      is 200 with an object whose only key is [sig], or with the empty
      object when the value returned is [undefined];
    - a body with both, where neither [env.n] nor [env.sig] is set, is not
      refused: the program is [<data.output>\nreturn {  }], it is run, and
      when the script runs to its end the answer is 200 with the empty
      object. *)
Theorem eval_route_replies (run_output : string -> EvalFn.script_outcome)
    (d : EvalFn.BuildScriptResult) (e : EvalFn.Env) :
  let evalFn := EvalFn.evalFnImpl run_output in
  let body := Some {| Server.data := Some d; Server.env := Some e |} in
  Server.eval_route evalFn None = Server.Escapes Server.no_body_error
  /\ (forall b, Server.data b = None \/ Server.env b = None ->
        Server.eval_route evalFn (Some b)
        = Server.Respond 500 (Server.ErrorJson Server.missing_data_or_env))
  /\ (forall s x v,
        Text.truthy (EvalFn.n e) = None ->
        EvalFn.sig e = Some s -> s <> EmptyString -> Text.literal_safe s = true ->
        run_output (EvalFn.output d) = EvalFn.FallsThrough (Some x) ->
        EvalFn.sigFunction x s = Fulfilled v ->
        Server.eval_route evalFn body
        = Server.Respond 200
            (Server.EvalJson
               (Some (EvalFn.VObject
                        match v with
                        | EvalFn.AUndefined => []
                        | _ => [("sig"%string, v)]
                        end)))
        /\ EvalFn.evalFnImpl_code d e
           = EvalFn.output d +:+ Text.newline
               +:+ "return { sig: exportedVars.sigFunction(" +:+ Text.dquote
               +:+ s +:+ Text.dquote +:+ ") }")
  /\ (forall x,
        Text.truthy (EvalFn.n e) = None -> Text.truthy (EvalFn.sig e) = None ->
        run_output (EvalFn.output d) = EvalFn.FallsThrough x ->
        Server.eval_route evalFn body
        = Server.Respond 200 (Server.EvalJson (Some (EvalFn.VObject [])))
        /\ EvalFn.evalFnImpl_code d e
           = EvalFn.output d +:+ Text.newline +:+ "return {  }").
Proof.
  cbn zeta. split; [reflexivity | split; [| split]].
  - intros b [H | H]; unfold Server.eval_route; rewrite H;
      [reflexivity | destruct (Server.data b); reflexivity].
  - intros s x v Hn Hs Hne Hsafe Hrun Hcall.
    pose proof (properties_only_sig e s Hn Hs Hne) as Hp. split.
    + unfold Server.eval_route. cbn [Server.data Server.env].
      rewrite evalFnImpl_runs.
      * rewrite Hp. unfold EvalFn.run_clause. rewrite Hrun.
        cbn [EvalFn.eval_literal]. unfold EvalFn.call.
        cbn [EvalFn.fn EvalFn.arg EvalFn.key String.eqb Ascii.eqb Bool.eqb].
        rewrite Hcall. cbn [EvalFn.eval_literal EvalFn.set_field].
        destruct v; reflexivity.
      * rewrite Hp. cbn [forallb]. unfold EvalFn.well_formed.
        cbn [EvalFn.key EvalFn.fn EvalFn.arg]. now rewrite Hsafe.
    + unfold EvalFn.evalFnImpl_code. rewrite Hp. cbn.
      f_equal. f_equal. unfold EvalFn.render. cbn.
      rewrite !append_assoc. reflexivity.
  - intros x Hn Hs Hrun.
    pose proof (properties_neither e Hn Hs) as Hp. split.
    + unfold Server.eval_route. cbn [Server.data Server.env].
      rewrite evalFnImpl_runs by (now rewrite Hp).
      rewrite Hp. unfold EvalFn.run_clause. now rewrite Hrun.
    + unfold EvalFn.evalFnImpl_code. now rewrite Hp.
Qed.

Lemma eval_route_replies_witness :
  Server.eval_route (EvalFn.evalFnImpl Sample.run_output)
    (Some {| Server.data := Some Sample.script;
             Server.env := Some {| EvalFn.n := None;
                                   EvalFn.sig := Some "abc"%string |} |})
  = Server.Respond 200
      (Server.EvalJson
         (Some (EvalFn.VObject [("sig"%string, EvalFn.AString "sig-abc")])))
  /\ Server.eval_route (EvalFn.evalFnImpl Sample.run_output)
       (Some {| Server.data := Some Sample.script;
                Server.env := Some {| EvalFn.n := None; EvalFn.sig := None |} |})
     = Server.Respond 200 (Server.EvalJson (Some (EvalFn.VObject [])))
  /\ Server.eval_route (EvalFn.evalFnImpl Sample.run_output)
       (Some {| Server.data := None;
                Server.env := Some {| EvalFn.n := None; EvalFn.sig := None |} |})
     = Server.Respond 500 (Server.ErrorJson Server.missing_data_or_env).
Proof.
  destruct (eval_route_replies Sample.run_output Sample.script
              {| EvalFn.n := None; EvalFn.sig := Some "abc"%string |})
    as (_ & H1 & H2 & _).
  destruct (eval_route_replies Sample.run_output Sample.script
              {| EvalFn.n := None; EvalFn.sig := None |})
    as (_ & _ & _ & H3).
  split; [| split].
  - apply (H2 "abc"%string Sample.exported (EvalFn.AString "sig-abc"));
      [reflexivity | reflexivity | discriminate | reflexivity | reflexivity
      | reflexivity].
  - apply (H3 (Some Sample.exported)); reflexivity.
  - apply H1. left. reflexivity.
Defined.

(** The claim does not hold as worded.  [env.sig] is pasted into the program
    text as it is: one that holds a quote closes the string literal and
    writes a second property, and the result object has a second key.  A
    request without a parsed body gets no JSON error from the handler.  And
    a [sig] whose value is [undefined] is left out of the JSON reply. *)
Lemma eval_sig_with_quote_adds_key :
  EvalFn.evalFnImpl_code Sample.script
    {| EvalFn.n := None; EvalFn.sig := Some Sample.sig_with_quote |}
  = EvalFn.output Sample.script +:+ Text.newline
      +:+ "return { sig: exportedVars.sigFunction(" +:+ Text.dquote +:+ "a"
      +:+ Text.dquote +:+ "), x: exportedVars.sigFunction(" +:+ Text.dquote
      +:+ "b" +:+ Text.dquote +:+ ") }"
  /\ Server.eval_route (EvalFn.evalFnImpl Sample.run_output)
       (Some {| Server.data := Some Sample.script;
                Server.env := Some {| EvalFn.n := None;
                                      EvalFn.sig := Some Sample.sig_with_quote |} |})
     = Server.Respond 200
         (Server.EvalJson
            (Some (EvalFn.VObject [("sig"%string, EvalFn.AString "sig-a");
                                   ("x"%string, EvalFn.AString "sig-b")])))
  /\ Server.eval_route (EvalFn.evalFnImpl Sample.run_output) None
     = Server.Escapes Server.no_body_error
  /\ (forall code body,
        Server.eval_route (EvalFn.evalFnImpl Sample.run_output) None
        <> Server.Respond code body)
  /\ Server.eval_route (EvalFn.evalFnImpl Sample.run_output_nothing)
       (Some {| Server.data := Some Sample.script;
                Server.env := Some {| EvalFn.n := None;
                                      EvalFn.sig := Some "abc"%string |} |})
     = Server.Respond 200 (Server.EvalJson (Some (EvalFn.VObject []))).
Proof.
  split; [| split; [| split; [| split]]].
  - vm_compute. reflexivity.
  - vm_compute. reflexivity.
  - reflexivity.
  - intros code body. discriminate.
  - vm_compute. reflexivity.
Qed.

(** ** The spawn *)

Lemma prefix_append (p rest : string) : String.prefix p (p +:+ rest) = true.
Proof.
  induction p as [| c p IH].
  - destruct rest; reflexivity.
  - change (String c p +:+ rest) with (String c (p +:+ rest)).
    cbn [String.prefix]. destruct (ascii_dec c c) as [_ | N]; [exact IH | congruence].
Qed.

Lemma substring_append (p rest : string) :
  String.substring (String.length p) (String.length (p +:+ rest) - String.length p)
    (p +:+ rest) = rest.
Proof.
  induction p as [| c p IH].
  - change (EmptyString +:+ rest) with rest. cbn [String.length].
    rewrite Nat.sub_0_r. clear.
    induction rest as [| c r IH]; cbn; [reflexivity | now rewrite IH].
  - change (String c p +:+ rest) with (String c (p +:+ rest)).
    cbn [String.length String.substring]. exact IH.
Qed.

Section SpawnFacts.

Variable JSON_parse : string -> string + Service.InnertubeSupportServiceStatus.

Local Abbreviation step := (Spawn.step JSON_parse).
Local Abbreviation run := (Spawn.run JSON_parse).

Lemma spawn_step_pending (e : Spawn.event) (s : Spawn.state) :
  Spawn.promise s = None ->
  Spawn.is_ready_line e = false ->
  Spawn.promise (step e s) = None
  /\ Spawn.onStop_calls (step e s)
     = (Spawn.onStop_calls s + (if Spawn.is_close e then 1 else 0))%nat.
Proof.
  intros Hp Hr. destruct e as [chunk | chunk | line | code |]; cbn in *.
  - split; [exact Hp | lia].
  - split; [exact Hp | lia].
  - unfold Spawn.on_line. rewrite Hr. split; [exact Hp | lia].
  - split; [exact Hp | lia].
  - rewrite Hp. split; [exact Hp | lia].
Qed.

Lemma spawn_run_pending (evs : list Spawn.event) (s : Spawn.state) :
  Spawn.promise s = None ->
  forallb (fun e => negb (Spawn.is_ready_line e)) evs = true ->
  Spawn.promise (run evs s) = None
  /\ Spawn.onStop_calls (run evs s)
     = (Spawn.onStop_calls s + length (List.filter Spawn.is_close evs))%nat.
Proof.
  revert s. induction evs as [| e evs IH]; intros s Hp Hall; cbn.
  - split; [exact Hp | lia].
  - cbn in Hall. apply andb_prop in Hall as [He Hall].
    apply negb_true_iff in He.
    destruct (spawn_step_pending e s Hp He) as [Hp' Hc].
    destruct (IH (step e s) Hp' Hall) as [Hp'' Hc'].
    split; [exact Hp'' |].
    unfold Spawn.run in Hc'. rewrite Hc', Hc.
    destruct (Spawn.is_close e); cbn; lia.
Qed.

Lemma spawn_initially_pending (d : Spawn.DenoInstallStatus) (proc_pid : option nat) :
  Spawn.promise (Spawn.spawnInnertubeSupportService d proc_pid) = None
  /\ Spawn.onStop_calls (Spawn.spawnInnertubeSupportService d proc_pid) = 0%nat
  /\ Spawn.pid (Spawn.spawnInnertubeSupportService d proc_pid) = proc_pid
  /\ Spawn.stops_resolved (Spawn.spawnInnertubeSupportService d proc_pid) = []
  /\ Spawn.close_waiters (Spawn.spawnInnertubeSupportService d proc_pid) = []
  /\ Spawn.next_stop (Spawn.spawnInnertubeSupportService d proc_pid) = 0%nat.
Proof. destruct d; repeat split; reflexivity. Qed.

Lemma reported_closes_app (l1 l2 : list Spawn.logged) :
  reported_closes (l1 ++ l2) = reported_closes l1 ++ reported_closes l2.
Proof. unfold reported_closes. apply flat_map_app. Qed.

(** While the promise is pending, a step that is no readiness line sends no
    signal, and tells [onStdOut] of a close exactly when it is one. *)
Lemma spawn_step_reports (e : Spawn.event) (s : Spawn.state) :
  Spawn.promise s = None ->
  Spawn.is_ready_line e = false ->
  Spawn.signals (step e s) = Spawn.signals s
  /\ reported_closes (Spawn.stdout_log (step e s))
     = reported_closes (Spawn.stdout_log s) ++ close_codes [e].
Proof.
  intros Hp Hr. destruct e as [chunk | chunk | line | code |]; cbn in *.
  - split; [reflexivity |]. rewrite reported_closes_app. reflexivity.
  - split; [reflexivity |]. now rewrite app_nil_r.
  - unfold Spawn.on_line. rewrite Hr. split; [reflexivity |]. now rewrite app_nil_r.
  - split; [reflexivity |]. rewrite reported_closes_app. reflexivity.
  - rewrite Hp. split; [reflexivity |]. now rewrite app_nil_r.
Qed.

Lemma spawn_run_reports (evs : list Spawn.event) (s : Spawn.state) :
  Spawn.promise s = None ->
  forallb (fun e => negb (Spawn.is_ready_line e)) evs = true ->
  Spawn.signals (run evs s) = Spawn.signals s
  /\ reported_closes (Spawn.stdout_log (run evs s))
     = reported_closes (Spawn.stdout_log s) ++ close_codes evs.
Proof.
  revert s. induction evs as [| e evs IH]; intros s Hp Hall.
  - split; [reflexivity |]. cbn. now rewrite app_nil_r.
  - cbn [forallb] in Hall. apply andb_prop in Hall as [He Hall].
    apply negb_true_iff in He.
    destruct (spawn_step_pending e s Hp He) as [Hp' _].
    destruct (spawn_step_reports e s Hp He) as [Hs Hl].
    destruct (IH (step e s) Hp' Hall) as [Hs' Hl'].
    change (run (e :: evs) s) with (run evs (step e s)).
    split; [congruence |]. rewrite Hl', Hl, <- app_assoc. f_equal.
    unfold close_codes. cbn [flat_map]. now rewrite app_nil_r.
Qed.

(** C3, as the code has it.  As long as the subprocess has printed no
    line that starts with [result: ], the promise of the spawn stays
    pending, however many times the process has closed: each close is
    reported through [onStdOut] with its exit code and calls [onStop], and
    no signal is sent to the process.  The promise is settled by the first
    such line, which also closes the readline interface: it is resolved
    when what follows the prefix parses (no signal is sent), and rejected
    with the parse error when it does not, [proc.kill()] being called on
    the subprocess in that same step. *)
Theorem spawn_pending_until_ready_line (d : Spawn.DenoInstallStatus)
    (proc_pid : option nat) (evs : list Spawn.event) :
  forallb (fun e => negb (Spawn.is_ready_line e)) evs = true ->
  let s := run evs (Spawn.spawnInnertubeSupportService d proc_pid) in
  Spawn.promise s = None
  /\ Spawn.onStop_calls s = length (List.filter Spawn.is_close evs)
  /\ reported_closes (Spawn.stdout_log s) = close_codes evs
  /\ Spawn.signals s = []
  /\ (forall rest,
        let s' := step (Spawn.Line (Spawn.result_prefix +:+ rest)) s in
        Spawn.promise s'
        = Some match JSON_parse rest with
               | inr parsed =>
                   Fulfilled {| Spawn.payload := parsed;
                                Spawn.runtime_used := Spawn.used s |}
               | inl msg => Rejected ("Failed to parse service result: " +:+ msg)
               end
        /\ Spawn.signals s'
           = match JSON_parse rest with
             | inr _ => []
             | inl _ => [Spawn.ProcKill]
             end
        /\ Spawn.rl_closed s' = true
        /\ Spawn.onStop_calls s' = Spawn.onStop_calls s).
Proof.
  intros Hall s.
  destruct (spawn_initially_pending d proc_pid) as (Hp & Hc & _).
  destruct (spawn_run_pending evs _ Hp Hall) as [Hp' Hc'].
  destruct (spawn_run_reports evs _ Hp Hall) as [Hs' Hl'].
  fold s in Hp', Hc', Hs', Hl'.
  assert (Hs0 : Spawn.signals s = []) by (rewrite Hs'; now destruct d).
  split; [exact Hp' |]. split; [lia |].
  split; [rewrite Hl'; now destruct d |].
  split; [exact Hs0 |].
  intros rest. cbn. unfold Spawn.on_line.
  rewrite prefix_append, substring_append. unfold Spawn.settle.
  destruct (JSON_parse rest); cbn; rewrite Hp', Hs0; now repeat split.
Qed.

End SpawnFacts.

Lemma spawn_pending_until_ready_line_witness :
  Spawn.promise
    (Spawn.run Sample.JSON_parse
       [Spawn.StdoutData "booting"; Spawn.Line "listening soon"; Spawn.Close (Some 1)]
       (Spawn.spawnInnertubeSupportService (Spawn.Installed "2.1.4") (Some 4242%nat)))
  = None.
Proof.
  exact (proj1 (spawn_pending_until_ready_line Sample.JSON_parse
                  (Spawn.Installed "2.1.4") (Some 4242%nat)
                  [Spawn.StdoutData "booting"; Spawn.Line "listening soon";
                   Spawn.Close (Some 1)] eq_refl)).
Defined.

(** C3, as stated, fails: the subprocess exits with code 1 before it has
    printed a readiness line; [onStop] is called, and the promise of the
    spawn is still pending, not rejected. *)
Lemma spawn_exit_before_ready_not_rejected :
  let s := Spawn.run Sample.JSON_parse
             [Spawn.StdoutData "booting"; Spawn.Close (Some 1)]
             (Spawn.spawnInnertubeSupportService (Spawn.Installed "2.1.4")
                (Some 4242%nat)) in
  Spawn.promise s = None
  /\ Spawn.onStop_calls s = 1%nat
  /\ (forall e, Spawn.promise s <> Some (Rejected e)).
Proof. cbn. repeat split; try reflexivity. intros e; discriminate. Qed.

Section StopFacts.

Variable JSON_parse : string -> string + Service.InnertubeSupportServiceStatus.

Local Abbreviation step := (Spawn.step JSON_parse).
Local Abbreviation run := (Spawn.run JSON_parse).

Lemma stop_numbered (s : Spawn.state) :
  stops_numbered s -> stops_numbered (snd (Spawn.stop s)).
Proof.
  intros H k. unfold Spawn.stop.
  destruct (Spawn.pid s); cbn; rewrite in_app_iff; cbn; intros Hk;
    assert (Hc : In k (Spawn.stops_resolved s) \/ In k (Spawn.close_waiters s)
                 \/ Spawn.next_stop s = k) by tauto;
    destruct Hc as [Hc | [Hc | Hc]];
    try (assert ((k < Spawn.next_stop s)%nat) by (apply H; tauto)); lia.
Qed.

Lemma step_numbered (e : Spawn.event) (s : Spawn.state) :
  stops_numbered s -> stops_numbered (step e s).
Proof.
  intros H. destruct e as [chunk | chunk | line | code |]; cbn.
  - exact H.
  - exact H.
  - unfold Spawn.on_line. destruct (String.prefix _ _); [| exact H].
    destruct (JSON_parse _); exact H.
  - intros k. cbn. rewrite in_app_iff. intros Hk. apply H. tauto.
  - destruct (Spawn.promise s) as [[v | err] |]; try exact H.
    now apply stop_numbered.
Qed.

Lemma run_numbered (evs : list Spawn.event) (s : Spawn.state) :
  stops_numbered s -> stops_numbered (run evs s).
Proof.
  revert s. induction evs as [| e evs IH]; intros s H; cbn; [exact H |].
  apply IH. now apply step_numbered.
Qed.

Lemma step_pid (e : Spawn.event) (s : Spawn.state) :
  Spawn.pid (step e s) = Spawn.pid s.
Proof.
  destruct e as [chunk | chunk | line | code |]; cbn; try reflexivity.
  - unfold Spawn.on_line. destruct (String.prefix _ _); [| reflexivity].
    destruct (JSON_parse _); reflexivity.
  - destruct (Spawn.promise s) as [[v | err] |]; try reflexivity.
    unfold Spawn.stop. destruct (Spawn.pid s); reflexivity.
Qed.

Lemma run_pid (evs : list Spawn.event) (s : Spawn.state) :
  Spawn.pid (run evs s) = Spawn.pid s.
Proof.
  revert s. induction evs as [| e evs IH]; intros s; cbn; [reflexivity |].
  unfold Spawn.run in IH. now rewrite IH, step_pid.
Qed.

(** A [stop()] promise that is resolved stays resolved. *)
Lemma step_resolved_mono (k : nat) (e : Spawn.event) (s : Spawn.state) :
  In k (Spawn.stops_resolved s) -> In k (Spawn.stops_resolved (step e s)).
Proof.
  intros H. destruct e as [chunk | chunk | line | code |]; cbn; try exact H.
  - unfold Spawn.on_line. destruct (String.prefix _ _); [| exact H].
    destruct (JSON_parse _); exact H.
  - apply in_app_iff. now left.
  - destruct (Spawn.promise s) as [[v | err] |]; try exact H.
    unfold Spawn.stop. destruct (Spawn.pid s); cbn; [exact H |].
    apply in_app_iff. now left.
Qed.

Lemma run_resolved_mono (k : nat) (evs : list Spawn.event) (s : Spawn.state) :
  In k (Spawn.stops_resolved s) -> In k (Spawn.stops_resolved (run evs s)).
Proof.
  revert s. induction evs as [| e evs IH]; intros s H; cbn; [exact H |].
  apply IH. now apply step_resolved_mono.
Qed.

Lemma step_waiting (k : nat) (e : Spawn.event) (s : Spawn.state) :
  waiting k s ->
  if Spawn.is_close e then In k (Spawn.stops_resolved (step e s))
  else waiting k (step e s).
Proof.
  intros (Hw & Hr & Hlt & Hpid).
  destruct e as [chunk | chunk | line | code |]; cbn.
  - repeat split; assumption.
  - repeat split; assumption.
  - unfold Spawn.on_line. destruct (String.prefix _ _);
      [destruct (JSON_parse _) |]; repeat split; assumption.
  - apply in_app_iff. now right.
  - destruct (Spawn.promise s) as [[v | err] |];
      try (repeat split; assumption).
    unfold Spawn.stop. destruct Hpid as [p Hp]. rewrite Hp. cbn.
    repeat split; cbn.
    + apply in_app_iff. now left.
    + exact Hr.
    + lia.
    + now exists p.
Qed.

Lemma run_waiting (k : nat) (evs : list Spawn.event) (s : Spawn.state) :
  waiting k s ->
  (In k (Spawn.stops_resolved (run evs s)) <-> existsb Spawn.is_close evs = true).
Proof.
  revert s. induction evs as [| e evs IH]; intros s Hw; cbn.
  - destruct Hw as (_ & Hr & _). split; [tauto | discriminate].
  - pose proof (step_waiting k e s Hw) as Hs.
    destruct (Spawn.is_close e); cbn.
    + split; [reflexivity |]. intros _. now apply run_resolved_mono.
    + now apply IH.
Qed.

(** C8.  The process has pid [p].  Whatever happened before ([pre]), a
    call of the [stop] capability signals the whole process tree of [p]
    (tree-kill) and returns a promise that is not resolved by the call;
    whatever happens afterwards ([post]), that promise is resolved exactly
    when a close event of the process is among what happened afterwards. *)
Theorem stop_resolves_after_close (d : Spawn.DenoInstallStatus) (p : nat)
    (pre post : list Spawn.event) :
  let s1 := run pre (Spawn.spawnInnertubeSupportService d (Some p)) in
  let k := fst (Spawn.stop s1) in
  let s2 := snd (Spawn.stop s1) in
  let s3 := run post s2 in
  Spawn.signals s2 = Spawn.signals s1 ++ [Spawn.TreeKill p]
  /\ ~ In k (Spawn.stops_resolved s2)
  /\ (In k (Spawn.stops_resolved s3) <-> existsb Spawn.is_close post = true).
Proof.
  intros s1 k s2 s3.
  assert (Hpid : Spawn.pid s1 = Some p).
  { unfold s1. rewrite run_pid. now destruct d. }
  assert (Hnum : stops_numbered s1).
  { apply run_numbered. intros j. destruct d; cbn; tauto. }
  assert (Hstop : Spawn.stop s1
                  = (Spawn.next_stop s1,
                     Spawn.mk (Spawn.promise s1) (Spawn.used s1) (Spawn.pid s1)
                       (Spawn.rl_closed s1)
                       (Spawn.stdout_log s1 ++ [Spawn.Text "Stopping service..."])
                       (Spawn.stderr_log s1) (Spawn.onStop_calls s1)
                       (Spawn.signals s1 ++ [Spawn.TreeKill p])
                       (Spawn.close_waiters s1 ++ [Spawn.next_stop s1])
                       (Spawn.stops_resolved s1) (S (Spawn.next_stop s1)))).
  { unfold Spawn.stop. now rewrite Hpid. }
  assert (Hfresh : ~ In (Spawn.next_stop s1) (Spawn.stops_resolved s1)).
  { intros Hin.
    assert ((Spawn.next_stop s1 < Spawn.next_stop s1)%nat) by (apply Hnum; tauto).
    lia. }
  subst k s2 s3. rewrite Hstop. cbn [fst snd].
  split; [reflexivity |]. split; [exact Hfresh |].
  apply run_waiting. repeat split; cbn.
  - apply in_app_iff. right. now left.
  - exact Hfresh.
  - lia.
  - rewrite Hpid. now exists p.
Qed.

End StopFacts.

(** ** Disposal of the wrapper *)

Lemma clearPoTokenRefreshTimer_disposed (s : Wrapper.state) :
  Wrapper.disposed (Wrapper.clearPoTokenRefreshTimer s) = Wrapper.disposed s.
Proof.
  unfold Wrapper.clearPoTokenRefreshTimer.
  destruct (Wrapper.poTokenRefreshTimer s); reflexivity.
Qed.

Lemma initInnertube_disposed (s : Wrapper.state) :
  Wrapper.disposed (snd (Wrapper.initInnertube s)) = Wrapper.disposed s.
Proof.
  unfold Wrapper.initInnertube. unfold_setters.
  apply clearPoTokenRefreshTimer_disposed.
Qed.

Lemma step_stays_disposed (e : Wrapper.event) (s : Wrapper.state) :
  Wrapper.disposed s = true -> Wrapper.disposed (Wrapper.step e s) = true.
Proof.
  intros Hd. destruct e as [| ident | loc | | | p r | p r | h]; cbn.
  - unfold Wrapper.getInnertube. now rewrite Hd.
  - exact Hd.
  - unfold Wrapper.setLocale. now rewrite Hd.
  - unfold Wrapper.dispose. now rewrite Hd.
  - exact Hd.
  - destruct (Wrapper.tasks s !! p) as [[| sp] |]; try exact Hd.
    unfold Wrapper.token_settled.
    destruct r as [[pot |] | err]; unfold_setters; try exact Hd.
    destruct (Wrapper.innertube s); unfold_setters; try exact Hd.
    rewrite applyLocale_disposed by exact Hd. exact Hd.
  - destruct (Wrapper.tasks s !! p) as [[| sp] |]; try exact Hd.
    unfold Wrapper.client_settled.
    destruct r as [c | err]; unfold_setters; try exact Hd.
    rewrite applyLocale_disposed by exact Hd. exact Hd.
  - destruct (decide _); [| exact Hd].
    unfold Wrapper.refreshSessionPoToken, Wrapper.initInnertube. unfold_setters.
    rewrite clearPoTokenRefreshTimer_disposed. unfold_setters.
    rewrite clearPoTokenRefreshTimer_disposed. exact Hd.
Qed.

Lemma run_stays_disposed (evs : list Wrapper.event) (s : Wrapper.state) :
  Wrapper.disposed s = true -> Wrapper.disposed (Wrapper.run evs s) = true.
Proof.
  revert s. induction evs as [| e evs IH]; intros s Hd; cbn; [exact Hd |].
  apply IH. now apply step_stays_disposed.
Qed.

Lemma dispose_disposes (s : Wrapper.state) :
  Wrapper.disposed (Wrapper.dispose s) = true.
Proof.
  unfold Wrapper.dispose. destruct (Wrapper.disposed s) eqn:Hd; [exact Hd |].
  unfold_setters.
  destruct (Wrapper.service (Wrapper.clearPoTokenRefreshTimer s)); reflexivity.
Qed.

(** C6, as the code has it.  [dispose()] marks the wrapper disposed before
    it suspends.  From then on, whatever else happens to the wrapper
    ([evs]): a further [dispose()] changes nothing (in particular it does
    not call [#service.stop()] again); [getInnertube()] and [setLocale()]
    throw the disposed error to their caller; [generatePoToken()], an
    [async] function, does not throw: it returns a promise that is already
    rejected with the same error, the state being left as it was. *)
Theorem dispose_idempotent_and_final (s : Wrapper.state)
    (evs : list Wrapper.event) (ident : string) (loc : Wrapper.Locale) :
  let s1 := Wrapper.dispose s in
  let s2 := Wrapper.run evs s1 in
  Wrapper.dispose s1 = s1
  /\ Wrapper.stop_calls (Wrapper.dispose s1) = Wrapper.stop_calls s1
  /\ Wrapper.disposed s2 = true
  /\ Wrapper.dispose s2 = s2
  /\ Wrapper.getInnertube s2 = (Thrown Wrapper.disposed_error, s2)
  /\ Wrapper.generatePoToken ident s2 = RejectedNow Wrapper.disposed_error
  /\ Wrapper.setLocale loc s2 = (Thrown Wrapper.disposed_error, s2).
Proof.
  intros s1 s2.
  assert (H1 : Wrapper.disposed s1 = true) by apply dispose_disposes.
  assert (H2 : Wrapper.disposed s2 = true) by now apply run_stays_disposed.
  assert (Hfix : forall x, Wrapper.disposed x = true -> Wrapper.dispose x = x).
  { intros x Hx. unfold Wrapper.dispose. now rewrite Hx. }
  repeat split.
  - now apply Hfix.
  - now rewrite Hfix.
  - exact H2.
  - now apply Hfix.
  - unfold Wrapper.getInnertube. now rewrite H2.
  - unfold Wrapper.generatePoToken. now rewrite H2.
  - unfold Wrapper.setLocale. now rewrite H2.
Qed.

(** C6, as stated, fails for [generatePoToken]: on a disposed wrapper the
    call does not fail synchronously (nothing is thrown to the caller, so a
    [try] around the call catches nothing); it returns a rejected promise.
    [getInnertube] on the same wrapper does throw. *)
Lemma generatePoToken_after_dispose_does_not_throw :
  let s := Wrapper.dispose (Wrapper.fresh None Sample.locale Sample.spawned) in
  Wrapper.generatePoToken "Z6fXl2qP9HY" s = RejectedNow Wrapper.disposed_error
  /\ (forall e, Wrapper.generatePoToken "Z6fXl2qP9HY" s <> Thrown e)
  /\ fst (Wrapper.getInnertube s) = Thrown Wrapper.disposed_error.
Proof. cbn. repeat split. intros e; discriminate. Qed.

(** ** The refresh timer of the service *)

Lemma clearRefreshMinterTimer_idle (s : Service.minting) :
  EventLoop.pending (Service.loop s) = ∅ ->
  EventLoop.pending (Service.loop (Service.clearRefreshMinterTimer s)) = ∅.
Proof.
  intros H. unfold Service.clearRefreshMinterTimer.
  destruct (Service.refreshMinterTimer s); cbn; [| exact H].
  rewrite H. apply delete_empty.
Qed.

Lemma createMinter_shape (s : Service.minting) :
  Service.creating s = ∅ ->
  EventLoop.pending (Service.loop s) = ∅ ->
  let '(q, s1) := Service.createMinter s in
  Service.creating s1 = {[q]}
  /\ EventLoop.pending (Service.loop s1) = ∅
  /\ Service.exchanges s1 = S (Service.exchanges s).
Proof.
  intros Hc Hp. unfold Service.createMinter. cbn.
  rewrite Hc, union_empty_r_L. repeat split.
  now apply clearRefreshMinterTimer_idle.
Qed.

Lemma step_shape (e : Service.event) (s : Service.minting) :
  minting_shape s -> minting_shape (Service.step e s).
Proof.
  intros Hs. destruct e as [| p r | h]; cbn [Service.step].
  - unfold Service.getMinter.
    destruct Hs as [Hm Hc Hp | q Hm Hc Hp | q h ms Hm Hc Ht Hp | q Hm Hc Hp];
      rewrite Hm; cbn -[Service.createMinter];
      try (econstructor; eassumption).
    pose proof (createMinter_shape s Hc Hp) as Hn.
    destruct (Service.createMinter s) as [q s1]. destruct Hn as (Hc1 & Hp1 & _).
    cbn. now apply (shape_creating _ q).
  - destruct (decide (p ∈ Service.creating s)) as [Hin | Hout]; [| exact Hs].
    destruct Hs as [Hm Hc Hp | q Hm Hc Hp | q h ms Hm Hc Ht Hp | q Hm Hc Hp];
      rewrite Hc in Hin;
      try (exfalso; exact (not_elem_of_empty (C := gset nat) p Hin)).
    apply elem_of_singleton in Hin. subst q.
    unfold Service.createMinter_resume. destruct r as [res | err].
    + unfold EventLoop.setTimeout. cbn.
      eapply (shape_armed _ p); cbn; [exact Hm | | reflexivity |].
      * rewrite Hc. apply difference_diag_L.
      * rewrite Hp. apply insert_empty.
    + apply (shape_failed _ p); cbn; [exact Hm | | exact Hp].
      rewrite Hc. apply difference_diag_L.
  - destruct (decide (is_Some (EventLoop.pending (Service.loop s) !! h)))
      as [Hin | Hout]; [| exact Hs].
    destruct Hs as [Hm Hc Hp | q Hm Hc Hp | q h' ms Hm Hc Ht Hp | q Hm Hc Hp];
      try (rewrite Hp, lookup_empty in Hin; destruct Hin; discriminate).
    rewrite Hp in Hin. apply lookup_singleton_is_Some in Hin. subst h'.
    unfold Service.refresh_callback, Service.createMinter,
      Service.clearRefreshMinterTimer. cbn. rewrite Ht. cbn.
    apply (shape_creating _ (Service.next_promise s)); cbn; [reflexivity | |].
    + rewrite Hc. apply union_empty_r_L.
    + rewrite Hp, delete_singleton_eq. apply delete_empty.
Qed.

Lemma run_shape (evs : list Service.event) (s : Service.minting) :
  minting_shape s -> minting_shape (Service.run evs s).
Proof.
  revert s. induction evs as [| e evs IH]; intros s Hs; cbn; [exact Hs |].
  apply IH. now apply step_shape.
Qed.

Lemma minting0_shape : minting_shape Service.minting0.
Proof. now apply shape_idle. Qed.

Lemma shape_pending_le_1 (s : Service.minting) :
  minting_shape s -> (size (EventLoop.pending (Service.loop s)) <= 1)%nat.
Proof.
  intros [Hm Hc Hp | q Hm Hc Hp | q h ms Hm Hc Ht Hp | q Hm Hc Hp]; rewrite Hp;
    rewrite ?map_size_empty, ?map_size_singleton; lia.
Qed.

Lemma ops_since_same (l : EventLoop.t) : EventLoop.ops_since l l = [].
Proof. unfold EventLoop.ops_since. apply drop_all. Qed.

Lemma ops_since_clear (h : nat) (l : EventLoop.t) :
  EventLoop.ops_since l (EventLoop.clearTimeout h l) = [EventLoop.OpClear h].
Proof. unfold EventLoop.ops_since. cbn. apply drop_app_length. Qed.

Lemma ops_since_set (ms : Z) (l : EventLoop.t) :
  EventLoop.ops_since l (snd (EventLoop.setTimeout ms l))
  = [EventLoop.OpSet (EventLoop.next_handle l) ms].
Proof. unfold EventLoop.ops_since. cbn. apply drop_app_length. Qed.

(** The timer calls of a step of the service: none; or one cancellation, in
    a step that starts a creation and leaves no timer pending; or one arming,
    in the step that resumes a creation, taken when no timer is pending. *)
Lemma service_step_ops (e : Service.event) (s : Service.minting) :
  minting_shape s ->
  Service.step_ops e s = []
  \/ (exists h, Service.step_ops e s = [EventLoop.OpClear h]
        /\ EventLoop.pending (Service.loop (Service.step e s)) = ∅
        /\ Service.creating (Service.step e s) <> ∅)
  \/ (exists h ms, Service.step_ops e s = [EventLoop.OpSet h ms]
        /\ EventLoop.pending (Service.loop s) = ∅
        /\ EventLoop.pending (Service.loop (Service.step e s)) = {[h := ms]}).
Proof.
  intros Hs. unfold Service.step_ops.
  destruct e as [| p r | h]; cbn [Service.step].
  - unfold Service.getMinter.
    destruct (Service.minterPromise s) as [q |] eqn:Hm; cbn [snd].
    + left. apply ops_since_same.
    + destruct Hs as [_ Hc Hp | q Hm' | q h ms Hm' | q Hm']; try congruence.
      unfold Service.createMinter, Service.clearRefreshMinterTimer.
      destruct (Service.refreshMinterTimer s) as [h |]; cbn.
      * right. left. exists h. split; [apply ops_since_clear |].
        rewrite Hp, Hc. split; [apply delete_empty |].
        rewrite union_empty_r_L. apply non_empty_singleton_L.
      * left. apply ops_since_same.
  - destruct (decide (p ∈ Service.creating s)) as [Hin | Hout];
      [| left; apply ops_since_same].
    destruct Hs as [Hm Hc Hp | q Hm Hc Hp | q h ms Hm Hc Ht Hp | q Hm Hc Hp];
      rewrite Hc in Hin;
      try (exfalso; exact (not_elem_of_empty (C := gset nat) p Hin)).
    unfold Service.createMinter_resume. destruct r as [res | err]; cbn.
    + right. right. eexists _, _. split; [apply ops_since_set |].
      split; [exact Hp |]. rewrite Hp. apply insert_empty.
    + left. apply ops_since_same.
  - destruct (decide (is_Some (EventLoop.pending (Service.loop s) !! h)))
      as [Hin | Hout]; [| left; apply ops_since_same].
    destruct Hs as [Hm Hc Hp | q Hm Hc Hp | q h' ms Hm Hc Ht Hp | q Hm Hc Hp];
      try (rewrite Hp, lookup_empty in Hin; destruct Hin; discriminate).
    rewrite Hp in Hin. apply lookup_singleton_is_Some in Hin. subst h'.
    unfold Service.refresh_callback, Service.createMinter,
      Service.clearRefreshMinterTimer. cbn. rewrite Ht. cbn.
    right. left. exists h. split.
    + unfold EventLoop.ops_since. cbn. apply drop_app_length.
    + rewrite Hp, Hc, delete_singleton_eq. split; [apply delete_empty |].
      rewrite union_empty_r_L. apply non_empty_singleton_L.
Qed.

(** ** The refresh timer of the wrapper *)

(** The shape reads five fields only. *)
Lemma wrapper_shape_ext (s s' : Wrapper.state) :
  Wrapper.disposed s' = Wrapper.disposed s ->
  Wrapper.innertubePromise s' = Wrapper.innertubePromise s ->
  Wrapper.tasks s' = Wrapper.tasks s ->
  Wrapper.poTokenRefreshTimer s' = Wrapper.poTokenRefreshTimer s ->
  Wrapper.loop s' = Wrapper.loop s ->
  wrapper_shape s -> wrapper_shape s'.
Proof.
  intros Hd Hi Ht Hr Hl
    [H1 H2 H3 H4 | p st H1 H2 H3 H4 | p h ms H1 H2 H3 H4 H5 | p H1 H2 H3 H4
    | H1 H3 H4 | p st H1 H3 H4];
    rewrite <- ?Hd, <- ?Hi, <- ?Ht, <- ?Hr, <- ?Hl in *.
  - now apply shape_fresh.
  - now apply (shape_constructing _ p st).
  - now apply (shape_session_armed _ p h ms).
  - now apply (shape_session_settled _ p).
  - now apply shape_disposed.
  - now apply (shape_disposed_busy _ p st).
Qed.

Lemma clearPoTokenRefreshTimer_fields (s : Wrapper.state) :
  let s' := Wrapper.clearPoTokenRefreshTimer s in
  Wrapper.disposed s' = Wrapper.disposed s
  /\ Wrapper.innertubePromise s' = Wrapper.innertubePromise s
  /\ Wrapper.tasks s' = Wrapper.tasks s
  /\ Wrapper.poTokenRefreshTimer s' = None
  /\ Wrapper.next_promise s' = Wrapper.next_promise s
  /\ Wrapper.constructions s' = Wrapper.constructions s
  /\ EventLoop.pending (Wrapper.loop s')
     = match Wrapper.poTokenRefreshTimer s with
       | Some h => delete h (EventLoop.pending (Wrapper.loop s))
       | None => EventLoop.pending (Wrapper.loop s)
       end.
Proof.
  unfold Wrapper.clearPoTokenRefreshTimer.
  destruct (Wrapper.poTokenRefreshTimer s) eqn:E; cbn; repeat split; congruence.
Qed.

Lemma clearPoTokenRefreshTimer_idle (s : Wrapper.state) :
  EventLoop.pending (Wrapper.loop s) = ∅ ->
  EventLoop.pending (Wrapper.loop (Wrapper.clearPoTokenRefreshTimer s)) = ∅.
Proof.
  intros H. destruct (clearPoTokenRefreshTimer_fields s) as (_ & _ & _ & _ & _ & _ & ->).
  rewrite H. destruct (Wrapper.poTokenRefreshTimer s); [apply delete_empty | reflexivity].
Qed.

Lemma clearPoTokenRefreshTimer_armed (s : Wrapper.state) (h : nat) (ms : Z) :
  Wrapper.poTokenRefreshTimer s = Some h ->
  EventLoop.pending (Wrapper.loop s) = {[h := ms]} ->
  EventLoop.pending (Wrapper.loop (Wrapper.clearPoTokenRefreshTimer s)) = ∅.
Proof.
  intros Ht H. destruct (clearPoTokenRefreshTimer_fields s) as (_ & _ & _ & _ & _ & _ & ->).
  rewrite Ht, H. apply delete_singleton_eq.
Qed.

(** [#initInnertube()] started when nothing is in flight and no timer is
    pending. *)
Lemma initInnertube_fields (s : Wrapper.state) :
  Wrapper.tasks s = ∅ ->
  EventLoop.pending (Wrapper.loop s) = ∅ ->
  let '(p, s') := Wrapper.initInnertube s in
  Wrapper.disposed s' = Wrapper.disposed s
  /\ Wrapper.innertubePromise s' = Wrapper.innertubePromise s
  /\ Wrapper.tasks s' = {[p := Wrapper.AwaitToken]}
  /\ EventLoop.pending (Wrapper.loop s') = ∅
  /\ Wrapper.constructions s' = S (Wrapper.constructions s).
Proof.
  intros Ht Hp. unfold Wrapper.initInnertube. unfold_setters.
  destruct (clearPoTokenRefreshTimer_fields s) as (Hd & Hi & Htk & _ & _ & Hc & _).
  cbn zeta in *. rewrite Hd, Hi, Htk, Hc, Ht.
  repeat split; try reflexivity;
    first [apply insert_empty | now apply clearPoTokenRefreshTimer_idle].
Qed.

Lemma token_settled_fields (p : nat) (r : settled (option Wrapper.POToken))
    (s : Wrapper.state) :
  let s' := Wrapper.token_settled p r s in
  Wrapper.disposed s' = Wrapper.disposed s
  /\ Wrapper.innertubePromise s' = Wrapper.innertubePromise s
  /\ Wrapper.poTokenRefreshTimer s' = Wrapper.poTokenRefreshTimer s
  /\ Wrapper.loop s' = Wrapper.loop s
  /\ Wrapper.constructions s' = Wrapper.constructions s
  /\ (Wrapper.tasks s' = delete p (Wrapper.tasks s)
      \/ exists st, Wrapper.tasks s' = <[p := st]> (Wrapper.tasks s)).
Proof.
  unfold Wrapper.token_settled.
  destruct r as [[pot |] | err].
  - unfold_setters. repeat split. right. now eexists.
  - cbn zeta. set (s1 := Wrapper.set_lastSessionPoToken None s).
    assert (F : Wrapper.disposed s1 = Wrapper.disposed s
                /\ Wrapper.innertubePromise s1 = Wrapper.innertubePromise s
                /\ Wrapper.poTokenRefreshTimer s1 = Wrapper.poTokenRefreshTimer s
                /\ Wrapper.loop s1 = Wrapper.loop s
                /\ Wrapper.constructions s1 = Wrapper.constructions s
                /\ Wrapper.tasks s1 = Wrapper.tasks s)
      by (repeat split; reflexivity).
    clearbody s1. destruct F as (F1 & F2 & F3 & F4 & F5 & F6).
    rewrite <- F1, <- F2, <- F3, <- F4, <- F5, <- F6.
    destruct (Wrapper.innertube s1) as [c |] eqn:Hc.
    + destruct (Wrapper.disposed s1) eqn:Hd.
      * rewrite (applyLocale_disposed s1 Hd). unfold_setters.
        repeat split; try assumption. now left.
      * destruct (applyLocale_live s1 Hd)
          as (s2 & -> & Hl & Ht & Hs & Hr & Hd2 & Hi & Hn & Hc2).
        unfold_setters. rewrite Hc in Hc2.
        destruct (Wrapper.innertube s2) as [c2 |]; [| discriminate].
        unfold_setters. rewrite Hd2, Hi, Hr, Hl, Hn, Ht.
        repeat split. now left.
    + unfold_setters. repeat split; try assumption. right. now eexists.
  - unfold_setters. repeat split. now left.
Qed.

Lemma arm_refresh_fields (pot : Wrapper.POToken) (s : Wrapper.state) :
  let s' := Wrapper.arm_refresh pot s in
  Wrapper.disposed s' = Wrapper.disposed s
  /\ Wrapper.innertubePromise s' = Wrapper.innertubePromise s
  /\ Wrapper.tasks s' = Wrapper.tasks s
  /\ Wrapper.sessions s' = Wrapper.sessions s
  /\ Wrapper.constructions s' = Wrapper.constructions s
  /\ ((Wrapper.poTokenRefreshTimer s' = Wrapper.poTokenRefreshTimer s
       /\ Wrapper.loop s' = Wrapper.loop s)
      \/ exists t,
           Wrapper.ttl pot = Some t /\ t <> 0
           /\ Wrapper.poTokenRefreshTimer s' = Some (EventLoop.next_handle (Wrapper.loop s))
           /\ Wrapper.loop s'
              = snd (EventLoop.setTimeout
                       (Wrapper.session_timeout t (Wrapper.refreshThreshold pot) * 1000)
                       (Wrapper.loop s))).
Proof.
  unfold Wrapper.arm_refresh.
  destruct (Wrapper.ttl pot) as [t |] eqn:Ht; [| repeat split; now left].
  destruct (t =? 0) eqn:Hz; [repeat split; now left |].
  apply Z.eqb_neq in Hz. unfold EventLoop.setTimeout. unfold_setters.
  repeat split. right. exists t. repeat split. exact Hz.
Qed.

Lemma client_settled_fields (p : nat) (sp : option Wrapper.POToken)
    (r : settled Wrapper.Innertube) (s : Wrapper.state) :
  let s' := Wrapper.client_settled p sp r s in
  Wrapper.disposed s' = Wrapper.disposed s
  /\ Wrapper.innertubePromise s' = Wrapper.innertubePromise s
  /\ Wrapper.tasks s' = delete p (Wrapper.tasks s)
  /\ Wrapper.constructions s' = Wrapper.constructions s
  /\ ((Wrapper.poTokenRefreshTimer s' = Wrapper.poTokenRefreshTimer s
       /\ Wrapper.loop s' = Wrapper.loop s)
      \/ (Wrapper.disposed s = false
          /\ exists pot t,
               sp = Some pot /\ Wrapper.ttl pot = Some t /\ t <> 0
               /\ Wrapper.poTokenRefreshTimer s'
                  = Some (EventLoop.next_handle (Wrapper.loop s))
               /\ Wrapper.loop s'
                  = snd (EventLoop.setTimeout
                           (Wrapper.session_timeout t (Wrapper.refreshThreshold pot) * 1000)
                           (Wrapper.loop s)))).
Proof.
  unfold Wrapper.client_settled.
  destruct r as [c | err]; [| unfold_setters; repeat split; now left].
  destruct (Wrapper.disposed s) eqn:Hd.
  - rewrite applyLocale_disposed by exact Hd. unfold_setters.
    repeat split; try assumption. now left.
  - destruct (applyLocale_live (Wrapper.set_innertube (Some c) s) Hd)
      as (s2 & E & Hl & Ht & Hs & Hr & Hd2 & Hi & Hn & _).
    rewrite E. unfold Wrapper.set_innertube in Hl, Ht, Hs, Hr, Hi, Hn.
    cbn in Hl, Ht, Hs, Hr, Hi, Hn.
    destruct sp as [pot |].
    + destruct (arm_refresh_fields pot s2) as (A1 & A2 & A3 & A4 & A5 & A6).
      cbn zeta in *. unfold Wrapper.finish. unfold_setters.
      rewrite A1, A2, A3, A5, Hd2, Hi, Ht, Hn. repeat split.
      destruct A6 as [[B1 B2] | (t & B1 & B2 & B3 & B4)].
      * left. rewrite B1, B2. now split.
      * right. split; [reflexivity |]. exists pot, t.
        rewrite B3, B4, Hl. repeat split; assumption.
    + unfold Wrapper.finish. unfold_setters.
      rewrite Hd2, Hi, Ht, Hn, Hr, Hl. repeat split. now left.
Qed.

Lemma dispose_fields (s : Wrapper.state) :
  Wrapper.disposed s = false ->
  let s' := Wrapper.dispose s in
  Wrapper.disposed s' = true
  /\ Wrapper.tasks s' = Wrapper.tasks s
  /\ Wrapper.constructions s' = Wrapper.constructions s
  /\ Wrapper.loop s' = Wrapper.loop (Wrapper.clearPoTokenRefreshTimer s).
Proof.
  intros Hd. unfold Wrapper.dispose. rewrite Hd. unfold_setters.
  destruct (clearPoTokenRefreshTimer_fields s) as (_ & _ & Ht & _ & _ & Hc & _).
  cbn zeta in *.
  destruct (Wrapper.service (Wrapper.clearPoTokenRefreshTimer s));
    unfold_setters; repeat split; assumption.
Qed.

Lemma refreshSessionPoToken_fields (s : Wrapper.state) :
  Wrapper.tasks s = ∅ ->
  EventLoop.pending (Wrapper.loop (Wrapper.clearPoTokenRefreshTimer s)) = ∅ ->
  let s' := Wrapper.refreshSessionPoToken s in
  Wrapper.disposed s' = Wrapper.disposed s
  /\ Wrapper.innertubePromise s' = Some (Wrapper.next_promise s)
  /\ Wrapper.tasks s' = {[Wrapper.next_promise s := Wrapper.AwaitToken]}
  /\ EventLoop.pending (Wrapper.loop s') = ∅
  /\ Wrapper.constructions s' = S (Wrapper.constructions s).
Proof.
  intros Ht Hp. unfold Wrapper.refreshSessionPoToken.
  destruct (clearPoTokenRefreshTimer_fields s) as (Hd & Hi & Htk & Hr & Hn & Hc & _).
  cbn zeta in *.
  set (s1 := Wrapper.clearPoTokenRefreshTimer s) in *. clearbody s1.
  unfold Wrapper.initInnertube, Wrapper.clearPoTokenRefreshTimer.
  unfold_setters. rewrite Hr. unfold_setters.
  rewrite ?Hd, ?Htk, ?Hn, ?Hc, ?Ht. repeat split; try reflexivity;
    first [apply insert_empty | exact Hp].
Qed.

Lemma wrapper_step_shape (e : Wrapper.event) (s : Wrapper.state) :
  wrapper_shape s -> wrapper_shape (Wrapper.step e s).
Proof.
  intros Hs. destruct e as [| ident | loc | | | p r | p r | h]; cbn [Wrapper.step].
  - unfold Wrapper.getInnertube.
    destruct (Wrapper.disposed s) eqn:Hd; [exact Hs |].
    unfold Wrapper.initInnertubePromise.
    destruct (Wrapper.innertubePromise s) as [q |] eqn:Hi; [exact Hs |].
    destruct Hs as [H1 H2 H3 H4 | q st H1 H2 H3 H4 | q h ms H1 H2 H3 H4 H5
                   | q H1 H2 H3 H4 | H1 H3 H4 | q st H1 H3 H4]; try congruence.
    pose proof (initInnertube_fields s H3 H4) as Hn.
    destruct (Wrapper.initInnertube s) as [q s1].
    destruct Hn as (Hd1 & _ & Ht1 & Hp1 & _). unfold_setters.
    apply (shape_constructing _ q Wrapper.AwaitToken); cbn; try assumption;
      [congruence | reflexivity].
  - exact Hs.
  - unfold Wrapper.setLocale.
    destruct (Wrapper.disposed s) eqn:Hd; [exact Hs |].
    destruct (applyLocale_live (Wrapper.set_locale loc s) Hd)
      as (s1 & -> & Hl & Ht & _ & Hr & Hd1 & Hi & _).
    cbn [snd]. revert Hs. apply wrapper_shape_ext; try assumption. congruence.
  - destruct (Wrapper.disposed s) eqn:Hd.
    + unfold Wrapper.dispose. now rewrite Hd.
    + destruct (dispose_fields s Hd) as (D1 & D2 & _ & D4). cbn zeta in *.
      destruct Hs as [H1 H2 H3 H4 | q st H1 H2 H3 H4 | q h ms H1 H2 H3 H4 H5
                     | q H1 H2 H3 H4 | H1 H3 H4 | q st H1 H3 H4]; try congruence.
      * apply shape_disposed; rewrite ?D2, ?D4; try assumption.
        now apply clearPoTokenRefreshTimer_idle.
      * apply (shape_disposed_busy _ q st); rewrite ?D2, ?D4; try assumption.
        now apply clearPoTokenRefreshTimer_idle.
      * apply shape_disposed; rewrite ?D2, ?D4; try assumption.
        now apply (clearPoTokenRefreshTimer_armed _ h ms).
      * apply shape_disposed; rewrite ?D2, ?D4; try assumption.
        now apply clearPoTokenRefreshTimer_idle.
  - revert Hs. apply wrapper_shape_ext; reflexivity.
  - destruct (Wrapper.tasks s !! p) as [[| sp] |] eqn:Hl; try exact Hs.
    destruct (token_settled_fields p r s) as (F1 & F2 & F3 & F4 & _ & F6).
    cbn zeta in *.
    destruct Hs as [H1 H2 H3 H4 | q st H1 H2 H3 H4 | q h ms H1 H2 H3 H4 H5
                   | q H1 H2 H3 H4 | H1 H3 H4 | q st H1 H3 H4];
      rewrite H3 in Hl;
      try (rewrite lookup_empty in Hl; discriminate);
      apply lookup_singleton_Some in Hl as [Hq Hst]; subst q st;
      rewrite H3 in F6;
      destruct F6 as [F6 | [st' F6]];
      rewrite ?delete_singleton_eq, ?insert_singleton_eq in F6.
    + apply (shape_session_settled _ p); congruence.
    + apply (shape_constructing _ p st'); congruence.
    + apply shape_disposed; congruence.
    + apply (shape_disposed_busy _ p st'); congruence.
  - destruct (Wrapper.tasks s !! p) as [[| sp] |] eqn:Hl; try exact Hs.
    destruct (client_settled_fields p sp r s) as (F1 & F2 & F3 & _ & F5).
    cbn zeta in *.
    destruct Hs as [H1 H2 H3 H4 | q st H1 H2 H3 H4 | q h ms H1 H2 H3 H4 H5
                   | q H1 H2 H3 H4 | H1 H3 H4 | q st H1 H3 H4];
      rewrite H3 in Hl;
      try (rewrite lookup_empty in Hl; discriminate);
      apply lookup_singleton_Some in Hl as [Hq Hst]; subst q st;
      rewrite H3, delete_singleton_eq in F3.
    + destruct F5 as [[F5 F6] | (_ & pot & t & _ & _ & _ & F5 & F6)].
      * apply (shape_session_settled _ p); congruence.
      * eapply (shape_session_armed _ p); try eassumption; try congruence.
        rewrite F6. cbn. rewrite H4. apply insert_empty.
    + destruct F5 as [[F5 F6] | (Hd & _)]; [| congruence].
      apply shape_disposed; congruence.
  - destruct (decide (is_Some (EventLoop.pending (Wrapper.loop s) !! h)))
      as [Hin | Hout]; [| exact Hs].
    destruct Hs as [H1 H2 H3 H4 | q st H1 H2 H3 H4 | q h' ms H1 H2 H3 H4 H5
                   | q H1 H2 H3 H4 | H1 H3 H4 | q st H1 H3 H4];
      try (rewrite H4, lookup_empty in Hin; destruct Hin; discriminate).
    rewrite H5 in Hin. apply lookup_singleton_is_Some in Hin. subst h'.
    set (s0 := Wrapper.set_loop (EventLoop.fire h (Wrapper.loop s)) s).
    assert (Hp0 : EventLoop.pending (Wrapper.loop (Wrapper.clearPoTokenRefreshTimer s0)) = ∅).
    { apply clearPoTokenRefreshTimer_idle. unfold s0. cbn. rewrite H5.
      apply delete_singleton_eq. }
    destruct (refreshSessionPoToken_fields s0 H3 Hp0) as (R1 & R2 & R3 & R4 & _).
    cbn zeta in *.
    apply (shape_constructing _ (Wrapper.next_promise s0) Wrapper.AwaitToken);
      try assumption.
    rewrite R1. exact H1.
Qed.

Lemma wrapper_run_shape (evs : list Wrapper.event) (s : Wrapper.state) :
  wrapper_shape s -> wrapper_shape (Wrapper.run evs s).
Proof.
  revert s. induction evs as [| e evs IH]; intros s Hs; cbn; [exact Hs |].
  apply IH. now apply wrapper_step_shape.
Qed.

Lemma fresh_shape (acct : option Wrapper.AccountConfig) (loc : Wrapper.Locale)
    (svc : Spawn.SpawnedInnertubeSupportService) :
  wrapper_shape (Wrapper.fresh acct loc svc).
Proof. now apply shape_fresh. Qed.

Lemma wrapper_shape_pending_le_1 (s : Wrapper.state) :
  wrapper_shape s -> (size (EventLoop.pending (Wrapper.loop s)) <= 1)%nat.
Proof.
  intros [H1 H2 H3 H4 | q st H1 H2 H3 H4 | q h ms H1 H2 H3 H4 H5
         | q H1 H2 H3 H4 | H1 H3 H4 | q st H1 H3 H4];
    rewrite ?H4, ?H5, ?map_size_empty, ?map_size_singleton; lia.
Qed.

Lemma clearPoTokenRefreshTimer_ops (s : Wrapper.state) :
  EventLoop.ops_since (Wrapper.loop s)
    (Wrapper.loop (Wrapper.clearPoTokenRefreshTimer s))
  = match Wrapper.poTokenRefreshTimer s with
    | Some h => [EventLoop.OpClear h]
    | None => []
    end.
Proof.
  unfold Wrapper.clearPoTokenRefreshTimer.
  destruct (Wrapper.poTokenRefreshTimer s); cbn;
    [apply ops_since_clear | apply ops_since_same].
Qed.

Lemma initInnertube_loop (s : Wrapper.state) :
  Wrapper.loop (snd (Wrapper.initInnertube s))
  = Wrapper.loop (Wrapper.clearPoTokenRefreshTimer s).
Proof. reflexivity. Qed.

Lemma refreshSessionPoToken_loop (s : Wrapper.state) :
  Wrapper.loop (Wrapper.refreshSessionPoToken s)
  = Wrapper.loop (Wrapper.clearPoTokenRefreshTimer s).
Proof.
  unfold Wrapper.refreshSessionPoToken.
  destruct (clearPoTokenRefreshTimer_fields s) as (_ & _ & _ & Hr & _).
  cbn zeta in Hr.
  set (s1 := Wrapper.clearPoTokenRefreshTimer s) in *. clearbody s1.
  unfold Wrapper.initInnertube, Wrapper.clearPoTokenRefreshTimer.
  unfold_setters. rewrite Hr. reflexivity.
Qed.

(** The timer calls of a step of the wrapper: none; or one cancellation, in
    a step that leaves no timer pending; or one arming, in the step that
    resumes a construction, taken when no timer is pending. *)
Lemma wrapper_step_ops (e : Wrapper.event) (s : Wrapper.state) :
  wrapper_shape s ->
  Wrapper.step_ops e s = []
  \/ (exists h, Wrapper.step_ops e s = [EventLoop.OpClear h]
        /\ EventLoop.pending (Wrapper.loop (Wrapper.step e s)) = ∅)
  \/ (exists h ms, Wrapper.step_ops e s = [EventLoop.OpSet h ms]
        /\ EventLoop.pending (Wrapper.loop s) = ∅
        /\ EventLoop.pending (Wrapper.loop (Wrapper.step e s)) = {[h := ms]}).
Proof.
  intros Hs.
  assert (Hclear : forall s',
             Wrapper.loop s' = Wrapper.loop (Wrapper.clearPoTokenRefreshTimer s) ->
             EventLoop.pending (Wrapper.loop s') = ∅ ->
             EventLoop.ops_since (Wrapper.loop s) (Wrapper.loop s') = []
             \/ (exists h, EventLoop.ops_since (Wrapper.loop s) (Wrapper.loop s')
                           = [EventLoop.OpClear h]
                   /\ EventLoop.pending (Wrapper.loop s') = ∅)
             \/ (exists h ms, EventLoop.ops_since (Wrapper.loop s) (Wrapper.loop s')
                              = [EventLoop.OpSet h ms]
                   /\ EventLoop.pending (Wrapper.loop s) = ∅
                   /\ EventLoop.pending (Wrapper.loop s') = {[h := ms]})).
  { intros s' Hl Hp. rewrite Hl, clearPoTokenRefreshTimer_ops.
    destruct (Wrapper.poTokenRefreshTimer s) as [h |]; [| now left].
    right. left. exists h. split; [reflexivity |]. now rewrite <- Hl. }
  pose proof (wrapper_step_shape e s Hs) as Hs'.
  unfold Wrapper.step_ops.
  destruct e as [| ident | loc | | | p r | p r | h]; cbn [Wrapper.step] in *.
  - unfold Wrapper.getInnertube in *.
    destruct (Wrapper.disposed s) eqn:Hd; [left; apply ops_since_same |].
    unfold Wrapper.initInnertubePromise in *.
    destruct (Wrapper.innertubePromise s) as [q |] eqn:Hi;
      [left; apply ops_since_same |].
    destruct Hs as [H1 H2 H3 H4 | q st H1 H2 H3 H4 | q h ms H1 H2 H3 H4 H5
                   | q H1 H2 H3 H4 | H1 H3 H4 | q st H1 H3 H4]; try congruence.
    pose proof (initInnertube_fields s H3 H4) as Hn.
    pose proof (initInnertube_loop s) as Hl.
    destruct (Wrapper.initInnertube s) as [q s1].
    destruct Hn as (_ & _ & _ & Hp1 & _). unfold_setters.
    apply Hclear; [exact Hl | exact Hp1].
  - left. apply ops_since_same.
  - unfold Wrapper.setLocale.
    destruct (Wrapper.disposed s) eqn:Hd; [left; apply ops_since_same |].
    destruct (applyLocale_live (Wrapper.set_locale loc s) Hd)
      as (s1 & -> & Hl & _).
    cbn [snd]. rewrite Hl. left. apply ops_since_same.
  - destruct (Wrapper.disposed s) eqn:Hd.
    + unfold Wrapper.dispose. rewrite Hd. left. apply ops_since_same.
    + destruct (dispose_fields s Hd) as (D1 & _ & _ & D4). cbn zeta in *.
      apply Hclear; [exact D4 |].
      destruct Hs' as [H1 H2 H3 H4 | q st H1 H2 H3 H4 | q h ms H1 H2 H3 H4 H5
                      | q H1 H2 H3 H4 | H1 H3 H4 | q st H1 H3 H4];
        congruence.
  - left. apply ops_since_same.
  - destruct (Wrapper.tasks s !! p) as [[| sp] |] eqn:Hl;
      try (left; apply ops_since_same).
    destruct (token_settled_fields p r s) as (_ & _ & _ & F4 & _).
    cbn zeta in F4. rewrite F4. left. apply ops_since_same.
  - destruct (Wrapper.tasks s !! p) as [[| sp] |] eqn:Hl;
      try (left; apply ops_since_same).
    destruct (client_settled_fields p sp r s) as (_ & _ & _ & _ & F5).
    cbn zeta in F5.
    destruct F5 as [[_ F6] | (Hd & pot & t & _ & _ & _ & _ & F6)].
    + rewrite F6. left. apply ops_since_same.
    + right. right. rewrite F6. eexists _, _.
      split; [apply ops_since_set |].
      assert (Hp : EventLoop.pending (Wrapper.loop s) = ∅).
      { destruct Hs as [H1 H2 H3 H4 | q st H1 H2 H3 H4 | q h ms H1 H2 H3 H4 H5
                       | q H1 H2 H3 H4 | H1 H3 H4 | q st H1 H3 H4];
          try congruence; rewrite H3, lookup_empty in Hl; discriminate. }
      split; [exact Hp |]. cbn. rewrite Hp. apply insert_empty.
  - destruct (decide (is_Some (EventLoop.pending (Wrapper.loop s) !! h)))
      as [Hin | Hout]; [| left; apply ops_since_same].
    rewrite refreshSessionPoToken_loop in *.
    unfold Wrapper.clearPoTokenRefreshTimer in *. unfold_setters.
    destruct Hs as [H1 H2 H3 H4 | q st H1 H2 H3 H4 | q h' ms H1 H2 H3 H4 H5
                   | q H1 H2 H3 H4 | H1 H3 H4 | q st H1 H3 H4];
      try (rewrite H4, lookup_empty in Hin; destruct Hin; discriminate).
    rewrite H5 in Hin. apply lookup_singleton_is_Some in Hin. subst h'.
    rewrite H4. unfold_setters. right. left. exists h. split.
    + unfold EventLoop.ops_since. cbn. apply drop_app_length.
    + cbn. rewrite H5, delete_singleton_eq. apply delete_empty.
Qed.

(** ** At most one refresh timer *)

(** C7, as the code has it.  In every state the service and the wrapper can
    be in, at most one refresh timer is pending.  A step makes at most one
    timer call: a cancellation, which leaves no timer pending (for the
    service, in the step that starts a creation, before it suspends); or an
    arming, which happens in the step that resumes a creation after its
    [await], contains no cancellation, and is taken when no timer is
    pending, so that afterwards exactly the new timer is. *)
Theorem refresh_timer_single
    (evs : list Service.event) (e : Service.event)
    (acct : option Wrapper.AccountConfig) (loc : Wrapper.Locale)
    (svc : Spawn.SpawnedInnertubeSupportService)
    (wevs : list Wrapper.event) (we : Wrapper.event) :
  let s := Service.run evs Service.minting0 in
  let w := Wrapper.run wevs (Wrapper.fresh acct loc svc) in
  (size (EventLoop.pending (Service.loop s)) <= 1)%nat
  /\ (size (EventLoop.pending (Wrapper.loop w)) <= 1)%nat
  /\ (Service.step_ops e s = []
      \/ (exists h, Service.step_ops e s = [EventLoop.OpClear h]
            /\ EventLoop.pending (Service.loop (Service.step e s)) = ∅
            /\ Service.creating (Service.step e s) <> ∅)
      \/ (exists h ms, Service.step_ops e s = [EventLoop.OpSet h ms]
            /\ EventLoop.pending (Service.loop s) = ∅
            /\ EventLoop.pending (Service.loop (Service.step e s)) = {[h := ms]}))
  /\ (Wrapper.step_ops we w = []
      \/ (exists h, Wrapper.step_ops we w = [EventLoop.OpClear h]
            /\ EventLoop.pending (Wrapper.loop (Wrapper.step we w)) = ∅)
      \/ (exists h ms, Wrapper.step_ops we w = [EventLoop.OpSet h ms]
            /\ EventLoop.pending (Wrapper.loop w) = ∅
            /\ EventLoop.pending (Wrapper.loop (Wrapper.step we w)) = {[h := ms]})).
Proof.
  intros s w.
  assert (Hs : minting_shape s) by (apply run_shape, minting0_shape).
  assert (Hw : wrapper_shape w) by (apply wrapper_run_shape, fresh_shape).
  split; [now apply shape_pending_le_1 |].
  split; [now apply wrapper_shape_pending_le_1 |].
  split; [now apply service_step_ops | now apply wrapper_step_ops].
Qed.

(** C7, as stated, fails in its account of the mechanism.  The first minter
    is created and its timer armed; the timer fires, and the callback starts
    the next creation, cancelling the old timer before it suspends; when the
    exchange settles, the step that arms the new timer contains no
    cancellation. *)
Lemma refresh_arming_step_has_no_cancel :
  let r := Sample.minterResult 500 (Some 100) in
  let before :=
    [Service.PotRequest; Service.ExchangeSettled 0 (Fulfilled r)] in
  let s1 := Service.run before Service.minting0 in
  let s2 := Service.step (Service.TimerFired 0) s1 in
  Service.step_ops (Service.TimerFired 0) s1 = [EventLoop.OpClear 0]
  /\ Service.step_ops (Service.ExchangeSettled 1 (Fulfilled r)) s2
     = [EventLoop.OpSet 1 300000]
  /\ EventLoop.set_after_clear false
       (Service.step_ops (Service.ExchangeSettled 1 (Fulfilled r)) s2) = false.
Proof. cbn zeta. vm_compute. repeat split; reflexivity. Qed.

(** ** Single flight *)

Lemma service_quiet_cached (p : nat) (e : Service.event) (s : Service.minting) :
  EventLoop.pending (Service.loop s) = ∅ ->
  Service.minterPromise s = Some p ->
  Service.settles e = false ->
  Service.step e s = s /\ (e = Service.PotRequest -> fst (Service.getMinter false s) = p).
Proof.
  intros Hp Hm He. destruct e as [| q r | h]; cbn in *; try discriminate.
  - unfold Service.getMinter. rewrite Hm. now split.
  - rewrite Hp, lookup_empty.
    destruct (decide (is_Some None)) as [[x Hx] | _]; [discriminate |].
    split; [reflexivity | discriminate].
Qed.

Lemma service_quiet_cached_run (p : nat) (window : list Service.event)
    (s : Service.minting) :
  EventLoop.pending (Service.loop s) = ∅ ->
  Service.minterPromise s = Some p ->
  forallb (fun e => negb (Service.settles e)) window = true ->
  Service.run window s = s /\ Forall (eq p) (Service.answers window s).
Proof.
  intros Hp Hm. induction window as [| e window IH]; intros Hq.
  - split; [reflexivity | constructor].
  - cbn [forallb] in Hq. apply andb_prop in Hq as [He Hq].
    apply negb_true_iff in He.
    destruct (service_quiet_cached p e s Hp Hm He) as [Hstep Hans].
    destruct (IH Hq) as [Hrun Hall]. split.
    + change (Service.run (e :: window) s)
        with (Service.run window (Service.step e s)).
      now rewrite Hstep.
    + destruct e as [| q r | h]; cbn [Service.answers]; rewrite Hstep;
        try exact Hall.
      constructor; [symmetry; now apply Hans | exact Hall].
Qed.

Lemma service_quiet_idle_run (window : list Service.event) (s : Service.minting) :
  EventLoop.pending (Service.loop s) = ∅ ->
  Service.minterPromise s = None ->
  Service.creating s = ∅ ->
  forallb (fun e => negb (Service.settles e)) window = true ->
  (Service.answers window s = []
   /\ Service.exchanges (Service.run window s) = Service.exchanges s)
  \/ (exists q,
        Service.answers window s <> []
        /\ Forall (eq q) (Service.answers window s)
        /\ Service.minterPromise (Service.run window s) = Some q
        /\ Service.creating (Service.run window s) = {[q]}
        /\ Service.exchanges (Service.run window s) = S (Service.exchanges s)).
Proof.
  intros Hp Hm Hc. induction window as [| e window IH]; intros Hq; cbn in *.
  - left. now split.
  - apply andb_prop in Hq as [He Hq]. apply negb_true_iff in He.
    destruct e as [| q r | h]; cbn in He; try discriminate; cbn [Service.answers].
    + right. cbn [Service.step]. unfold Service.getMinter. rewrite Hm.
      pose proof (createMinter_shape s Hc Hp) as Hn.
      destruct (Service.createMinter s) as [q s1].
      destruct Hn as (Hc1 & Hp1 & He1). cbn [fst snd].
      set (s2 := Service.mkMinting (Some q) _ _ _ _ _ _).
      destruct (service_quiet_cached_run q window s2 Hp1 eq_refl Hq) as [Hrun Hall].
      exists q. unfold Service.run in Hrun. rewrite Hrun.
      repeat split; try assumption; [discriminate | now constructor].
    + cbn [Service.step]. rewrite Hp, lookup_empty.
      destruct (decide (is_Some None)) as [[x Hx] | _]; [discriminate |].
      now apply IH.
Qed.

Lemma unresolved_shape (s : Service.minting) :
  minting_shape s -> Service.unresolved s = true ->
  EventLoop.pending (Service.loop s) = ∅
  /\ (Service.minterPromise s = None /\ Service.creating s = ∅
      \/ exists p, Service.minterPromise s = Some p /\ Service.creating s = {[p]}).
Proof.
  unfold Service.unresolved.
  intros [Hm Hc Hp | q Hm Hc Hp | q h ms Hm Hc Ht Hp | q Hm Hc Hp] Hu;
    rewrite Hm in Hu; try (split; [exact Hp |]).
  - now left.
  - right. now exists q.
  - apply bool_decide_eq_true in Hu. rewrite Hc in Hu.
    exfalso. exact (not_elem_of_empty (C := gset nat) q Hu).
  - apply bool_decide_eq_true in Hu. rewrite Hc in Hu.
    exfalso. exact (not_elem_of_empty (C := gset nat) q Hu).
Qed.

Lemma wrapper_answers_disposed (window : list Wrapper.event) (s : Wrapper.state) :
  Wrapper.disposed s = true -> Wrapper.answers window s = [].
Proof.
  revert s. induction window as [| e window IH]; intros s Hd; [reflexivity |].
  pose proof (step_stays_disposed e s Hd) as Hd'.
  destruct e; cbn [Wrapper.answers]; try (now apply IH).
  unfold Wrapper.getInnertube at 1. rewrite Hd. cbn. now apply IH.
Qed.

(** While the cached promise is [p] (or the wrapper is disposed) and no
    timer is pending, a step that settles nothing starts no construction. *)
Lemma wrapper_quiet_cached (p : nat) (e : Wrapper.event) (s : Wrapper.state) :
  EventLoop.pending (Wrapper.loop s) = ∅ ->
  Wrapper.disposed s = true \/ Wrapper.innertubePromise s = Some p ->
  Wrapper.settles e = false ->
  EventLoop.pending (Wrapper.loop (Wrapper.step e s)) = ∅
  /\ (Wrapper.disposed (Wrapper.step e s) = true
      \/ Wrapper.innertubePromise (Wrapper.step e s) = Some p)
  /\ Wrapper.tasks (Wrapper.step e s) = Wrapper.tasks s
  /\ Wrapper.constructions (Wrapper.step e s) = Wrapper.constructions s
  /\ (forall a, e = Wrapper.GetInnertube ->
        fst (Wrapper.getInnertube s) = Returned a -> a = p).
Proof.
  intros Hp Hk He.
  destruct e as [| ident | loc | | | q r | q r | h]; cbn in He; try discriminate;
    cbn [Wrapper.step].
  - unfold Wrapper.getInnertube.
    destruct (Wrapper.disposed s) eqn:Hd; cbn [fst snd].
    + close_fields.
    + destruct Hk as [Hk | Hk]; [discriminate |].
      unfold Wrapper.initInnertubePromise. rewrite Hk. cbn [fst snd].
      close_fields.
  - close_fields.
  - unfold Wrapper.setLocale.
    destruct (Wrapper.disposed s) eqn:Hd; cbn [snd].
    + close_fields.
    + destruct Hk as [Hk | Hk]; [discriminate |].
      destruct (applyLocale_live (Wrapper.set_locale loc s) Hd)
        as (s1 & -> & Hl & Ht & _ & _ & _ & Hi & Hn & _).
      cbn [snd]. rewrite Hl, Ht, Hi, Hn. close_fields.
  - destruct (Wrapper.disposed s) eqn:Hd.
    + unfold Wrapper.dispose. rewrite Hd. close_fields.
    + destruct (dispose_fields s Hd) as (D1 & D2 & D3 & D4). cbn zeta in *.
      rewrite D4. close_fields. now apply clearPoTokenRefreshTimer_idle.
  - close_fields.
  - rewrite Hp, lookup_empty.
    destruct (decide (is_Some None)) as [[x Hx] | _]; [discriminate |].
    close_fields.
Qed.

Lemma wrapper_quiet_cached_run (p : nat) (window : list Wrapper.event)
    (s : Wrapper.state) :
  EventLoop.pending (Wrapper.loop s) = ∅ ->
  Wrapper.disposed s = true \/ Wrapper.innertubePromise s = Some p ->
  forallb (fun e => negb (Wrapper.settles e)) window = true ->
  Wrapper.tasks (Wrapper.run window s) = Wrapper.tasks s
  /\ Wrapper.constructions (Wrapper.run window s) = Wrapper.constructions s
  /\ (Wrapper.disposed (Wrapper.run window s) = true
      \/ Wrapper.innertubePromise (Wrapper.run window s) = Some p)
  /\ Forall (eq p) (Wrapper.answers window s).
Proof.
  revert s. induction window as [| e window IH]; intros s Hp Hk Hq.
  - split_ands; first [reflexivity | exact Hk | constructor].
  - cbn [forallb] in Hq. apply andb_prop in Hq as [He Hq].
    apply negb_true_iff in He.
    change (Wrapper.run (e :: window) s)
      with (Wrapper.run window (Wrapper.step e s)).
    destruct (wrapper_quiet_cached p e s Hp Hk He) as (Hp' & Hk' & Ht & Hc & Ha).
    destruct (IH (Wrapper.step e s) Hp' Hk' Hq) as (Ht' & Hc' & Hk'' & Hall).
    rewrite Ht', Hc', Ht, Hc.
    split_ands; try reflexivity; [exact Hk'' |].
    destruct e; cbn [Wrapper.answers]; try exact Hall.
    destruct (fst (Wrapper.getInnertube s)) as [a | err | err] eqn:Hg;
      try exact Hall.
    constructor; [| exact Hall]. symmetry. now apply Ha.
Qed.

Lemma wrapper_quiet_fresh_run (window : list Wrapper.event) (s : Wrapper.state) :
  EventLoop.pending (Wrapper.loop s) = ∅ ->
  Wrapper.disposed s = false ->
  Wrapper.innertubePromise s = None ->
  Wrapper.tasks s = ∅ ->
  forallb (fun e => negb (Wrapper.settles e)) window = true ->
  (Wrapper.answers window s = []
   /\ Wrapper.tasks (Wrapper.run window s) = ∅
   /\ Wrapper.constructions (Wrapper.run window s) = Wrapper.constructions s)
  \/ (exists q,
        Wrapper.answers window s <> []
        /\ Forall (eq q) (Wrapper.answers window s)
        /\ Wrapper.tasks (Wrapper.run window s) = {[q := Wrapper.AwaitToken]}
        /\ (Wrapper.disposed (Wrapper.run window s) = true
            \/ Wrapper.innertubePromise (Wrapper.run window s) = Some q)
        /\ Wrapper.constructions (Wrapper.run window s)
           = S (Wrapper.constructions s)).
Proof.
  revert s. induction window as [| e window IH]; intros s Hp Hd Hi Ht Hq.
  - left. split_ands; first [reflexivity | assumption].
  - cbn [forallb] in Hq. apply andb_prop in Hq as [He Hq].
    apply negb_true_iff in He.
    change (Wrapper.run (e :: window) s)
      with (Wrapper.run window (Wrapper.step e s)).
    destruct e as [| ident | loc | | | q r | q r | h]; cbn in He; try discriminate;
      cbn [Wrapper.answers Wrapper.step].
    + right. unfold Wrapper.getInnertube. rewrite Hd.
      unfold Wrapper.initInnertubePromise. rewrite Hi.
      pose proof (initInnertube_fields s Ht Hp) as Hn.
      destruct (Wrapper.initInnertube s) as [q s1].
      destruct Hn as (Hd1 & _ & Ht1 & Hp1 & Hc1). cbn [fst snd].
      destruct (wrapper_quiet_cached_run q window
                  (Wrapper.set_innertubePromise (Some q) s1)
                  Hp1 (or_intror eq_refl) Hq)
        as (Ht2 & Hc2 & Hk2 & Hall).
      exists q. rewrite Ht2, Hc2. split_ands.
      * discriminate.
      * now constructor.
      * exact Ht1.
      * exact Hk2.
      * exact Hc1.
    + now apply IH.
    + unfold Wrapper.setLocale. rewrite Hd.
      destruct (applyLocale_live (Wrapper.set_locale loc s) Hd)
        as (s1 & -> & Hl & Ht1 & _ & _ & Hd1 & Hi1 & Hn & _).
      cbn [snd]. unfold_setters.
      rewrite <- Hn. apply IH; try assumption; congruence.
    + left. destruct (dispose_fields s Hd) as (D1 & D2 & D3 & D4). cbn zeta in *.
      assert (Hp1 : EventLoop.pending (Wrapper.loop (Wrapper.dispose s)) = ∅)
        by (rewrite D4; now apply clearPoTokenRefreshTimer_idle).
      destruct (wrapper_quiet_cached_run 0 window (Wrapper.dispose s) Hp1
                  (or_introl D1) Hq) as (Ht2 & Hc2 & _ & _).
      rewrite Ht2, Hc2, D2, D3. split_ands.
      * now apply wrapper_answers_disposed.
      * exact Ht.
      * reflexivity.
    + exact (IH (Wrapper.service_gone s) Hp Hd Hi Ht Hq).
    + rewrite Hp, lookup_empty.
      destruct (decide (is_Some None)) as [[x Hx] | _]; [discriminate |].
      now apply IH.
Qed.

Lemma wrapper_unresolved_shape (s : Wrapper.state) :
  wrapper_shape s -> Wrapper.unresolved s = true ->
  EventLoop.pending (Wrapper.loop s) = ∅
  /\ (Wrapper.disposed s = true
      \/ (Wrapper.disposed s = false /\ Wrapper.innertubePromise s = None
          /\ Wrapper.tasks s = ∅)
      \/ exists p st, Wrapper.innertubePromise s = Some p
                      /\ Wrapper.tasks s = {[p := st]}).
Proof.
  unfold Wrapper.unresolved.
  intros [H1 H2 H3 H4 | q st H1 H2 H3 H4 | q h ms H1 H2 H3 H4 H5
         | q H1 H2 H3 H4 | H1 H3 H4 | q st H1 H3 H4] Hu;
    rewrite ?H2 in Hu;
    try (apply bool_decide_eq_true in Hu; rewrite H3, lookup_empty in Hu;
         destruct Hu; discriminate);
    (split; [assumption |]).
  - right. left. now repeat split.
  - right. right. now exists q, st.
  - now left.
  - now left.
Qed.

(** C5.  Take any state the service (the wrapper) can be in where no
    creation has resolved for what is cached: nothing is cached, or the
    cached promise is that of a creation in flight.  Then let anything happen
    except the settling of what a creation awaits ([window]: calls, timers
    firing, for the wrapper also [setLocale] and [dispose]).  Over the
    window at most one exchange (construction) is started, none when one was
    already in flight, and exactly one when nothing was cached and a caller
    was answered.  Every caller answered in the window holds the same
    promise; it is the one written to the slot by the step that started the
    creation, and its creation is still in flight at the end of the window. *)
Theorem single_flight
    (evs window : list Service.event)
    (acct : option Wrapper.AccountConfig) (loc : Wrapper.Locale)
    (svc : Spawn.SpawnedInnertubeSupportService)
    (wevs wwindow : list Wrapper.event) :
  let s := Service.run evs Service.minting0 in
  let w := Wrapper.run wevs (Wrapper.fresh acct loc svc) in
  Service.unresolved s = true ->
  forallb (fun e => negb (Service.settles e)) window = true ->
  Wrapper.unresolved w = true ->
  forallb (fun e => negb (Wrapper.settles e)) wwindow = true ->
  let s' := Service.run window s in
  let w' := Wrapper.run wwindow w in
  ((Service.exchanges s' <= S (Service.exchanges s))%nat
   /\ (Service.minterPromise s <> None ->
       Service.exchanges s' = Service.exchanges s)
   /\ (Service.answers window s <> [] -> Service.minterPromise s = None ->
       Service.exchanges s' = S (Service.exchanges s))
   /\ (forall a b, In a (Service.answers window s) ->
                   In b (Service.answers window s) -> a = b)
   /\ (forall a, In a (Service.answers window s) ->
                 Service.minterPromise s' = Some a /\ a ∈ Service.creating s'))
  /\
  ((Wrapper.constructions w' <= S (Wrapper.constructions w))%nat
   /\ (Wrapper.innertubePromise w <> None ->
       Wrapper.constructions w' = Wrapper.constructions w)
   /\ (Wrapper.answers wwindow w <> [] -> Wrapper.innertubePromise w = None ->
       Wrapper.constructions w' = S (Wrapper.constructions w))
   /\ (forall a b, In a (Wrapper.answers wwindow w) ->
                   In b (Wrapper.answers wwindow w) -> a = b)
   /\ (forall a, In a (Wrapper.answers wwindow w) ->
                 is_Some (Wrapper.tasks w' !! a)
                 /\ (Wrapper.disposed w' = true
                     \/ Wrapper.innertubePromise w' = Some a))).
Proof.
  intros s w Hu Hq Hwu Hwq s' w'. subst s' w'. split.
  - assert (Hs : minting_shape s) by (apply run_shape, minting0_shape).
    destruct (unresolved_shape s Hs Hu) as (Hp & [[Hm Hc] | (p & Hm & Hc)]).
    + destruct (service_quiet_idle_run window s Hp Hm Hc Hq)
        as [(A1 & A2) | (q & A1 & A2 & A3 & A4 & A5)].
      * rewrite A1, A2. split_ands.
        -- lia.
        -- reflexivity.
        -- congruence.
        -- intros a b [].
        -- intros a [].
      * rewrite A5. pose proof (proj1 (List.Forall_forall _ _) A2) as Hall.
        split_ands.
        -- lia.
        -- congruence.
        -- reflexivity.
        -- intros a b Ha Hb. rewrite <- (Hall a Ha), <- (Hall b Hb). reflexivity.
        -- intros a Ha. rewrite <- (Hall a Ha), A3, A4.
           split; [reflexivity | now apply elem_of_singleton].
    + destruct (service_quiet_cached_run p window s Hp Hm Hq) as [A1 A2].
      rewrite A1. pose proof (proj1 (List.Forall_forall _ _) A2) as Hall.
      split_ands.
      * lia.
      * reflexivity.
      * congruence.
      * intros a b Ha Hb. rewrite <- (Hall a Ha), <- (Hall b Hb). reflexivity.
      * intros a Ha. rewrite <- (Hall a Ha), Hm, Hc.
        split; [reflexivity | now apply elem_of_singleton].
  - assert (Hs : wrapper_shape w) by (apply wrapper_run_shape, fresh_shape).
    destruct (wrapper_unresolved_shape w Hs Hwu)
      as (Hp & [Hd | [(Hd & Hi & Ht) | (p & st & Hi & Ht)]]).
    + destruct (wrapper_quiet_cached_run 0 wwindow w Hp (or_introl Hd) Hwq)
        as (_ & A2 & _ & _).
      rewrite A2, (wrapper_answers_disposed wwindow w Hd). split_ands.
      * lia.
      * reflexivity.
      * congruence.
      * intros a b [].
      * intros a [].
    + destruct (wrapper_quiet_fresh_run wwindow w Hp Hd Hi Ht Hwq)
        as [(A1 & A2 & A3) | (q & A1 & A2 & A3 & A4 & A5)].
      * rewrite A1, A3. split_ands.
        -- lia.
        -- reflexivity.
        -- congruence.
        -- intros a b [].
        -- intros a [].
      * rewrite A5. pose proof (proj1 (List.Forall_forall _ _) A2) as Hall.
        split_ands.
        -- lia.
        -- congruence.
        -- reflexivity.
        -- intros a b Ha Hb. rewrite <- (Hall a Ha), <- (Hall b Hb). reflexivity.
        -- intros a Ha. rewrite <- (Hall a Ha), A3, lookup_singleton_eq.
           split; [now eexists | exact A4].
    + destruct (wrapper_quiet_cached_run p wwindow w Hp (or_intror Hi) Hwq)
        as (A1 & A2 & A3 & A4).
      rewrite A2. pose proof (proj1 (List.Forall_forall _ _) A4) as Hall.
      split_ands.
      * lia.
      * reflexivity.
      * congruence.
      * intros a b Ha Hb. rewrite <- (Hall a Ha), <- (Hall b Hb). reflexivity.
      * intros a Ha. rewrite <- (Hall a Ha), A1, Ht, lookup_singleton_eq.
        split; [now eexists | exact A3].
Qed.

Lemma single_flight_witness :
  Service.exchanges
    (Service.run
       [Service.PotRequest; Service.PotRequest; Service.TimerFired 0;
        Service.PotRequest]
       Service.minting0) = 1%nat
  /\ Wrapper.constructions
       (Wrapper.run
          [Wrapper.GetInnertube; Wrapper.SetLocale Sample.locale;
           Wrapper.GetInnertube]
          (Wrapper.fresh None Sample.locale Sample.spawned)) = 1%nat.
Proof.
  destruct (single_flight []
              [Service.PotRequest; Service.PotRequest; Service.TimerFired 0;
               Service.PotRequest]
              None Sample.locale Sample.spawned []
              [Wrapper.GetInnertube; Wrapper.SetLocale Sample.locale;
               Wrapper.GetInnertube]
              eq_refl eq_refl eq_refl eq_refl)
    as ((_ & _ & H & _) & (_ & _ & H' & _)).
  split; [apply H | apply H']; first [reflexivity | vm_compute; discriminate].
Defined.

(** * Further properties *)

(** ** The Deno probe *)

Lemma ask_cached (trim : string -> string) (execs : list (string + string))
    (c : Utils.probe_cache) (d : Spawn.DenoInstallStatus) :
  Utils.denoInstalled c = Some d ->
  Utils.ask trim execs c = (repeat d (length execs), c).
Proof.
  intros Hc. induction execs as [| exec execs IH]; [reflexivity |].
  cbn [Utils.ask length repeat]. unfold Utils.isDenoInstalled. rewrite Hc.
  now rewrite IH.
Qed.

(** X1.  Whatever the version command would give at each later call, every
    call of [isDenoInstalled] answers what the first call found, a failure
    included, and the command is run once. *)
Theorem deno_probe_runs_once (trim : string -> string) (first : string + string)
    (later : list (string + string)) :
  Utils.ask trim (first :: later) Utils.no_probe
  = (repeat (Utils.probe_status trim first) (S (length later)),
     Utils.mkCache (Some (Utils.probe_status trim first)) 1).
Proof.
  cbn [Utils.ask]. unfold Utils.isDenoInstalled at 1.
  cbn [Utils.denoInstalled Utils.no_probe Utils.probes].
  now rewrite (ask_cached trim later
                 (Utils.mkCache (Some (Utils.probe_status trim first)) 1)
                 (Utils.probe_status trim first) eq_refl).
Qed.

Lemma first_line_prefix (s : string) : String.prefix (Utils.first_line s) s = true.
Proof.
  induction s as [| c rest IH]; [reflexivity |].
  cbn [Utils.first_line].
  destruct (Ascii.eqb c "010"); [reflexivity |].
  assert (Hkeep : String.prefix (String c (Utils.first_line rest)) (String c rest) = true).
  { cbn [String.prefix]. destruct (ascii_dec c c) as [_ | N]; [exact IH | congruence]. }
  destruct (Ascii.eqb c "013"); [| exact Hkeep].
  destruct rest as [| c' rest'].
  - cbn [String.prefix]. destruct (ascii_dec c c) as [_ | N]; [reflexivity | congruence].
  - destruct (Ascii.eqb c' "010"); [reflexivity | exact Hkeep].
Qed.

Lemma first_line_no_line_feed (s : string) :
  Utils.has_line_feed (Utils.first_line s) = false.
Proof.
  induction s as [| c rest IH]; [reflexivity |].
  cbn [Utils.first_line].
  destruct (Ascii.eqb c "010") eqn:Hlf; [reflexivity |].
  assert (Hkeep : Utils.has_line_feed (String c (Utils.first_line rest)) = false)
    by (cbn [Utils.has_line_feed]; now rewrite Hlf, IH).
  destruct (Ascii.eqb c "013"); [| exact Hkeep].
  destruct rest as [| c' rest'].
  - cbn [Utils.has_line_feed]. now rewrite Hlf.
  - destruct (Ascii.eqb c' "010"); [reflexivity | exact Hkeep].
Qed.

Lemma first_line_whole (s : string) :
  Utils.has_line_feed s = false -> Utils.first_line s = s.
Proof.
  induction s as [| c rest IH]; [reflexivity |].
  cbn [Utils.has_line_feed Utils.first_line]. intros H.
  apply orb_false_iff in H as [Hc Hrest]. rewrite Hc.
  specialize (IH Hrest).
  destruct (Ascii.eqb c "013"); [| now rewrite IH].
  destruct rest as [| c' rest']; [reflexivity |].
  cbn [Utils.has_line_feed] in Hrest. apply orb_false_iff in Hrest as [Hc' _].
  rewrite Hc'. now rewrite IH.
Qed.

Lemma eqb_false_neq (c d : ascii) : Ascii.eqb c d = false -> c <> d.
Proof. intros H ->. now rewrite Ascii.eqb_refl in H. Qed.

Lemma ends_with_cr_cons (c : ascii) (s : string) :
  s <> EmptyString -> Utils.ends_with_cr (String c s) = Utils.ends_with_cr s.
Proof. destruct s; [congruence | reflexivity]. Qed.

(** A text without line feed that ends with no carriage return, extended
    at the front. *)
Lemma line_break_follows_cons (c : ascii) (v t : string) :
  (v = EmptyString -> forall r, t = String "010" r -> Ascii.eqb c "013" = false) ->
  Utils.line_break_follows v t -> Utils.line_break_follows (String c v) t.
Proof.
  intros Hc [-> | [(r & ->) | (r & -> & He)]].
  - now left.
  - right. left. now exists r.
  - right. right. exists r. split; [reflexivity |].
    destruct v as [| c' v']; [cbn; now apply (Hc eq_refl r) |].
    rewrite ends_with_cr_cons by discriminate. exact He.
Qed.

Lemma first_line_break (s : string) :
  exists t, s = Utils.first_line s +:+ t
            /\ Utils.line_break_follows (Utils.first_line s) t.
Proof.
  induction s as [| c rest (t & Ht & Hb)].
  - exists EmptyString. split; [reflexivity | now left].
  - cbn [Utils.first_line].
    destruct (Ascii.eqb c "010") eqn:Hlf.
    { apply Ascii.eqb_eq in Hlf. subst c. exists (String "010" rest).
      split; [reflexivity |]. right. right. now exists rest. }
    assert (Hkeep : forall Hcr : (rest <> EmptyString ->
                                  forall c' r', rest = String c' r' ->
                                  Ascii.eqb c "013" = true -> Ascii.eqb c' "010" = false),
              exists t', String c rest = String c (Utils.first_line rest) +:+ t'
                         /\ Utils.line_break_follows (String c (Utils.first_line rest)) t').
    { intros Hcr. exists t. split.
      - change (String c (Utils.first_line rest) +:+ t)
          with (String c (Utils.first_line rest +:+ t)). now rewrite <- Ht.
      - apply line_break_follows_cons; [| exact Hb].
        intros Hv r Hr. rewrite Hv, Hr in Ht.
        change (EmptyString +:+ String "010" r) with (String "010" r) in Ht.
        destruct (Ascii.eqb c "013") eqn:Hc; [| reflexivity].
        assert (Hne : rest <> EmptyString) by (rewrite Ht; discriminate).
        pose proof (Hcr Hne "010"%char r Ht eq_refl) as Habs. cbn in Habs.
        discriminate. }
    destruct (Ascii.eqb c "013") eqn:Hcr.
    + destruct rest as [| c' rest'].
      * exists EmptyString. split; [reflexivity | now left].
      * destruct (Ascii.eqb c' "010") eqn:Hc'.
        -- apply Ascii.eqb_eq in Hcr, Hc'. subst c c'.
           exists (String "013" (String "010" rest')).
           split; [reflexivity |]. right. left. now exists rest'.
        -- apply Hkeep. intros _ c'' r'' [= <- <-] _. exact Hc'.
    + apply Hkeep. intros _ c' r' _ H. discriminate.
Qed.

Lemma no_line_feed_head (v t : string) (c : ascii) (r : string) :
  Utils.has_line_feed v = false -> v +:+ t = String c r ->
  (v = EmptyString /\ t = String c r)
  \/ (exists v', v = String c v' /\ Ascii.eqb c "010" = false
                 /\ Utils.has_line_feed v' = false /\ v' +:+ t = r).
Proof.
  intros Hv H. destruct v as [| c0 v'].
  - left. now split.
  - right. change (String c0 v' +:+ t) with (String c0 (v' +:+ t)) in H.
    injection H as -> H. cbn [Utils.has_line_feed] in Hv.
    apply orb_false_iff in Hv as [Hc Hv']. now exists v'.
Qed.

Lemma first_line_unique (s v t : string) :
  s = v +:+ t -> Utils.has_line_feed v = false -> Utils.line_break_follows v t ->
  v = Utils.first_line s.
Proof.
  revert v t. induction s as [| c rest IH]; intros v t Hs Hv Hb.
  - destruct v; [reflexivity | discriminate].
  - symmetry in Hs.
    destruct (no_line_feed_head v t c rest Hv Hs)
      as [[-> ->] | (v' & -> & Hc & Hv' & Hrest)].
    + cbn [Utils.first_line].
      destruct Hb as [Hb | [(r & Hb) | (r & Hb & _)]]; try discriminate.
      * injection Hb as -> ->. reflexivity.
      * injection Hb as -> ->. reflexivity.
    + cbn [Utils.first_line]. rewrite Hc.
      assert (Hb' : rest <> EmptyString ->
                    (forall r, rest = String "010" r -> v' = EmptyString -> False) ->
                    Utils.line_break_follows v' t).
      { intros _ Hno. destruct Hb as [-> | [(r & ->) | (r & -> & He)]].
        - now left.
        - right. left. now exists r.
        - right. right. exists r. split; [reflexivity |].
          destruct v' as [| c' v'']; [reflexivity |].
          now rewrite ends_with_cr_cons in He by discriminate. }
      destruct (Ascii.eqb c "013") eqn:Hcr.
      * destruct rest as [| c' rest'].
        -- destruct v'; [reflexivity | discriminate].
        -- destruct (Ascii.eqb c' "010") eqn:Hc'.
           ++ exfalso. apply Ascii.eqb_eq in Hc'. subst c'.
              destruct v' as [| c'' v''].
              ** change (EmptyString +:+ t) with t in Hrest. subst t.
                 destruct Hb as [Hb | [(r & Hb) | (r & _ & He)]]; try discriminate.
                 cbn in He. congruence.
              ** change (String c'' v'' +:+ t) with (String c'' (v'' +:+ t)) in Hrest.
                 injection Hrest as -> _. cbn in Hv'. discriminate.
           ++ f_equal. apply (IH v' t); [now symmetry | exact Hv' |].
              apply Hb'; [discriminate |].
              intros r [= -> _] _. cbn in Hc'. discriminate.
      * f_equal. destruct rest as [| c' rest'].
        -- destruct v'; [reflexivity | discriminate].
        -- apply (IH v' t); [now symmetry | exact Hv' |].
           destruct Hb as [-> | [(r & ->) | (r & -> & He)]].
           ++ now left.
           ++ right. left. now exists r.
           ++ right. right. exists r. split; [reflexivity |].
              destruct v' as [| c'' v'']; [reflexivity |].
              now rewrite ends_with_cr_cons in He by discriminate.
Qed.

(** X2.  The version an installed Deno is reported with is the first line
    of the trimmed output of the version command: the trimmed output is the
    version followed by nothing or by a line break (a line feed, or a
    carriage return and a line feed), the version holds no line feed, and
    it is the only text of which this is true. *)
Theorem deno_version_is_first_line (trim : string -> string) (output : string) :
  exists version rest,
    Utils.probe_status trim (inr output) = Spawn.Installed version
    /\ trim output = version +:+ rest
    /\ Utils.has_line_feed version = false
    /\ Utils.line_break_follows version rest
    /\ (forall v t,
          trim output = v +:+ t -> Utils.has_line_feed v = false ->
          Utils.line_break_follows v t -> v = version).
Proof.
  destruct (first_line_break (trim output)) as (t & Ht & Hb).
  exists (Utils.first_line (trim output)), t.
  split; [reflexivity |]. split; [exact Ht |].
  split; [apply first_line_no_line_feed |]. split; [exact Hb |].
  intros v t'. apply first_line_unique.
Qed.

(** ** The active account *)

Lemma find_first {A : Type} (f : A -> bool) (l : list A) (x : A) :
  List.find f l = Some x ->
  exists pre post, l = pre ++ x :: post /\ f x = true
                   /\ (forall y, In y pre -> f y = false).
Proof.
  induction l as [| a l IH]; cbn [List.find]; [discriminate |].
  destruct (f a) eqn:Ha.
  - intros [= ->]. exists [], l. repeat split; [exact Ha | intros y []].
  - intros H. destruct (IH H) as (pre & post & -> & Hx & Hpre).
    exists (a :: pre), post. repeat split; [exact Hx |].
    intros y [<- | Hy]; [exact Ha | now apply Hpre].
Qed.

Lemma enabled_In (info : list Utils.Account) (ac : Utils.Account) :
  In ac (Utils.enabled info) <-> In ac info /\ Utils.is_disabled ac = false.
Proof.
  unfold Utils.enabled. rewrite filter_In. rewrite negb_true_iff. reflexivity.
Qed.

(** X3.  [getActiveAccountDatasyncIdToken] answers that there is no active
    account when the session is not logged in (without asking for the
    accounts' tokens), or when no enabled account is selected and none has
    the requested handle.  Otherwise the identifiers come from one enabled
    account of the list: the one with the requested handle when there is
    one, whether it is selected or not; else a selected one, with a warning
    when a handle was requested. A disabled account is never used. *)
Theorem active_account_choice (logged_in : bool) (info : list Utils.Account)
    (activeChannelHandle : option string) :
  match Utils.getActiveAccountDatasyncIdToken logged_in info activeChannelHandle with
  | (Utils.NoActiveAccount, warnings) =>
      (logged_in = false /\ warnings = [])
      \/ (logged_in = true
          /\ forall ac, In ac info -> Utils.is_disabled ac = false ->
               Utils.is_selected ac = false
               /\ (forall h, Text.truthy activeChannelHandle = Some h ->
                     Utils.channel_handle ac <> h))
  | (Utils.ActiveAccount datasync page, warnings) =>
      logged_in = true
      /\ exists t,
           In t info /\ Utils.is_disabled t = false
           /\ Utils.scan_tokens (Utils.supportedTokens t) = (page, datasync)
           /\ match Text.truthy activeChannelHandle with
              | Some h =>
                  (Utils.channel_handle t = h /\ warnings = [])
                  \/ (Utils.is_selected t = true
                      /\ warnings = [Utils.no_accounts_warning h]
                      /\ forall ac, In ac info -> Utils.is_disabled ac = false ->
                           Utils.channel_handle ac <> h)
              | None => Utils.is_selected t = true /\ warnings = []
              end
  end.
Proof.
  unfold Utils.getActiveAccountDatasyncIdToken.
  destruct logged_in; [| left; now split].
  unfold Utils.target_account.
  assert (Hsel : forall t, List.find Utils.is_selected (Utils.enabled info) = Some t ->
                   In t info /\ Utils.is_disabled t = false /\ Utils.is_selected t = true).
  { intros t Ht. apply find_some in Ht as [Hin Hs].
    apply enabled_In in Hin as [Hin Hen]. now repeat split. }
  assert (Hnosel : List.find Utils.is_selected (Utils.enabled info) = None ->
                   forall ac, In ac info -> Utils.is_disabled ac = false ->
                     Utils.is_selected ac = false).
  { intros Hn ac Hin Hen. apply (find_none _ _ Hn). now apply enabled_In. }
  assert (Hnoh : forall h, List.find (Utils.has_handle h) (Utils.enabled info) = None ->
                   forall ac, In ac info -> Utils.is_disabled ac = false ->
                     Utils.channel_handle ac <> h).
  { intros h Hn ac Hin Hen Heq.
    assert (Hf : Utils.has_handle h ac = false)
      by (apply (find_none _ _ Hn); now apply enabled_In).
    unfold Utils.has_handle in Hf. apply String.eqb_neq in Hf. contradiction. }
  destruct (Text.truthy activeChannelHandle) as [h |] eqn:Hh.
  - destruct (List.find (Utils.has_handle h) (Utils.enabled info)) as [t |] eqn:Hfind.
    + destruct (Utils.scan_tokens (Utils.supportedTokens t)) as [page datasync] eqn:Hscan.
      split; [reflexivity |]. exists t.
      apply find_some in Hfind as [Hin Hhas]. apply enabled_In in Hin as [Hin Hen].
      unfold Utils.has_handle in Hhas. apply String.eqb_eq in Hhas.
      repeat split; try assumption. left. now split.
    + destruct (List.find Utils.is_selected (Utils.enabled info)) as [t |] eqn:Hact.
      * destruct (Utils.scan_tokens (Utils.supportedTokens t)) as [page datasync] eqn:Hscan.
        split; [reflexivity |]. exists t.
        destruct (Hsel t eq_refl) as (Hin & Hen & Hs).
        repeat split; try assumption. right. repeat split; try assumption.
        now apply Hnoh.
      * right. split; [reflexivity |]. intros ac Hin Hen.
        split; [now apply Hnosel |]. intros h' [= <-]. now apply (Hnoh h).
  - destruct (List.find Utils.is_selected (Utils.enabled info)) as [t |] eqn:Hact.
    + destruct (Utils.scan_tokens (Utils.supportedTokens t)) as [page datasync] eqn:Hscan.
      split; [reflexivity |]. exists t.
      destruct (Hsel t eq_refl) as (Hin & Hen & Hs). now repeat split.
    + right. split; [reflexivity |]. intros ac Hin Hen.
      split; [now apply Hnosel | discriminate].
Qed.

(** The handle wins over the selection: in list order, the first enabled
    account with the requested handle is the one used. *)
Lemma target_account_first_with_handle (info : list Utils.Account) (h : string)
    (activeChannelHandle : option string) (t : Utils.Account) :
  Text.truthy activeChannelHandle = Some h ->
  List.find (Utils.has_handle h) (Utils.enabled info) = Some t ->
  Utils.target_account info activeChannelHandle = (Some t, []).
Proof. intros Hh Hf. unfold Utils.target_account. now rewrite Hh, Hf. Qed.

Section LastWins.

Context {A B : Type} (f : A -> option B).

Lemma keep_last_spec (l : list A) (v : B) :
  fold_left (keep_last f) l None = Some v
  <-> exists pre x post,
        l = pre ++ x :: post /\ f x = Some v
        /\ Forall (fun y => f y = None) post.
Proof.
  induction l as [| x l IH] using rev_ind.
  - split; [discriminate |]. intros (pre & x & post & H & _).
    destruct pre; discriminate.
  - rewrite fold_left_app. cbn [fold_left]. unfold keep_last at 1.
    destruct (f x) as [w |] eqn:Hx.
    + split.
      * intros [= ->]. exists l, x, []. repeat split; [exact Hx | constructor].
      * intros (pre & y & post & H & Hy & Hpost).
        destruct post as [| z post] using rev_ind.
        -- apply app_inj_tail in H as [_ <-]. congruence.
        -- clear IHpost. rewrite app_comm_cons, app_assoc in H.
           apply app_inj_tail in H as [_ <-].
           apply Forall_app in Hpost as [_ Hz].
           inversion Hz as [| ? ? Hzx _]. congruence.
    + rewrite IH. split.
      * intros (pre & y & post & -> & Hy & Hpost).
        exists pre, y, (post ++ [x]). rewrite <- app_assoc. repeat split; try assumption.
        apply Forall_app. split; [exact Hpost | now constructor].
      * intros (pre & y & post & H & Hy & Hpost).
        destruct post as [| z post] using rev_ind.
        -- apply app_inj_tail in H as [_ <-]. congruence.
        -- clear IHpost. rewrite app_comm_cons, app_assoc in H.
           apply app_inj_tail in H as [-> <-].
           apply Forall_app in Hpost as [Hpost _].
           now exists pre, y, post.
Qed.

End LastWins.

Lemma scan_tokens_fold (ts : list Utils.SupportedToken)
    (found : option string * option string) :
  fold_left Utils.scan_token ts found
  = (fold_left (keep_last Utils.page_of) ts (fst found),
     fold_left (keep_last Utils.datasync_of) ts (snd found)).
Proof.
  revert found. induction ts as [| t ts IH]; intros [p d]; [reflexivity |].
  cbn [fold_left]. rewrite IH. f_equal; f_equal;
    unfold Utils.scan_token, keep_last, Utils.datasync_of, Utils.page_of;
    destruct (Utils.pageIdToken t) as [[v |] |];
    destruct (Utils.datasyncIdToken t) as [[w |] |]; reflexivity.
Qed.

(** X4.  Over the [supportedTokens] of the account, the later entry wins:
    the page id found is that of the last entry that carries one, and the
    datasync id that of the last entry that carries one and carries no page
    id (an entry with a page id never gives its datasync id). *)
Theorem tokens_last_entry_wins (ts : list Utils.SupportedToken) (v : string) :
  (fst (Utils.scan_tokens (Some ts)) = Some v
   <-> exists pre t post,
         ts = pre ++ t :: post /\ Utils.page_of t = Some v
         /\ Forall (fun u => Utils.page_of u = None) post)
  /\ (snd (Utils.scan_tokens (Some ts)) = Some v
      <-> exists pre t post,
            ts = pre ++ t :: post /\ Utils.datasync_of t = Some v
            /\ Forall (fun u => Utils.datasync_of u = None) post).
Proof.
  unfold Utils.scan_tokens. rewrite scan_tokens_fold. cbn [fst snd].
  split; apply keep_last_spec.
Qed.

(** ** The spawn, further *)

Lemma prefix_split (p s : string) :
  String.prefix p s = true -> exists rest, s = p +:+ rest.
Proof.
  revert s. induction p as [| c p IH]; intros s H.
  - exists s. reflexivity.
  - destruct s as [| c' s]; cbn [String.prefix] in H; [discriminate |].
    destruct (ascii_dec c c') as [<- | N]; [| discriminate].
    destruct (IH s H) as [rest ->]. exists rest. reflexivity.
Qed.

Section SpawnFurther.

Variable JSON_parse : string -> string + Service.InnertubeSupportServiceStatus.

Local Abbreviation step := (Spawn.step JSON_parse).
Local Abbreviation run := (Spawn.run JSON_parse).

Lemma spawn_run_app (pre post : list Spawn.event) (s : Spawn.state) :
  run (pre ++ post) s = run post (run pre s).
Proof. unfold Spawn.run. apply fold_left_app. Qed.

Lemma spawn_step_settled (e : Spawn.event) (s : Spawn.state)
    (v : settled Spawn.SpawnedInnertubeSupportService) :
  Spawn.promise s = Some v -> Spawn.promise (step e s) = Some v.
Proof.
  intros H. destruct e as [chunk | chunk | line | code |]; cbn; try exact H.
  - unfold Spawn.on_line. destruct (String.prefix _ _); [| exact H].
    destruct (JSON_parse _); cbn; unfold Spawn.settle; now rewrite H.
  - rewrite H. destruct v; [| exact H].
    unfold Spawn.stop. destruct (Spawn.pid s); exact H.
Qed.

Lemma spawn_run_settled (evs : list Spawn.event) (s : Spawn.state)
    (v : settled Spawn.SpawnedInnertubeSupportService) :
  Spawn.promise s = Some v -> Spawn.promise (run evs s) = Some v.
Proof.
  revert s. induction evs as [| e evs IH]; intros s H; cbn; [exact H |].
  apply IH. now apply spawn_step_settled.
Qed.

Lemma spawn_step_used (e : Spawn.event) (s : Spawn.state) :
  Spawn.used (step e s) = Spawn.used s.
Proof.
  destruct e as [chunk | chunk | line | code |]; cbn; try reflexivity.
  - unfold Spawn.on_line. destruct (String.prefix _ _); [| reflexivity].
    destruct (JSON_parse _); reflexivity.
  - destruct (Spawn.promise s) as [[v | err] |]; try reflexivity.
    unfold Spawn.stop. destruct (Spawn.pid s); reflexivity.
Qed.

Lemma spawn_run_used (evs : list Spawn.event) (s : Spawn.state) :
  Spawn.used (run evs s) = Spawn.used s.
Proof.
  revert s. induction evs as [| e evs IH]; intros s; cbn; [reflexivity |].
  unfold Spawn.run in IH. now rewrite IH, spawn_step_used.
Qed.

Lemma spawn_step_keeps_pid (e : Spawn.event) (s : Spawn.state) :
  Spawn.pid (step e s) = Spawn.pid s.
Proof.
  destruct e as [chunk | chunk | line | code |]; cbn; try reflexivity.
  - unfold Spawn.on_line. destruct (String.prefix _ _); [| reflexivity].
    destruct (JSON_parse _); reflexivity.
  - destruct (Spawn.promise s) as [[v | err] |]; try reflexivity.
    unfold Spawn.stop. destruct (Spawn.pid s); reflexivity.
Qed.

Lemma spawn_run_keeps_pid (evs : list Spawn.event) (s : Spawn.state) :
  Spawn.pid (run evs s) = Spawn.pid s.
Proof.
  revert s. induction evs as [| e evs IH]; intros s; cbn; [reflexivity |].
  unfold Spawn.run in IH. now rewrite IH, spawn_step_keeps_pid.
Qed.

Lemma ready_line_settles (rest : string) (s : Spawn.state) :
  Spawn.promise s = None ->
  Spawn.promise (step (Spawn.Line (Spawn.result_prefix +:+ rest)) s)
  = Some match JSON_parse rest with
         | inr parsed =>
             Fulfilled {| Spawn.payload := parsed;
                          Spawn.runtime_used := Spawn.used s |}
         | inl msg => Rejected ("Failed to parse service result: " +:+ msg)
         end.
Proof.
  intros Hp. cbn [Spawn.step]. unfold Spawn.on_line.
  rewrite prefix_append, substring_append.
  destruct (JSON_parse rest); cbn; unfold Spawn.settle; now rewrite Hp.
Qed.

(** X5.  The promise of the spawn is settled once, by the first line that
    starts with [result: ]: whatever the subprocess prints or does after
    that line (further such lines included), the promise keeps the value
    that line gave it.  A resolved value names the runtime the probe chose:
    [deno] when Deno was found installed, [node] otherwise. *)
Theorem spawn_first_ready_line_decides (d : Spawn.DenoInstallStatus)
    (proc_pid : option nat) (pre post : list Spawn.event) (rest : string) :
  forallb (fun e => negb (Spawn.is_ready_line e)) pre = true ->
  Spawn.promise
    (run (pre ++ Spawn.Line (Spawn.result_prefix +:+ rest) :: post)
       (Spawn.spawnInnertubeSupportService d proc_pid))
  = Some match JSON_parse rest with
         | inr parsed =>
             Fulfilled {| Spawn.payload := parsed;
                          Spawn.runtime_used :=
                            match d with
                            | Spawn.Installed _ => Spawn.deno
                            | Spawn.NotInstalled _ => Spawn.node
                            end |}
         | inl msg => Rejected ("Failed to parse service result: " +:+ msg)
         end.
Proof.
  intros Hpre. rewrite spawn_run_app.
  change (run (?e :: post) ?s) with (run post (step e s)).
  apply spawn_run_settled.
  destruct (spawn_initially_pending d proc_pid) as (Hp0 & _).
  destruct (spawn_run_pending JSON_parse pre _ Hp0 Hpre) as [Hp _].
  rewrite (ready_line_settles rest _ Hp), spawn_run_used.
  now destruct d.
Qed.

Lemma spawn_step_signals (e : Spawn.event) (s : Spawn.state) (sig : Spawn.signal) :
  In sig (Spawn.signals (step e s)) ->
  In sig (Spawn.signals s)
  \/ (sig = Spawn.ProcKill
      /\ exists rest msg,
           e = Spawn.Line (Spawn.result_prefix +:+ rest)
           /\ JSON_parse rest = inl msg)
  \/ (exists p v, sig = Spawn.TreeKill p /\ e = Spawn.CallStop
        /\ Spawn.pid s = Some p /\ Spawn.promise s = Some (Fulfilled v)).
Proof.
  destruct e as [chunk | chunk | line | code |]; cbn; try tauto.
  - unfold Spawn.on_line.
    destruct (String.prefix Spawn.result_prefix line) eqn:Hpre; [| tauto].
    destruct (prefix_split _ _ Hpre) as [rest ->].
    rewrite substring_append.
    destruct (JSON_parse rest) as [msg | parsed] eqn:Hj; cbn; [| tauto].
    rewrite in_app_iff. cbn. intros [H | [<- | []]]; [tauto |].
    right. left. split; [reflexivity |]. now exists rest, msg.
  - destruct (Spawn.promise s) as [[v | err] |] eqn:Hp; try tauto.
    unfold Spawn.stop. destruct (Spawn.pid s) as [p |] eqn:Hpid; cbn; [| tauto].
    rewrite in_app_iff. cbn. intros [H | [<- | []]]; [tauto |].
    right. right. now exists p, v.
Qed.

(** X6.  The subprocess is signalled for two reasons only.  [proc.kill()]
    is called only when a line starting with [result: ] did not parse; the
    process tree is killed only by [stop()], on a process that has a pid and
    whose spawn had resolved.  Nothing else the subprocess prints or does,
    its exit included, sends it a signal. *)
Theorem spawn_signals_justified (d : Spawn.DenoInstallStatus)
    (proc_pid : option nat) (evs : list Spawn.event) (sig : Spawn.signal) :
  In sig (Spawn.signals (run evs (Spawn.spawnInnertubeSupportService d proc_pid))) ->
  match sig with
  | Spawn.ProcKill =>
      exists rest msg,
        In (Spawn.Line (Spawn.result_prefix +:+ rest)) evs
        /\ JSON_parse rest = inl msg
  | Spawn.TreeKill p =>
      proc_pid = Some p
      /\ In Spawn.CallStop evs
      /\ exists v,
           Spawn.promise (run evs (Spawn.spawnInnertubeSupportService d proc_pid))
           = Some (Fulfilled v)
  end.
Proof.
  induction evs as [| e evs IH] using rev_ind.
  - destruct d; intros [].
  - rewrite spawn_run_app.
    change (run [e] ?s) with (step e s).
    set (s := run evs (Spawn.spawnInnertubeSupportService d proc_pid)) in *.
    intros H. apply spawn_step_signals in H as [H | [(-> & rest & msg & -> & Hj) | H]].
    + specialize (IH H). destruct sig as [p |].
      * destruct IH as (Hpid & Hin & v & Hv). split; [exact Hpid |].
        split; [apply in_app_iff; now left |]. exists v.
        now apply spawn_step_settled.
      * destruct IH as (rest & msg & Hin & Hj). exists rest, msg.
        split; [apply in_app_iff; now left | exact Hj].
    + exists rest, msg. split; [| exact Hj]. apply in_app_iff. right. now left.
    + destruct H as (p & v & -> & -> & Hpid & Hv). split.
      * unfold s in Hpid. rewrite spawn_run_keeps_pid in Hpid.
        now destruct d.
      * split; [apply in_app_iff; right; now left |]. exists v.
        now apply spawn_step_settled.
Qed.

Lemma spawn_step_no_tree_kill (e : Spawn.event) (s : Spawn.state) :
  Spawn.pid s = None ->
  (forall p, ~ In (Spawn.TreeKill p) (Spawn.signals s)) ->
  forall p, ~ In (Spawn.TreeKill p) (Spawn.signals (step e s)).
Proof.
  intros Hpid H p Hin. apply spawn_step_signals in Hin as [Hin | [[Hk _] | Hin]].
  - exact (H p Hin).
  - discriminate.
  - destruct Hin as (q & v & _ & _ & Hq & _). congruence.
Qed.

Lemma spawn_run_no_tree_kill (evs : list Spawn.event) (s : Spawn.state) :
  Spawn.pid s = None ->
  (forall p, ~ In (Spawn.TreeKill p) (Spawn.signals s)) ->
  forall p, ~ In (Spawn.TreeKill p) (Spawn.signals (run evs s)).
Proof.
  revert s. induction evs as [| e evs IH]; intros s Hpid H; cbn; [exact H |].
  apply IH; [now rewrite spawn_step_keeps_pid |].
  now apply spawn_step_no_tree_kill.
Qed.

Lemma spawn_step_resolved (k : nat) (e : Spawn.event) (s : Spawn.state) :
  In k (Spawn.stops_resolved s) -> In k (Spawn.stops_resolved (step e s)).
Proof.
  intros H. destruct e as [chunk | chunk | line | code |]; cbn; try exact H.
  - unfold Spawn.on_line. destruct (String.prefix _ _); [| exact H].
    destruct (JSON_parse _); exact H.
  - apply in_app_iff. now left.
  - destruct (Spawn.promise s) as [[v | err] |]; try exact H.
    unfold Spawn.stop. destruct (Spawn.pid s); cbn; [exact H |].
    apply in_app_iff. now left.
Qed.

Lemma spawn_run_resolved (k : nat) (evs : list Spawn.event) (s : Spawn.state) :
  In k (Spawn.stops_resolved s) -> In k (Spawn.stops_resolved (run evs s)).
Proof.
  revert s. induction evs as [| e evs IH]; intros s H; cbn; [exact H |].
  apply IH. now apply spawn_step_resolved.
Qed.

(** X7.  The process has no pid.  Whatever happened before, a call of
    [stop()] sends no signal, reports on the error output that the service
    could not be stopped, and returns a promise that is resolved by the
    call itself, without waiting for a close of the process; and no later
    event makes the tree of the process be killed. *)
Theorem stop_without_pid_resolves_at_once (d : Spawn.DenoInstallStatus)
    (pre post : list Spawn.event) :
  let s1 := run pre (Spawn.spawnInnertubeSupportService d None) in
  let k := fst (Spawn.stop s1) in
  let s2 := snd (Spawn.stop s1) in
  let s3 := run post s2 in
  Spawn.signals s2 = Spawn.signals s1
  /\ Spawn.stderr_log s2
     = Spawn.stderr_log s1
       ++ [Spawn.Text "Could not stop service because process lacks pid"]
  /\ In k (Spawn.stops_resolved s2)
  /\ Spawn.close_waiters s2 = Spawn.close_waiters s1
  /\ In k (Spawn.stops_resolved s3)
  /\ (forall p, ~ In (Spawn.TreeKill p) (Spawn.signals s3)).
Proof.
  intros s1 k s2 s3.
  assert (Hpid : Spawn.pid s1 = None).
  { unfold s1. rewrite spawn_run_keeps_pid. now destruct d. }
  assert (Hno : forall p, ~ In (Spawn.TreeKill p) (Spawn.signals s1)).
  { unfold s1. apply spawn_run_no_tree_kill; [now destruct d |].
    destruct d; intros p []. }
  assert (Hk : In k (Spawn.stops_resolved s2)).
  { unfold k, s2, Spawn.stop. rewrite Hpid. cbn. apply in_app_iff. right. now left. }
  assert (Hsig : Spawn.signals s2 = Spawn.signals s1).
  { unfold s2, Spawn.stop. now rewrite Hpid. }
  split_ands.
  - exact Hsig.
  - unfold s2, Spawn.stop. now rewrite Hpid.
  - exact Hk.
  - unfold s2, Spawn.stop. now rewrite Hpid.
  - unfold s3. now apply spawn_run_resolved.
  - unfold s3. apply spawn_run_no_tree_kill.
    + unfold s2, Spawn.stop. now rewrite Hpid.
    + now rewrite Hsig.
Qed.

End SpawnFurther.

Lemma spawn_first_ready_line_decides_witness :
  Spawn.promise
    (Spawn.run Sample.JSON_parse
       ([Spawn.StdoutData "booting"; Spawn.Close (Some 1)]
          ++ Spawn.Line (Spawn.result_prefix +:+ "{}")
          :: [Spawn.Line "result: again"; Spawn.Close None])
       (Spawn.spawnInnertubeSupportService (Spawn.NotInstalled "not found") None))
  = Some (Fulfilled {| Spawn.payload := Service.Stopped;
                       Spawn.runtime_used := Spawn.node |}).
Proof.
  exact (spawn_first_ready_line_decides Sample.JSON_parse
           (Spawn.NotInstalled "not found") None
           [Spawn.StdoutData "booting"; Spawn.Close (Some 1)]
           [Spawn.Line "result: again"; Spawn.Close None] "{}" eq_refl).
Defined.

Lemma spawn_signals_justified_witness :
  exists rest msg,
    In (Spawn.Line (Spawn.result_prefix +:+ rest))
       [Spawn.StdoutData "booting"; Spawn.Line "result: oops"]
    /\ Sample.JSON_parse rest = inl msg.
Proof.
  exact (spawn_signals_justified Sample.JSON_parse (Spawn.Installed "2.1.4")
           (Some 4242%nat)
           [Spawn.StdoutData "booting"; Spawn.Line "result: oops"]
           Spawn.ProcKill (or_introl eq_refl)).
Defined.

(** ** Start and stop of the server *)

Lemma server_new_coherent : server_coherent Server.new.
Proof.
  unfold server_coherent. cbn. split_ands; try reflexivity.
  - split; [discriminate | intros [x Hx]; discriminate].
  - intros [x Hx]; discriminate.
Qed.

Lemma server_start_coherent (listen : string + Server.AddressInfo)
    (s : Server.state) :
  server_coherent s -> server_coherent (fst (Server.start listen s)).
Proof.
  intros H. pose proof H as (H1 & H2 & H3 & H4). unfold Server.start.
  destruct (Server.startPromise s) as [a |] eqn:Hp; [exact H |].
  destruct listen as [err | a]; cbn.
  - unfold server_coherent. cbn. rewrite <- H2. split_ands; try reflexivity.
    + split; [discriminate | intros [x Hx]; discriminate].
    + intros [x Hx]; discriminate.
  - unfold server_coherent. cbn. split_ands; try reflexivity.
    split; [now eexists | reflexivity].
Qed.

Lemma server_stop_coherent (close : option string) (s : Server.state) :
  server_coherent s -> server_coherent (fst (Server.stop close s)).
Proof.
  intros H. unfold Server.stop.
  destruct (Server.status s); [exact H |].
  destruct (Server.server s); [| exact H].
  destruct close; [exact H |].
  unfold server_coherent. cbn. split_ands; try reflexivity.
  - split; [discriminate | intros [x Hx]; discriminate].
  - intros [x Hx]; discriminate.
Qed.

Lemma server_calls_coherent (cs : list ServerCalls.call) (s : Server.state) :
  server_coherent s -> server_coherent (ServerCalls.perform_all cs s).
Proof.
  revert s. induction cs as [| c cs IH]; intros s H; cbn; [exact H |].
  apply IH. destruct c; cbn;
    [now apply server_start_coherent | now apply server_stop_coherent].
Qed.

(** X8.  After any sequence of awaited [start()] and [stop()] calls on a
    new server, whatever the host reported for each: the status is
    [started] exactly when the socket is listening, and [#server] and the
    kept start promise name that socket.  A [start()] that resolves gives
    the address the server is then listening on (the one it already had,
    without listening again, when it was started); a [stop()] that does not
    fail leaves the server not listening, so that the next [start()] listens
    anew. *)
Theorem server_start_stop_coherent (cs : list ServerCalls.call) :
  let s := ServerCalls.perform_all cs Server.new in
  server_coherent s
  /\ (forall listen a,
        snd (Server.start listen s) = inr a ->
        Server.listening (fst (Server.start listen s)) = Some a
        /\ Server.status (fst (Server.start listen s)) = Server.started
        /\ (forall b, Server.listening s = Some b ->
              a = b /\ fst (Server.start listen s) = s))
  /\ (forall close,
        (forall err, snd (Server.stop close s) <> Some (Rejected err)) ->
        Server.listening (fst (Server.stop close s)) = None
        /\ Server.status (fst (Server.stop close s)) = Server.stopped
        /\ forall a,
             Server.start (inr a) (fst (Server.stop close s))
             = (Server.mk (Some a) Server.started (Some a) true (Some a), inr a)).
Proof.
  intros s.
  assert (Hs : server_coherent s) by (apply server_calls_coherent, server_new_coherent).
  split; [exact Hs |]. destruct Hs as (H1 & H2 & H3 & H4). split.
  - intros listen a. unfold Server.start.
    destruct (Server.startPromise s) as [b |] eqn:Hp.
    + cbn. intros [= ->]. rewrite <- H2. split; [reflexivity |].
      split; [apply H3; rewrite <- H2; now eexists |].
      intros b [= ->]. now split.
    + destruct listen as [err | a']; cbn; [discriminate |].
      intros [= ->]. split; [reflexivity |]. split; [reflexivity |].
      intros b Hb. rewrite <- H2 in Hb. discriminate.
  - intros close Hok. unfold Server.stop in *.
    destruct (Server.status s) eqn:Hst.
    + cbn. assert (Hl : Server.listening s = None).
      { destruct (Server.listening s) eqn:Hl; [| reflexivity].
        assert (Server.stopped = Server.started) by (apply H3; now eexists).
        discriminate. }
      split; [exact Hl |]. split; [exact Hst |].
      intros a. unfold Server.start. now rewrite H2, Hl.
    + assert (Hl : is_Some (Server.listening s)) by now apply H3.
      rewrite <- H1 in Hl. destruct Hl as [b Hb]. rewrite Hb in *.
      destruct close as [err |]; [exfalso; now apply (Hok err) |].
      cbn. repeat split.
Qed.

(** ** The service, further *)

Lemma perform_unstarted (c : Service.call) :
  (forall a, c <> Service.CallStart (inr a)) ->
  Service.perform c Service.lifecycle0 = Service.lifecycle0.
Proof.
  intros H. destruct c as [[err | a] | close]; cbn; try reflexivity.
  exfalso. now apply (H a).
Qed.

Lemma perform_all_unstarted (cs : list Service.call) :
  Forall (fun c => forall a, c <> Service.CallStart (inr a)) cs ->
  Service.perform_all cs Service.lifecycle0 = Service.lifecycle0.
Proof.
  induction 1 as [| c cs Hc _ IH]; [reflexivity |].
  cbn. rewrite (perform_unstarted c Hc). exact IH.
Qed.

Lemma perform_started (a : Server.AddressInfo) (c : Service.call) :
  Service.perform c (fst (Service.start (inr a) Service.lifecycle0))
  = fst (Service.start (inr a) Service.lifecycle0).
Proof. destruct c as [listen | close]; reflexivity. Qed.

Lemma perform_all_started (a : Server.AddressInfo) (cs : list Service.call) :
  Service.perform_all cs (fst (Service.start (inr a) Service.lifecycle0))
  = fst (Service.start (inr a) Service.lifecycle0).
Proof.
  induction cs as [| c cs IH]; [reflexivity |].
  change (Service.perform_all (c :: cs) ?s)
    with (Service.perform_all cs (Service.perform c s)).
  now rewrite perform_started.
Qed.

(** X9.  A [start()] that fails leaves the service as constructed, so the
    next [start()] tries again.  The first [start()] that succeeds is
    final: after it, no sequence of awaited [start()] and [stop()] calls
    changes anything.  The HTTP server stays listening at the address of
    that first success, every later [start()] answers with that address
    whatever the host would report, and every later [stop()] resolves
    without closing the server. *)
Theorem service_first_start_is_final (pre post : list Service.call)
    (a : Server.AddressInfo) :
  Forall (fun c => forall b, c <> Service.CallStart (inr b)) pre ->
  let s := Service.perform_all (pre ++ Service.CallStart (inr a) :: post)
             Service.lifecycle0 in
  Service.perform_all pre Service.lifecycle0 = Service.lifecycle0
  /\ s = fst (Service.start (inr a) Service.lifecycle0)
  /\ (Service.server s ≫= Server.listening) = Some a
  /\ (forall listen,
        Service.start listen s
        = (s, inr (Service.Started (Server.address a) (Server.port a))))
  /\ (forall close, Service.stop close s = (s, Fulfilled tt)).
Proof.
  intros Hpre s.
  assert (Hs : s = fst (Service.start (inr a) Service.lifecycle0)).
  { unfold s, Service.perform_all. rewrite fold_left_app.
    fold (Service.perform_all pre Service.lifecycle0).
    rewrite (perform_all_unstarted pre Hpre).
    apply perform_all_started. }
  split; [now apply perform_all_unstarted |].
  split; [exact Hs |]. rewrite Hs. repeat split.
Qed.

Lemma service_first_start_is_final_witness :
  Service.perform_all
    ([Service.CallStart (inl "EADDRNOTAVAIL"); Service.CallStop None]
       ++ Service.CallStart (inr Sample.address)
       :: [Service.CallStop None;
           Service.CallStart (inr {| Server.address := "127.0.0.1";
                                     Server.port := 40999 |})])
    Service.lifecycle0
  = fst (Service.start (inr Sample.address) Service.lifecycle0).
Proof.
  refine (proj1 (proj2 (service_first_start_is_final
            [Service.CallStart (inl "EADDRNOTAVAIL"); Service.CallStop None]
            [Service.CallStop None;
             Service.CallStart (inr {| Server.address := "127.0.0.1";
                                       Server.port := 40999 |})]
            Sample.address _))).
  repeat constructor; intros b; discriminate.
Defined.

Lemma service_settled_step (p : nat) (e : Service.event) (s : Service.minting) :
  Service.minterPromise s = Some p ->
  Service.creating s = ∅ ->
  EventLoop.pending (Service.loop s) = ∅ ->
  Service.step e s = s.
Proof.
  intros Hm Hc Hp. destruct e as [| q r | h]; cbn [Service.step].
  - unfold Service.getMinter. now rewrite Hm.
  - rewrite Hc. destruct (decide (q ∈ (∅ : gset nat))) as [Hin | _]; [| reflexivity].
    exfalso. exact (not_elem_of_empty (C := gset nat) q Hin).
  - rewrite Hp, lookup_empty.
    destruct (decide (is_Some None)) as [[x Hx] | _]; [discriminate | reflexivity].
Qed.

Lemma service_settled_run (p : nat) (evs : list Service.event) (s : Service.minting) :
  Service.minterPromise s = Some p ->
  Service.creating s = ∅ ->
  EventLoop.pending (Service.loop s) = ∅ ->
  Service.run evs s = s /\ Forall (eq p) (Service.answers evs s).
Proof.
  intros Hm Hc Hp. induction evs as [| e evs [IH1 IH2]].
  - split; [reflexivity | constructor].
  - pose proof (service_settled_step p e s Hm Hc Hp) as Hstep. split.
    + change (Service.run (e :: evs) s) with (Service.run evs (Service.step e s)).
      now rewrite Hstep.
    + destruct e as [| q r | h]; cbn [Service.answers]; rewrite Hstep;
        try exact IH2.
      constructor; [| exact IH2]. unfold Service.getMinter. now rewrite Hm.
Qed.

(** X10.  A minter creation that fails is never retried.  When the
    challenge exchange of the creation in flight is rejected, the rejected
    promise stays in [#minterPromise] and no refresh timer is armed: from
    then on, whatever happens, no further exchange is started and every
    [GET /pot] request is handed that same rejected promise. *)
Theorem failed_minter_is_never_retried (before after : list Service.event)
    (p : nat) (err : string) :
  let s := Service.run before Service.minting0 in
  p ∈ Service.creating s ->
  let s' := Service.step (Service.ExchangeSettled p (Rejected err)) s in
  Service.minterPromise s' = Some p
  /\ Service.minters s' !! p = Some (Rejected err)
  /\ EventLoop.pending (Service.loop s') = ∅
  /\ Service.run after s' = s'
  /\ Service.exchanges (Service.run after s') = Service.exchanges s
  /\ Forall (eq p) (Service.answers after s').
Proof.
  intros s Hin s'.
  assert (Hs : minting_shape s) by (apply run_shape, minting0_shape).
  assert (Hfacts : Service.minterPromise s' = Some p
                   /\ Service.creating s' = ∅
                   /\ EventLoop.pending (Service.loop s') = ∅
                   /\ Service.minters s' !! p = Some (Rejected err)
                   /\ Service.exchanges s' = Service.exchanges s).
  { unfold s'. cbn [Service.step].
    destruct (decide (p ∈ Service.creating s)) as [_ | Hout]; [| contradiction].
    destruct Hs as [Hm Hc Hp | q Hm Hc Hp | q h ms Hm Hc Ht Hp | q Hm Hc Hp];
      rewrite Hc in Hin;
      try (exfalso; exact (not_elem_of_empty (C := gset nat) p Hin)).
    apply elem_of_singleton in Hin. subst q. cbn.
    split_ands; try assumption; try reflexivity.
    - rewrite Hc. apply difference_diag_L.
    - apply lookup_insert_eq. }
  destruct Hfacts as (Hm & Hc & Hp & Hl & He).
  destruct (service_settled_run p after s' Hm Hc Hp) as [Hrun Hans].
  split_ands; try assumption. now rewrite Hrun.
Qed.

Lemma failed_minter_is_never_retried_witness :
  let s' := Service.step (Service.ExchangeSettled 0 (Rejected "Could not get challenge"))
              (Service.run [Service.PotRequest] Service.minting0) in
  Service.run [Service.PotRequest; Service.TimerFired 0; Service.PotRequest] s' = s'.
Proof.
  refine (proj1 (proj2 (proj2 (proj2 (failed_minter_is_never_retried
            [Service.PotRequest]
            [Service.PotRequest; Service.TimerFired 0; Service.PotRequest]
            0 "Could not get challenge" _))))).
  vm_compute. reflexivity.
Defined.

(** X11.  The service refreshes its minter before the wrapper refreshes a
    session token made with it.  For a reply of [potFn] computed at time
    [now] from a minter created at [created], when the wrapper's delay is
    the plain difference (not the fallback of 120 s): the moment
    [now + delay] at which the session refresh is due lies more than 99
    seconds after [created + delay'], where [delay'] is the delay of the
    service's own refresh timer. Times are in milliseconds. *)
Theorem session_refresh_follows_minter_refresh (r : PoToken.PoTokenMinterResult)
    (poToken : string) (now : Z) :
  let reply := Service.potFn r poToken now in
  (0 <= Server.ttl reply - default 100 (Server.refreshThreshold reply))%Z ->
  (PoToken.created r
   + Service.refresh_timeout (PoToken.ttl r) (PoToken.refreshThreshold r) * 1000
   + 99000
   < now
     + Wrapper.session_timeout (Server.ttl reply) (Server.refreshThreshold reply)
       * 1000)%Z.
Proof.
  intros reply. unfold reply, Service.potFn, Wrapper.session_timeout,
    Service.refresh_timeout, Service.adjustedTTL. cbn.
  set (th := default 100 (PoToken.refreshThreshold r)).
  set (x := (PoToken.ttl r * 1000 + PoToken.created r - now)%Z).
  intros H. apply Z.ltb_ge in H. rewrite H.
  pose proof (Z.mul_div_le x 1000 ltac:(lia)).
  pose proof (Z.mod_pos_bound x 1000 ltac:(lia)).
  pose proof (Z.div_mod x 1000 ltac:(lia)).
  unfold x in *. lia.
Qed.

Lemma session_refresh_follows_minter_refresh_witness :
  (PoToken.created (Sample.minterResult 500 (Some 100))
   + Service.refresh_timeout 500 (Some 100) * 1000 + 99000
   < 1700000030500
     + Wrapper.session_timeout
         (Server.ttl (Service.potFn (Sample.minterResult 500 (Some 100)) "token"
                        1700000030500))
         (Server.refreshThreshold
            (Service.potFn (Sample.minterResult 500 (Some 100)) "token"
               1700000030500))
       * 1000)%Z.
Proof.
  apply (session_refresh_follows_minter_refresh
           (Sample.minterResult 500 (Some 100)) "token" 1700000030500).
  vm_compute. discriminate.
Defined.

(** ** The wrapper, further *)

Lemma wrapper_frame_refl (s : Wrapper.state) : wrapper_frame s s.
Proof. unfold wrapper_frame. repeat split. Qed.

Lemma wrapper_frame_trans (s1 s2 s3 : Wrapper.state) :
  wrapper_frame s1 s2 -> wrapper_frame s2 s3 -> wrapper_frame s1 s3.
Proof.
  intros (A1 & A2 & A3 & A4 & A5 & A6 & A7) (B1 & B2 & B3 & B4 & B5 & B6 & B7).
  unfold wrapper_frame. split_ands; congruence.
Qed.

Lemma clearPoTokenRefreshTimer_frame (s : Wrapper.state) :
  wrapper_frame s (Wrapper.clearPoTokenRefreshTimer s).
Proof.
  unfold wrapper_frame, Wrapper.clearPoTokenRefreshTimer.
  destruct (Wrapper.poTokenRefreshTimer s); repeat split.
Qed.

Lemma initInnertube_frame (s : Wrapper.state) :
  wrapper_frame s (snd (Wrapper.initInnertube s)).
Proof.
  pose proof (clearPoTokenRefreshTimer_frame s) as H.
  unfold wrapper_frame, Wrapper.initInnertube in *. unfold_setters. exact H.
Qed.

Lemma arm_refresh_frame (pot : Wrapper.POToken) (s : Wrapper.state) :
  wrapper_frame s (Wrapper.arm_refresh pot s).
Proof.
  unfold wrapper_frame, Wrapper.arm_refresh.
  destruct (Wrapper.ttl pot) as [t |]; [| repeat split].
  destruct (t =? 0)%Z; repeat split.
Qed.

Lemma refreshSessionPoToken_frame (s : Wrapper.state) :
  wrapper_frame s (Wrapper.refreshSessionPoToken s).
Proof.
  unfold Wrapper.refreshSessionPoToken.
  pose proof (clearPoTokenRefreshTimer_frame s) as H1.
  set (s1 := Wrapper.clearPoTokenRefreshTimer s) in *. clearbody s1.
  pose proof (initInnertube_frame
                (Wrapper.set_log (Wrapper.log s1 ++ [Wrapper.InfoRefresh]) s1)) as H2.
  destruct (Wrapper.initInnertube _) as [p s3]. cbn [snd] in H2.
  apply (wrapper_frame_trans s s1); [exact H1 |].
  unfold wrapper_frame in *. unfold_setters. exact H2.
Qed.

Lemma applyLocale_frame (s s' : Wrapper.state) :
  Wrapper.applyLocale s = inr s' ->
  Wrapper.account s' = Wrapper.account s
  /\ Wrapper.locale s' = Wrapper.locale s
  /\ Wrapper.service s' = Wrapper.service s
  /\ Wrapper.sessions s' = Wrapper.sessions s
  /\ Wrapper.stop_calls s' = Wrapper.stop_calls s
  /\ Wrapper.log s' = Wrapper.log s
  /\ Wrapper.disposed s = false
  /\ locale_applied s'.
Proof.
  unfold Wrapper.applyLocale.
  destruct (Wrapper.disposed s) eqn:Hd; [discriminate |].
  destruct (Wrapper.innertube s) as [c |] eqn:Hc.
  - intros [= <-]. unfold locale_applied. unfold_setters.
    split_ands; try reflexivity.
    intros c' [= <-].
    destruct (Text.truthy (Wrapper.region (Wrapper.locale s))) as [r |];
      destruct (Text.truthy (Wrapper.language (Wrapper.locale s))) as [l |];
      cbn; split; intros x Hx; try discriminate; congruence.
  - intros [= <-]. split_ands; try reflexivity.
    intros c' Hc'. congruence.
Qed.

Lemma lookup_insert_rejected (m : gmap nat (settled nat)) (p q : nat)
    (e : string) (v : nat) :
  <[p := Rejected e]> m !! q = Some (Fulfilled v) -> m !! q = Some (Fulfilled v).
Proof.
  destruct (decide (p = q)) as [<- | Hne].
  - rewrite lookup_insert_eq. discriminate.
  - now rewrite lookup_insert_ne.
Qed.

Lemma token_settled_more (p : nat) (r : settled (option Wrapper.POToken))
    (s : Wrapper.state) :
  let s' := Wrapper.token_settled p r s in
  Wrapper.account s' = Wrapper.account s
  /\ Wrapper.locale s' = Wrapper.locale s
  /\ Wrapper.service s' = Wrapper.service s
  /\ Wrapper.stop_calls s' = Wrapper.stop_calls s
  /\ (Wrapper.disposed s = true ->
      forall q v, Wrapper.sessions s' !! q = Some (Fulfilled v) ->
                  Wrapper.sessions s !! q = Some (Fulfilled v))
  /\ (Wrapper.disposed s = false -> locale_applied s -> locale_applied s').
Proof.
  unfold Wrapper.token_settled.
  destruct r as [[pot |] | err].
  - unfold locale_applied. unfold_setters. split_ands; try reflexivity; auto.
  - cbn zeta. set (s1 := Wrapper.set_lastSessionPoToken None s).
    assert (F : Wrapper.account s1 = Wrapper.account s
                /\ Wrapper.locale s1 = Wrapper.locale s
                /\ Wrapper.service s1 = Wrapper.service s
                /\ Wrapper.stop_calls s1 = Wrapper.stop_calls s
                /\ Wrapper.sessions s1 = Wrapper.sessions s
                /\ Wrapper.disposed s1 = Wrapper.disposed s
                /\ Wrapper.innertube s1 = Wrapper.innertube s)
      by (repeat split; reflexivity).
    clearbody s1. destruct F as (F1 & F2 & F3 & F4 & F5 & F6 & F7).
    destruct (Wrapper.innertube s1) as [c |] eqn:Hc.
    + destruct (Wrapper.applyLocale s1) as [e | s2] eqn:Ha.
      * assert (Hd : Wrapper.disposed s1 = true).
        { destruct (Wrapper.disposed s1) eqn:Hd; [reflexivity |].
          destruct (applyLocale_live s1 Hd) as (x & Hx & _). congruence. }
        unfold locale_applied. unfold_setters.
        rewrite F1, F2, F3, F4, F5. split_ands; try reflexivity.
        -- intros _ q v. apply lookup_insert_rejected.
        -- intros Hlive. congruence.
      * apply applyLocale_frame in Ha as (A1 & A2 & A3 & A4 & A5 & A6 & A7 & A8).
        assert (G : forall s3,
                  Wrapper.account s3 = Wrapper.account s2 ->
                  Wrapper.locale s3 = Wrapper.locale s2 ->
                  Wrapper.service s3 = Wrapper.service s2 ->
                  Wrapper.stop_calls s3 = Wrapper.stop_calls s2 ->
                  Wrapper.innertube s3 = Wrapper.innertube s2 ->
                  Wrapper.account s3 = Wrapper.account s
                  /\ Wrapper.locale s3 = Wrapper.locale s
                  /\ Wrapper.service s3 = Wrapper.service s
                  /\ Wrapper.stop_calls s3 = Wrapper.stop_calls s
                  /\ (Wrapper.disposed s = true ->
                      forall q v, Wrapper.sessions s3 !! q = Some (Fulfilled v) ->
                                  Wrapper.sessions s !! q = Some (Fulfilled v))
                  /\ (Wrapper.disposed s = false -> locale_applied s -> locale_applied s3)).
        { intros s3 G1 G2 G3 G4 G5. split_ands; try congruence.
          intros _ _. unfold locale_applied in *. rewrite G5, G2. exact A8. }
        cbn [Wrapper.innertube Wrapper.set_log].
        destruct (Wrapper.innertube s2) as [c2 |] eqn:Hc2; apply G;
          unfold_setters; first [reflexivity | exact Hc2].
    + unfold locale_applied. unfold_setters.
      rewrite F1, F2, F3, F4, F5. split_ands; try reflexivity; auto.
      intros _ _ c' Hc'. congruence.
  - unfold locale_applied. unfold_setters. split_ands; try reflexivity; auto.
    intros _ q v. apply lookup_insert_rejected.
Qed.

Lemma client_settled_more (p : nat) (sp : option Wrapper.POToken)
    (r : settled Wrapper.Innertube) (s : Wrapper.state) :
  let s' := Wrapper.client_settled p sp r s in
  Wrapper.account s' = Wrapper.account s
  /\ Wrapper.locale s' = Wrapper.locale s
  /\ Wrapper.service s' = Wrapper.service s
  /\ Wrapper.stop_calls s' = Wrapper.stop_calls s
  /\ (Wrapper.disposed s = true ->
      forall q v, Wrapper.sessions s' !! q = Some (Fulfilled v) ->
                  Wrapper.sessions s !! q = Some (Fulfilled v))
  /\ (Wrapper.disposed s = false -> locale_applied s -> locale_applied s').
Proof.
  unfold Wrapper.client_settled.
  destruct r as [c | err].
  - cbn zeta. set (s1 := Wrapper.set_innertube (Some c) s).
    assert (F : Wrapper.account s1 = Wrapper.account s
                /\ Wrapper.locale s1 = Wrapper.locale s
                /\ Wrapper.service s1 = Wrapper.service s
                /\ Wrapper.stop_calls s1 = Wrapper.stop_calls s
                /\ Wrapper.sessions s1 = Wrapper.sessions s
                /\ Wrapper.disposed s1 = Wrapper.disposed s)
      by (repeat split; reflexivity).
    clearbody s1. destruct F as (F1 & F2 & F3 & F4 & F5 & F6).
    destruct (Wrapper.applyLocale s1) as [e | s2] eqn:Ha.
    + assert (Hd : Wrapper.disposed s1 = true).
      { destruct (Wrapper.disposed s1) eqn:Hd; [reflexivity |].
        destruct (applyLocale_live s1 Hd) as (x & Hx & _). congruence. }
      unfold locale_applied. unfold_setters.
      rewrite F1, F2, F3, F4, F5. split_ands; try reflexivity.
      * intros _ q v. apply lookup_insert_rejected.
      * intros Hlive. congruence.
    + apply applyLocale_frame in Ha as (A1 & A2 & A3 & A4 & A5 & A6 & A7 & A8).
      assert (G : forall s3, wrapper_frame s2 s3 ->
                  let s' := Wrapper.finish p (Fulfilled (Wrapper.instance c)) s3 in
                  Wrapper.account s' = Wrapper.account s
                  /\ Wrapper.locale s' = Wrapper.locale s
                  /\ Wrapper.service s' = Wrapper.service s
                  /\ Wrapper.stop_calls s' = Wrapper.stop_calls s
                  /\ (Wrapper.disposed s = true ->
                      forall q v, Wrapper.sessions s' !! q = Some (Fulfilled v) ->
                                  Wrapper.sessions s !! q = Some (Fulfilled v))
                  /\ (Wrapper.disposed s = false -> locale_applied s -> locale_applied s')).
      { intros s3 (B1 & B2 & B3 & B4 & B5 & B6 & B7). cbn zeta.
        unfold locale_applied in *. unfold_setters.
        rewrite B1, B2, B3, B4, B6. split_ands; try congruence.
        intros _ _. exact A8. }
      destruct sp as [pot |]; apply G.
      * apply arm_refresh_frame.
      * unfold wrapper_frame. unfold_setters. repeat split.
  - unfold locale_applied. unfold_setters. split_ands; try reflexivity; auto.
    intros _ q v. apply lookup_insert_rejected.
Qed.

Lemma dispose_more (s : Wrapper.state) :
  let s' := Wrapper.dispose s in
  Wrapper.account s' = Wrapper.account s
  /\ Wrapper.service s' = Wrapper.service s
  /\ Wrapper.sessions s' = Wrapper.sessions s
  /\ Wrapper.disposed s' = true
  /\ (Wrapper.stop_calls s' = Wrapper.stop_calls s
      \/ (Wrapper.disposed s = false
          /\ Wrapper.stop_calls s' = S (Wrapper.stop_calls s))).
Proof.
  cbn zeta. unfold Wrapper.dispose.
  destruct (Wrapper.disposed s) eqn:Hd.
  - split_ands; try reflexivity; [exact Hd | now left].
  - destruct (clearPoTokenRefreshTimer_frame s) as (C1 & C2 & C3 & C4 & C5 & C6 & C7).
    set (s1 := Wrapper.clearPoTokenRefreshTimer s) in *. clearbody s1.
    unfold_setters.
    destruct (Wrapper.service s1) eqn:Hsv; unfold_setters;
      rewrite ?C1, ?C5, ?C6, <- ?C3, ?Hsv; split_ands; try reflexivity.
    + right. now split.
    + now left.
Qed.

(** What every step of the wrapper keeps. *)
Lemma wrapper_step_more (e : Wrapper.event) (s : Wrapper.state) :
  Wrapper.account (Wrapper.step e s) = Wrapper.account s
  /\ (Wrapper.service (Wrapper.step e s) = Wrapper.service s
      \/ Wrapper.service (Wrapper.step e s) = None)
  /\ (Wrapper.stop_calls (Wrapper.step e s) = Wrapper.stop_calls s
      \/ (Wrapper.disposed s = false
          /\ Wrapper.disposed (Wrapper.step e s) = true
          /\ Wrapper.stop_calls (Wrapper.step e s) = S (Wrapper.stop_calls s)))
  /\ (Wrapper.disposed s = true ->
      forall q v, Wrapper.sessions (Wrapper.step e s) !! q = Some (Fulfilled v) ->
                  Wrapper.sessions s !! q = Some (Fulfilled v))
  /\ (Wrapper.disposed (Wrapper.step e s) = false ->
      locale_applied s -> locale_applied (Wrapper.step e s)).
Proof.
  assert (Same : forall s', wrapper_frame s s' ->
            Wrapper.account s' = Wrapper.account s
            /\ (Wrapper.service s' = Wrapper.service s \/ Wrapper.service s' = None)
            /\ (Wrapper.stop_calls s' = Wrapper.stop_calls s
                \/ (Wrapper.disposed s = false
                    /\ Wrapper.disposed s' = true
                    /\ Wrapper.stop_calls s' = S (Wrapper.stop_calls s)))
            /\ (Wrapper.disposed s = true ->
                forall q v, Wrapper.sessions s' !! q = Some (Fulfilled v) ->
                            Wrapper.sessions s !! q = Some (Fulfilled v))
            /\ (Wrapper.disposed s' = false -> locale_applied s -> locale_applied s')).
  { intros s' (B1 & B2 & B3 & B4 & B5 & B6 & B7). unfold locale_applied.
    rewrite B1, B2, B3, B4, B5, B6. split_ands; auto. }
  destruct e as [| ident | loc | | | p r | p r | h]; cbn [Wrapper.step].
  - apply Same. unfold Wrapper.getInnertube.
    destruct (Wrapper.disposed s); [apply wrapper_frame_refl |].
    unfold Wrapper.initInnertubePromise.
    destruct (Wrapper.innertubePromise s); [apply wrapper_frame_refl |].
    pose proof (initInnertube_frame s) as H.
    destruct (Wrapper.initInnertube s) as [p s1]. cbn [snd] in *.
    unfold wrapper_frame in *. unfold_setters. exact H.
  - apply Same, wrapper_frame_refl.
  - unfold Wrapper.setLocale.
    destruct (Wrapper.disposed s) eqn:Hd; [apply Same, wrapper_frame_refl |].
    destruct (applyLocale_live (Wrapper.set_locale loc s) Hd) as (s1 & Ha & _).
    rewrite Ha. cbn [snd].
    apply applyLocale_frame in Ha as (A1 & A2 & A3 & A4 & A5 & A6 & A7 & A8).
    unfold_setters. rewrite A1, A3, A5.
    split_ands; auto. intros Hd'. congruence.
  - destruct (dispose_more s) as (D1 & D2 & D3 & D4 & D5). cbn zeta in *.
    rewrite D1, D2, D3. split_ands; auto.
    + destruct D5 as [D5 | [D5 D6]]; [now left | right; now repeat split].
    + intros Hd'. congruence.
  - unfold Wrapper.service_gone, locale_applied. unfold_setters.
    split_ands; auto.
  - destruct (Wrapper.tasks s !! p) as [[| sp] |];
      try (apply Same, wrapper_frame_refl).
    destruct (token_settled_more p r s) as (T1 & T2 & T3 & T4 & T5 & T6).
    destruct (token_settled_fields p r s) as (Hd & _). cbn zeta in *.
    rewrite T1, T3, T4. split_ands; auto.
    intros Hd'. apply T6. congruence.
  - destruct (Wrapper.tasks s !! p) as [[| sp] |];
      try (apply Same, wrapper_frame_refl).
    destruct (client_settled_more p sp r s) as (T1 & T2 & T3 & T4 & T5 & T6).
    destruct (client_settled_fields p sp r s) as (Hd & _). cbn zeta in *.
    rewrite T1, T3, T4. split_ands; auto.
    intros Hd'. apply T6. congruence.
  - apply Same.
    destruct (decide _); [| apply wrapper_frame_refl].
    pose proof (refreshSessionPoToken_frame
                  (Wrapper.set_loop (EventLoop.fire h (Wrapper.loop s)) s)) as H.
    unfold wrapper_frame in *. unfold_setters. exact H.
Qed.

Lemma wrapper_run_cons (e : Wrapper.event) (evs : list Wrapper.event)
    (s : Wrapper.state) :
  Wrapper.run (e :: evs) s = Wrapper.run evs (Wrapper.step e s).
Proof. reflexivity. Qed.

Lemma wrapper_run_app (pre post : list Wrapper.event) (s : Wrapper.state) :
  Wrapper.run (pre ++ post) s = Wrapper.run post (Wrapper.run pre s).
Proof. unfold Wrapper.run. apply fold_left_app. Qed.

Lemma wrapper_run_service_none (evs : list Wrapper.event) (s : Wrapper.state) :
  Wrapper.service s = None -> Wrapper.service (Wrapper.run evs s) = None.
Proof.
  revert s. induction evs as [| e evs IH]; intros s H; [exact H |].
  rewrite wrapper_run_cons. apply IH.
  destruct (wrapper_step_more e s) as (_ & [Hs | Hs] & _); congruence.
Qed.

(** X12.  Once the wrapper has lost its service (the subprocess closed, or
    [dispose()] completed), it never gets one again: whatever happens
    afterwards, [#service] stays [null] and every [generatePoToken()] is
    rejected before it sends a request, with the disposed error when the
    wrapper is disposed and with 'Innertube support service not started'
    otherwise. *)
Theorem wrapper_without_service_never_recovers (s : Wrapper.state)
    (evs : list Wrapper.event) (ident : string) :
  let s' := Wrapper.run evs (Wrapper.service_gone s) in
  Wrapper.service s' = None
  /\ Wrapper.generatePoToken ident s'
     = RejectedNow (if Wrapper.disposed s' then Wrapper.disposed_error
                    else Wrapper.not_started_error).
Proof.
  intros s'.
  assert (H : Wrapper.service s' = None)
    by (apply wrapper_run_service_none; reflexivity).
  split; [exact H |]. unfold Wrapper.generatePoToken. rewrite H.
  now destruct (Wrapper.disposed s').
Qed.

Lemma shape_disposed_idle (s : Wrapper.state) :
  wrapper_shape s -> Wrapper.disposed s = true ->
  EventLoop.pending (Wrapper.loop s) = ∅.
Proof.
  intros [Hd Hi Ht Hp | p st Hd Hi Ht Hp | p h ms Hd Hi Ht Hr Hp | p Hd Hi Ht Hp
          | Hd Ht Hp | p st Hd Ht Hp] H; congruence.
Qed.

Lemma disposed_step_quiet (e : Wrapper.event) (s : Wrapper.state) :
  wrapper_shape s -> Wrapper.disposed s = true ->
  Wrapper.constructions (Wrapper.step e s) = Wrapper.constructions s
  /\ Wrapper.stop_calls (Wrapper.step e s) = Wrapper.stop_calls s
  /\ (forall q v, Wrapper.sessions (Wrapper.step e s) !! q = Some (Fulfilled v) ->
                  Wrapper.sessions s !! q = Some (Fulfilled v)).
Proof.
  intros Hs Hd.
  destruct (wrapper_step_more e s) as (_ & _ & Hstop & Hsess & _).
  split_ands.
  - destruct (Wrapper.settles e) eqn:He.
    + destruct e as [| ident | loc | | | p r | p r | h]; try discriminate;
        cbn [Wrapper.step].
      * destruct (Wrapper.tasks s !! p) as [[| sp] |]; try reflexivity.
        now destruct (token_settled_fields p r s) as (_ & _ & _ & _ & Hc & _).
      * destruct (Wrapper.tasks s !! p) as [[| sp] |]; try reflexivity.
        now destruct (client_settled_fields p sp r s) as (_ & _ & _ & Hc & _).
    + pose proof (shape_disposed_idle s Hs Hd) as Hp.
      now destruct (wrapper_quiet_cached 0 e s Hp (or_introl Hd) He)
        as (_ & _ & _ & Hc & _).
  - destruct Hstop as [H | [H _]]; [exact H | congruence].
  - now apply Hsess.
Qed.

Lemma disposed_run_quiet (evs : list Wrapper.event) (s : Wrapper.state) :
  wrapper_shape s -> Wrapper.disposed s = true ->
  Wrapper.constructions (Wrapper.run evs s) = Wrapper.constructions s
  /\ Wrapper.stop_calls (Wrapper.run evs s) = Wrapper.stop_calls s
  /\ (forall q v, Wrapper.sessions (Wrapper.run evs s) !! q = Some (Fulfilled v) ->
                  Wrapper.sessions s !! q = Some (Fulfilled v)).
Proof.
  revert s. induction evs as [| e evs IH]; intros s Hs Hd.
  - now repeat split.
  - rewrite wrapper_run_cons.
    destruct (disposed_step_quiet e s Hs Hd) as (A1 & A2 & A3).
    destruct (IH (Wrapper.step e s) (wrapper_step_shape e s Hs)
                (step_stays_disposed e s Hd)) as (B1 & B2 & B3).
    split_ands; try congruence. intros q v H. now apply A3, B3.
Qed.

Lemma run_stop_calls (evs : list Wrapper.event) (s : Wrapper.state) :
  (Wrapper.disposed s = false -> Wrapper.stop_calls s = 0%nat) ->
  (Wrapper.stop_calls s <= 1)%nat ->
  (Wrapper.stop_calls (Wrapper.run evs s) <= 1)%nat.
Proof.
  revert s. induction evs as [| e evs IH]; intros s H0 H1; [exact H1 |].
  rewrite wrapper_run_cons.
  destruct (wrapper_step_more e s) as (_ & _ & [Hstop | (Hd & Hd' & Hstop)] & _).
  - apply IH; [| lia]. intros Hd'. rewrite Hstop. apply H0.
    destruct (Wrapper.disposed s) eqn:Hd; [| reflexivity].
    rewrite (step_stays_disposed e s Hd) in Hd'. discriminate.
  - apply IH; [intros; congruence |]. rewrite Hstop, (H0 Hd). lia.
Qed.

(** X13.  After [dispose()], whatever happens to the wrapper (the
    construction that was in flight settling, timers, further calls): no
    refresh timer is pending or armed again, no construction is started, no
    construction completes with a client (one in flight ends rejected),
    and [#service.stop()] is not called again; over the life of a wrapper
    it is called at most once. *)
Theorem disposed_wrapper_stays_quiet (acct : option Wrapper.AccountConfig)
    (loc : Wrapper.Locale) (svc : Spawn.SpawnedInnertubeSupportService)
    (before after : list Wrapper.event) :
  let w := Wrapper.run before (Wrapper.fresh acct loc svc) in
  let d := Wrapper.dispose w in
  let s := Wrapper.run after d in
  EventLoop.pending (Wrapper.loop d) = ∅
  /\ EventLoop.pending (Wrapper.loop s) = ∅
  /\ Wrapper.constructions s = Wrapper.constructions w
  /\ Wrapper.stop_calls s = Wrapper.stop_calls d
  /\ (Wrapper.stop_calls s <= 1)%nat
  /\ (forall q v, Wrapper.sessions s !! q = Some (Fulfilled v) ->
                  Wrapper.sessions w !! q = Some (Fulfilled v)).
Proof.
  intros w d s.
  assert (Hw : wrapper_shape w) by (apply wrapper_run_shape, fresh_shape).
  assert (Hds : wrapper_shape d) by (apply (wrapper_step_shape Wrapper.Dispose w Hw)).
  assert (Hdd : Wrapper.disposed d = true) by apply dispose_disposes.
  destruct (disposed_run_quiet after d Hds Hdd) as (A1 & A2 & A3).
  destruct (dispose_more w) as (_ & _ & D3 & _). cbn zeta in D3.
  split_ands.
  - now apply shape_disposed_idle.
  - apply shape_disposed_idle; [now apply wrapper_run_shape |].
    now apply run_stays_disposed.
  - fold s in A1. rewrite A1.
    destruct (Wrapper.disposed w) eqn:Hd.
    + unfold d, Wrapper.dispose. now rewrite Hd.
    + now destruct (dispose_fields w Hd) as (_ & _ & Hc & _).
  - exact A2.
  - unfold s, d.
    change (Wrapper.dispose w) with (Wrapper.step Wrapper.Dispose w).
    rewrite <- wrapper_run_cons. unfold w. rewrite <- wrapper_run_app.
    apply run_stop_calls; [reflexivity | cbn; lia].
  - intros q v H. fold d in D3. rewrite <- D3. now apply A3.
Qed.

Lemma wrapper_settled_step (p : nat) (e : Wrapper.event) (s : Wrapper.state) :
  EventLoop.pending (Wrapper.loop s) = ∅ ->
  Wrapper.tasks s = ∅ ->
  Wrapper.disposed s = true \/ Wrapper.innertubePromise s = Some p ->
  EventLoop.pending (Wrapper.loop (Wrapper.step e s)) = ∅
  /\ Wrapper.tasks (Wrapper.step e s) = ∅
  /\ (Wrapper.disposed (Wrapper.step e s) = true
      \/ Wrapper.innertubePromise (Wrapper.step e s) = Some p)
  /\ Wrapper.constructions (Wrapper.step e s) = Wrapper.constructions s
  /\ (forall a, e = Wrapper.GetInnertube ->
        fst (Wrapper.getInnertube s) = Returned a -> a = p).
Proof.
  intros Hp Ht Hk. destruct (Wrapper.settles e) eqn:He.
  - destruct e as [| ident | loc | | | q r | q r | h]; try discriminate;
      cbn [Wrapper.step]; rewrite Ht, lookup_empty;
      split_ands; try assumption; try reflexivity; intros; discriminate.
  - destruct (wrapper_quiet_cached p e s Hp Hk He) as (A1 & A2 & A3 & A4 & A5).
    split_ands; try assumption. congruence.
Qed.

Lemma wrapper_settled_run (p : nat) (evs : list Wrapper.event) (s : Wrapper.state) :
  EventLoop.pending (Wrapper.loop s) = ∅ ->
  Wrapper.tasks s = ∅ ->
  Wrapper.disposed s = true \/ Wrapper.innertubePromise s = Some p ->
  EventLoop.pending (Wrapper.loop (Wrapper.run evs s)) = ∅
  /\ Wrapper.constructions (Wrapper.run evs s) = Wrapper.constructions s
  /\ Forall (eq p) (Wrapper.answers evs s).
Proof.
  revert s. induction evs as [| e evs IH]; intros s Hp Ht Hk.
  - split_ands; [exact Hp | reflexivity | constructor].
  - rewrite wrapper_run_cons.
    destruct (wrapper_settled_step p e s Hp Ht Hk) as (A1 & A2 & A3 & A4 & A5).
    destruct (IH (Wrapper.step e s) A1 A2 A3) as (B1 & B2 & B3).
    split_ands; [exact B1 | congruence |].
    destruct e as [| ident | loc | | | q r | q r | h]; cbn [Wrapper.answers];
      try exact B3.
    destruct (fst (Wrapper.getInnertube s)) as [a | err | err] eqn:Ha;
      try exact B3.
    constructor; [symmetry; now apply A5 | exact B3].
Qed.

(** X14.  A construction of the client that fails is never retried.  When
    what the construction in flight awaits (the session token, or the
    client) is rejected, the rejected promise stays in [#innertubePromise]
    and no refresh timer is armed: from then on, whatever happens, no
    construction is started and every [getInnertube()] that returns gives
    that same rejected promise. *)
Theorem failed_construction_is_never_retried (acct : option Wrapper.AccountConfig)
    (loc : Wrapper.Locale) (svc : Spawn.SpawnedInnertubeSupportService)
    (before after : list Wrapper.event) (p : nat) (st : Wrapper.stage)
    (err : string) :
  let w := Wrapper.run before (Wrapper.fresh acct loc svc) in
  Wrapper.disposed w = false ->
  Wrapper.tasks w !! p = Some st ->
  let failure :=
    match st with
    | Wrapper.AwaitToken => Wrapper.TokenSettled p (Rejected err)
    | Wrapper.AwaitClient _ => Wrapper.ClientSettled p (Rejected err)
    end in
  let s := Wrapper.step failure w in
  Wrapper.innertubePromise s = Some p
  /\ Wrapper.sessions s !! p = Some (Rejected err)
  /\ EventLoop.pending (Wrapper.loop (Wrapper.run after s)) = ∅
  /\ Wrapper.constructions (Wrapper.run after s) = Wrapper.constructions w
  /\ Forall (eq p) (Wrapper.answers after s).
Proof.
  intros w Hd Hl failure s.
  assert (Hw : wrapper_shape w) by (apply wrapper_run_shape, fresh_shape).
  assert (Hfacts : Wrapper.innertubePromise w = Some p
                   /\ Wrapper.tasks w = {[p := st]}
                   /\ EventLoop.pending (Wrapper.loop w) = ∅).
  { destruct Hw as [_ Hi Ht Hp | q st' _ Hi Ht Hp | q h ms _ Hi Ht Hr Hp
                    | q _ Hi Ht Hp | Hd' Ht Hp | q st' Hd' Ht Hp];
      try congruence; try (rewrite Ht, lookup_empty in Hl; discriminate).
    rewrite Ht in Hl. apply lookup_singleton_Some in Hl as [-> ->].
    now repeat split. }
  destruct Hfacts as (Hi & Ht & Hp).
  assert (Hs : s = Wrapper.finish p (Rejected err) w).
  { unfold s, failure. destruct st as [| sp]; cbn [Wrapper.step]; now rewrite Hl. }
  assert (Hs1 : Wrapper.innertubePromise s = Some p) by (now rewrite Hs).
  assert (Hs2 : Wrapper.tasks s = ∅).
  { rewrite Hs. unfold_setters. rewrite Ht. apply delete_singleton_eq. }
  assert (Hs3 : EventLoop.pending (Wrapper.loop s) = ∅) by (now rewrite Hs).
  assert (Hs4 : Wrapper.constructions s = Wrapper.constructions w) by (now rewrite Hs).
  destruct (wrapper_settled_run p after s Hs3 Hs2 (or_intror Hs1)) as (B1 & B2 & B3).
  split_ands; try assumption; try congruence.
  rewrite Hs. unfold_setters. apply lookup_insert_eq.
Qed.

Lemma failed_construction_is_never_retried_witness :
  let s := Wrapper.step (Wrapper.TokenSettled 0 (Rejected Wrapper.not_started_error))
             (Wrapper.run [Wrapper.GetInnertube]
                (Wrapper.fresh None Sample.locale Sample.spawned)) in
  Forall (eq 0%nat)
    (Wrapper.answers [Wrapper.GetInnertube; Wrapper.TimerFired 0; Wrapper.GetInnertube] s).
Proof.
  exact (proj2 (proj2 (proj2 (proj2 (failed_construction_is_never_retried
           None Sample.locale Sample.spawned [Wrapper.GetInnertube]
           [Wrapper.GetInnertube; Wrapper.TimerFired 0; Wrapper.GetInnertube]
           0 Wrapper.AwaitToken Wrapper.not_started_error eq_refl eq_refl))))).
Defined.

Lemma run_locale_applied (evs : list Wrapper.event) (s : Wrapper.state) :
  (Wrapper.disposed s = false -> locale_applied s) ->
  Wrapper.disposed (Wrapper.run evs s) = false ->
  locale_applied (Wrapper.run evs s).
Proof.
  revert s. induction evs as [| e evs IH]; intros s H; [exact H |].
  rewrite wrapper_run_cons. apply IH. intros Hd'.
  destruct (wrapper_step_more e s) as (_ & _ & _ & _ & Hl).
  apply Hl; [exact Hd' |]. apply H.
  destruct (Wrapper.disposed s) eqn:Hd; [| reflexivity].
  rewrite (step_stays_disposed e s Hd) in Hd'. discriminate.
Qed.

(** X15.  The client of a wrapper that is not disposed always carries the
    locale: whatever has happened since [create], when [#innertube] holds a
    client, its [gl] is the region of [#locale] and its [hl] the language
    of [#locale], for each of the two that the locale has (an absent or
    empty one leaves the client's value as it is).  [setLocale(l)] makes
    [l] the locale. *)
Theorem live_client_carries_locale (acct : option Wrapper.AccountConfig)
    (loc : Wrapper.Locale) (svc : Spawn.SpawnedInnertubeSupportService)
    (evs : list Wrapper.event) (c : Wrapper.Innertube) :
  let s := Wrapper.run evs (Wrapper.fresh acct loc svc) in
  Wrapper.disposed s = false ->
  Wrapper.innertube s = Some c ->
  (forall r, Text.truthy (Wrapper.region (Wrapper.locale s)) = Some r ->
     Wrapper.gl c = Some r)
  /\ (forall l, Text.truthy (Wrapper.language (Wrapper.locale s)) = Some l ->
        Wrapper.hl c = Some l)
  /\ (forall l, Wrapper.locale (Wrapper.step (Wrapper.SetLocale l) s) = l).
Proof.
  intros s Hd Hc.
  assert (H : locale_applied s).
  { apply run_locale_applied; [| exact Hd]. intros _ c' Hc'. discriminate. }
  destruct (H c Hc) as [H1 H2]. split_ands; [exact H1 | exact H2 |].
  intros l. cbn [Wrapper.step]. unfold Wrapper.setLocale. rewrite Hd.
  destruct (applyLocale_live (Wrapper.set_locale l s) Hd) as (s1 & Ha & _).
  rewrite Ha. cbn [snd].
  now apply applyLocale_frame in Ha as (_ & A2 & _).
Qed.

Lemma live_client_carries_locale_witness :
  Wrapper.gl (Wrapper.set_hl (Some "en") (Wrapper.set_gl (Some "US") Sample.client))
  = Some "US".
Proof.
  exact (proj1 (live_client_carries_locale None Sample.locale Sample.spawned
                  [Wrapper.GetInnertube;
                   Wrapper.TokenSettled 0 (Fulfilled (Some (Sample.sessionPot (Some 600) None)));
                   Wrapper.ClientSettled 0 (Fulfilled Sample.client)]
                  (Wrapper.set_hl (Some "en") (Wrapper.set_gl (Some "US") Sample.client))
                  eq_refl eq_refl) "US" eq_refl).
Defined.

(** ** The session token *)

Lemma truthy_inv (o : option string) (v : string) :
  Text.truthy o = Some v -> o = Some v /\ v <> EmptyString.
Proof.
  destruct o as [[| c r] |]; cbn; try discriminate.
  intros [= <-]. split; [reflexivity | discriminate].
Qed.

Lemma generatePoToken_request (ident : string) (s : Wrapper.state)
    (req : Wrapper.pot_request) :
  Wrapper.generatePoToken ident s = Returned req ->
  Wrapper.for_identifier req = ident.
Proof.
  unfold Wrapper.generatePoToken.
  destruct (Wrapper.disposed s); [discriminate |].
  destruct (Wrapper.service s) as [svc |]; [| discriminate].
  destruct (Spawn.payload svc); [discriminate |].
  now intros [= <-].
Qed.

Lemma account_identifier_datasync (account : option Wrapper.AccountConfig)
    (v : SessionToken.ClientView) (i : Wrapper.Identifier)
    (lg : list SessionToken.logged) :
  SessionToken.account_identifier account v = (Fulfilled (Some i), lg) ->
  Wrapper.id_type i = Wrapper.datasyncIdToken_id
  /\ Wrapper.id_value i <> EmptyString
  /\ is_Some (Text.truthy (SessionToken.cookie_of account))
  /\ SessionToken.logged_in v = true.
Proof.
  unfold SessionToken.account_identifier.
  destruct (Text.truthy (SessionToken.cookie_of account)) as [ck |]; [| discriminate].
  destruct (SessionToken.logged_in v) eqn:Hli.
  - destruct (SessionToken.account_info v) as [info | e]; [| discriminate].
    destruct (Utils.getActiveAccountDatasyncIdToken true info _) as [[| d pg] w];
      [discriminate |].
    destruct (Text.truthy d) as [dv |] eqn:Hd; [| discriminate].
    intros [= <- _]. cbn. apply truthy_inv in Hd as [_ Hne].
    split_ands; try reflexivity; [exact Hne | now eexists].
  - cbn. discriminate.
Qed.

Lemma or_visitor_identifier (identifier : option Wrapper.Identifier)
    (visitorData : option string) (i : Wrapper.Identifier) :
  SessionToken.or_visitor identifier visitorData = Some i ->
  identifier = Some i
  \/ (identifier = None
      /\ Wrapper.id_type i = Wrapper.visitorData_id
      /\ visitorData = Some (Wrapper.id_value i)
      /\ Wrapper.id_value i <> EmptyString
      /\ Wrapper.pageId i = None).
Proof.
  unfold SessionToken.or_visitor. destruct identifier as [j |].
  - intros [= <-]. now left.
  - destruct (Text.truthy visitorData) as [v |] eqn:Hv; [| discriminate].
    intros [= <-]. apply truthy_inv in Hv as [-> Hne]. right. now repeat split.
Qed.

Section SessionTokenFacts.

Variable view_of : Wrapper.Innertube -> SessionToken.ClientView.
Variable created : settled SessionToken.ClientView.
Variable fetch : Wrapper.pot_request -> settled Server.PotFnResult.

Local Abbreviation generate :=
  (SessionToken.generateSessionPoToken view_of created fetch).

(** What [mint] gives for the identifier [i]. *)
Lemma mint_identifier (lg : list SessionToken.logged) (made : bool)
    (i : Wrapper.Identifier) (visitorData : option string) (s_gen : Wrapper.state) :
  let a := SessionToken.mint fetch lg made (Some i) visitorData s_gen in
  (forall pot, SessionToken.outcome a = Fulfilled (Some pot) ->
     Wrapper.identifier pot = i /\ Wrapper.visitorData pot = visitorData
     /\ exists req, SessionToken.requests a = [req])
  /\ SessionToken.outcome a <> Fulfilled None
  /\ (forall req, In req (SessionToken.requests a) ->
        Wrapper.for_identifier req = Wrapper.id_value i)
  /\ (length (SessionToken.requests a) <= 1)%nat
  /\ SessionToken.created_client a = made.
Proof.
  cbn zeta. unfold SessionToken.mint.
  destruct (Wrapper.generatePoToken (Wrapper.id_value i) s_gen) as [req | e | e] eqn:Hg.
  - apply generatePoToken_request in Hg.
    destruct (fetch req) as [r | e]; cbn; split_ands;
      try discriminate; try reflexivity; try lia.
    + intros pot [= <-]. cbn. split_ands; try reflexivity. now exists req.
    + intros x [<- | []]. exact Hg.
    + intros x [<- | []]. exact Hg.
  - cbn. split_ands; try discriminate; try reflexivity; try lia.
  - cbn. split_ands; try discriminate; try reflexivity; try lia.
Qed.

Lemma generate_with_last (s : Wrapper.state) (last : Wrapper.POToken) :
  Wrapper.lastSessionPoToken s = Some last ->
  forall v c l,
    SessionToken.generateSessionPoToken v c fetch s l
    = SessionToken.mint fetch [] false (Some (Wrapper.identifier last))
        (Wrapper.visitorData last) s.
Proof.
  intros Hl v c l.
  unfold SessionToken.generateSessionPoToken, SessionToken.suspends.
  now rewrite Hl.
Qed.

(** Without a previous token: nothing is asked for, or a token is asked for
    with a non-empty identifier of one of the two kinds. *)
Lemma generate_first (s s_later : Wrapper.state) :
  Wrapper.lastSessionPoToken s = None ->
  (SessionToken.requests (generate s s_later) = []
   /\ forall pot, SessionToken.outcome (generate s s_later) <> Fulfilled (Some pot))
  \/ exists lg made i visitorData s_gen,
       generate s s_later = SessionToken.mint fetch lg made (Some i) visitorData s_gen
       /\ Wrapper.id_value i <> EmptyString
       /\ match Wrapper.id_type i with
          | Wrapper.visitorData_id =>
              visitorData = Some (Wrapper.id_value i) /\ Wrapper.pageId i = None
          | Wrapper.datasyncIdToken_id =>
              is_Some (Text.truthy (SessionToken.cookie_of (Wrapper.account s)))
          end.
Proof.
  intros Hl. unfold SessionToken.generateSessionPoToken. rewrite Hl.
  set (s_gen := if SessionToken.suspends s then s_later else s). clearbody s_gen.
  set (made := match Wrapper.innertube s with Some _ => false | None => true end).
  clearbody made.
  destruct (match Wrapper.innertube s with
            | Some c => Fulfilled (view_of c)
            | None => created
            end) as [v | e]; [| left; split; [reflexivity | discriminate]].
  destruct (SessionToken.account_identifier (Wrapper.account s) v)
    as [[identifier | e] lg] eqn:Hacc; [| left; split; [reflexivity | discriminate]].
  destruct (SessionToken.or_visitor identifier (SessionToken.client_visitorData v))
    as [i |] eqn:Hi; [| left; split; [reflexivity | discriminate]].
  right. exists lg, made, i, (SessionToken.client_visitorData v), s_gen.
  split; [reflexivity |].
  apply or_visitor_identifier in Hi as [-> | (-> & T1 & T2 & T3 & T4)].
  - destruct (account_identifier_datasync _ _ _ _ Hacc) as (D1 & D2 & D3 & _).
    rewrite D1. now split.
  - rewrite T1. now repeat split.
Qed.

(** X16.  A refresh keeps the identity of the session.  When the wrapper
    holds a previous session token, [#generateSessionPoToken] asks for the
    new token with the identifier of the previous one and returns a token
    with the same identifier and visitor data; it never returns [null],
    creates no client, and consults neither the client nor the accounts:
    whatever those are, and whatever happens to the wrapper meanwhile, the
    result is the same. *)
Theorem session_identity_is_sticky (s s_later : Wrapper.state)
    (last : Wrapper.POToken) :
  Wrapper.lastSessionPoToken s = Some last ->
  let a := generate s s_later in
  (forall pot, SessionToken.outcome a = Fulfilled (Some pot) ->
     Wrapper.identifier pot = Wrapper.identifier last
     /\ Wrapper.visitorData pot = Wrapper.visitorData last)
  /\ SessionToken.outcome a <> Fulfilled None
  /\ (forall req, In req (SessionToken.requests a) ->
        Wrapper.for_identifier req = Wrapper.id_value (Wrapper.identifier last))
  /\ SessionToken.created_client a = false
  /\ (forall view_of' created' s_later',
        SessionToken.generateSessionPoToken view_of' created' fetch s s_later' = a).
Proof.
  intros Hl a. unfold a. rewrite (generate_with_last s last Hl).
  destruct (mint_identifier [] false (Wrapper.identifier last)
              (Wrapper.visitorData last) s) as (M1 & M2 & M3 & _ & M5).
  cbn zeta in *. split_ands; try assumption.
  - intros pot H. destruct (M1 pot H) as (A & B & _). now split.
  - intros v c l. now apply generate_with_last.
Qed.

(** X17.  The first session token of a wrapper (no previous token).  When
    a token is returned, exactly one request was sent, for the identifier
    of the token, which is not empty and is of one of two kinds: the
    visitor data of the client, in which case the token carries no page id;
    or a datasync id of the account, which happens only when the account
    configuration has a cookie.  When [null] is returned (no identifier
    could be found), no request was sent. *)
Theorem first_session_identifier (s s_later : Wrapper.state) :
  Wrapper.lastSessionPoToken s = None ->
  let a := generate s s_later in
  match SessionToken.outcome a with
  | Fulfilled (Some pot) =>
      Wrapper.id_value (Wrapper.identifier pot) <> EmptyString
      /\ (exists req, SessionToken.requests a = [req]
            /\ Wrapper.for_identifier req = Wrapper.id_value (Wrapper.identifier pot))
      /\ match Wrapper.id_type (Wrapper.identifier pot) with
         | Wrapper.visitorData_id =>
             Wrapper.visitorData pot = Some (Wrapper.id_value (Wrapper.identifier pot))
             /\ Wrapper.pageId (Wrapper.identifier pot) = None
         | Wrapper.datasyncIdToken_id =>
             is_Some (Text.truthy (SessionToken.cookie_of (Wrapper.account s)))
         end
  | Fulfilled None => SessionToken.requests a = []
  | Rejected _ => (length (SessionToken.requests a) <= 1)%nat
  end.
Proof.
  intros Hl a.
  pose proof (generate_first s s_later Hl) as G.
  change (generate s s_later) with a in G. clearbody a.
  destruct G as [[Hreq Hout] | (lg & made & i & vd & s_gen & Ha & Hne & Hkind)].
  - destruct (SessionToken.outcome a) as [[pot |] | e].
    + now contradiction (Hout pot).
    + exact Hreq.
    + rewrite Hreq. cbn. lia.
  - destruct (mint_identifier lg made i vd s_gen) as (M1 & M2 & M3 & M4 & _).
    cbn zeta in *. rewrite <- Ha in M1, M2, M3, M4.
    destruct (SessionToken.outcome a) as [[pot |] | e].
    + destruct (M1 pot eq_refl) as (E1 & E2 & req & Hreq).
      rewrite E1, E2. split_ands; try assumption.
      exists req. split; [exact Hreq |]. apply M3. rewrite Hreq. now left.
    + now contradiction M2.
    + exact M4.
Qed.

(** X18.  The wrapper never asks [/pot] without an identifier.  Provided
    the identifier of the previous session token, if there is one, is not
    empty, every request [#generateSessionPoToken] sends carries a
    non-empty identifier, so the [/pot] route of the server hands it to
    [potFn] and never answers with the error for a missing identifier; and
    the token returned has a non-empty identifier again. *)
Theorem session_requests_carry_identifier (s s_later : Wrapper.state)
    (potFn : string -> settled Server.PotFnResult) :
  (forall last, Wrapper.lastSessionPoToken s = Some last ->
     Wrapper.id_value (Wrapper.identifier last) <> EmptyString) ->
  let a := generate s s_later in
  (forall req, In req (SessionToken.requests a) ->
     Wrapper.for_identifier req <> EmptyString
     /\ Server.pot_route potFn (Some (Wrapper.for_identifier req))
        = match potFn (Wrapper.for_identifier req) with
          | Rejected err => Server.Escapes err
          | Fulfilled r => Server.Respond 200 (Server.PotJson r)
          end)
  /\ (forall pot, SessionToken.outcome a = Fulfilled (Some pot) ->
        Wrapper.id_value (Wrapper.identifier pot) <> EmptyString).
Proof.
  intros Hinv a.
  assert (Hroute : forall ident, ident <> EmptyString ->
            Server.pot_route potFn (Some ident)
            = match potFn ident with
              | Rejected err => Server.Escapes err
              | Fulfilled r => Server.Respond 200 (Server.PotJson r)
              end).
  { intros ident Hne. unfold Server.pot_route.
    now rewrite (truthy_Some (Some ident) ident eq_refl Hne). }
  assert (Hmint : forall lg made i vd s_gen,
            a = SessionToken.mint fetch lg made (Some i) vd s_gen ->
            Wrapper.id_value i <> EmptyString ->
            (forall req, In req (SessionToken.requests a) ->
               Wrapper.for_identifier req <> EmptyString
               /\ Server.pot_route potFn (Some (Wrapper.for_identifier req))
                  = match potFn (Wrapper.for_identifier req) with
                    | Rejected err => Server.Escapes err
                    | Fulfilled r => Server.Respond 200 (Server.PotJson r)
                    end)
            /\ (forall pot, SessionToken.outcome a = Fulfilled (Some pot) ->
                  Wrapper.id_value (Wrapper.identifier pot) <> EmptyString)).
  { intros lg made i vd s_gen Ha Hne.
    destruct (mint_identifier lg made i vd s_gen) as (M1 & _ & M3 & _).
    cbn zeta in *. rewrite <- Ha in M1, M3. split.
    - intros req Hreq. rewrite (M3 req Hreq). split; [exact Hne | now apply Hroute].
    - intros pot Hpot. destruct (M1 pot Hpot) as (-> & _). exact Hne. }
  destruct (Wrapper.lastSessionPoToken s) as [last |] eqn:Hl.
  - apply (Hmint [] false (Wrapper.identifier last) (Wrapper.visitorData last) s).
    + unfold a. now apply generate_with_last.
    + now apply Hinv.
  - pose proof (generate_first s s_later Hl) as G.
    change (generate s s_later) with a in G.
    destruct G as [[Hreq Hout] | (lg & made & i & vd & s_gen & Ha & Hne & _)].
    + split.
      * intros req Hin. rewrite Hreq in Hin. destruct Hin.
      * intros pot Hpot. now contradiction (Hout pot).
    + now apply (Hmint lg made i vd s_gen).
Qed.

End SessionTokenFacts.

Lemma session_identity_is_sticky_witness :
  SessionToken.created_client
    (SessionToken.generateSessionPoToken
       (fun _ => {| SessionToken.client_visitorData := Some "other";
                    SessionToken.logged_in := false;
                    SessionToken.account_info := Fulfilled [] |})
       (Rejected "offline")
       (fun _ => Fulfilled {| Server.poToken := "token2"; Server.ttl := 600;
                              Server.refreshThreshold := None |})
       (Wrapper.set_lastSessionPoToken (Some (Sample.sessionPot (Some 600) None))
          (Wrapper.fresh None Sample.locale Sample.spawned))
       (Wrapper.fresh None Sample.locale Sample.spawned))
  = false.
Proof.
  exact (proj1 (proj2 (proj2 (proj2 (session_identity_is_sticky
           (fun _ => {| SessionToken.client_visitorData := Some "other";
                        SessionToken.logged_in := false;
                        SessionToken.account_info := Fulfilled [] |})
           (Rejected "offline")
           (fun _ => Fulfilled {| Server.poToken := "token2"; Server.ttl := 600;
                                  Server.refreshThreshold := None |})
           (Wrapper.set_lastSessionPoToken (Some (Sample.sessionPot (Some 600) None))
              (Wrapper.fresh None Sample.locale Sample.spawned))
           (Wrapper.fresh None Sample.locale Sample.spawned)
           (Sample.sessionPot (Some 600) None) eq_refl))))).
Defined.

Lemma first_session_identifier_witness :
  exists req,
    SessionToken.requests
      (SessionToken.generateSessionPoToken
         (fun _ => {| SessionToken.client_visitorData := Some "other";
                      SessionToken.logged_in := false;
                      SessionToken.account_info := Fulfilled [] |})
         (Fulfilled {| SessionToken.client_visitorData := Some "visitor";
                       SessionToken.logged_in := false;
                       SessionToken.account_info := Fulfilled [] |})
         (fun _ => Fulfilled {| Server.poToken := "token"; Server.ttl := 600;
                                Server.refreshThreshold := None |})
         (Wrapper.fresh None Sample.locale Sample.spawned)
         (Wrapper.fresh None Sample.locale Sample.spawned))
    = [req]
    /\ Wrapper.for_identifier req = "visitor"%string.
Proof.
  exact (proj1 (proj2 (first_session_identifier
           (fun _ => {| SessionToken.client_visitorData := Some "other";
                        SessionToken.logged_in := false;
                        SessionToken.account_info := Fulfilled [] |})
           (Fulfilled {| SessionToken.client_visitorData := Some "visitor";
                         SessionToken.logged_in := false;
                         SessionToken.account_info := Fulfilled [] |})
           (fun _ => Fulfilled {| Server.poToken := "token"; Server.ttl := 600;
                                  Server.refreshThreshold := None |})
           (Wrapper.fresh None Sample.locale Sample.spawned)
           (Wrapper.fresh None Sample.locale Sample.spawned) eq_refl))).
Defined.

Lemma session_requests_carry_identifier_witness :
  Server.pot_route (fun _ => Rejected "minter failed") (Some "visitor"%string)
  = Server.Escapes "minter failed".
Proof.
  refine (proj2 (proj1 (session_requests_carry_identifier
           (fun _ => {| SessionToken.client_visitorData := Some "other";
                        SessionToken.logged_in := false;
                        SessionToken.account_info := Fulfilled [] |})
           (Rejected "offline")
           (fun _ => Fulfilled {| Server.poToken := "token2"; Server.ttl := 600;
                                  Server.refreshThreshold := None |})
           (Wrapper.set_lastSessionPoToken (Some (Sample.sessionPot (Some 600) None))
              (Wrapper.fresh None Sample.locale Sample.spawned))
           (Wrapper.fresh None Sample.locale Sample.spawned)
           (fun _ => Rejected "minter failed") _)
           {| Wrapper.to_address := "127.0.0.1"; Wrapper.to_port := 40123;
              Wrapper.for_identifier := "visitor" |}
           (or_introl eq_refl))).
  intros last [= <-]. discriminate.
Defined.

(** ** The result of [evalFnImpl] *)

Lemma eval_fields_of (run_output : string -> EvalFn.script_outcome)
    (d : EvalFn.BuildScriptResult) (e : EvalFn.Env)
    (exported : option EvalFn.ExportedVars) (fs : list (string * EvalFn.atom)) :
  run_output (EvalFn.output d) = EvalFn.FallsThrough exported ->
  EvalFn.run_clause run_output d (EvalFn.properties e)
  = Fulfilled (EvalFn.VObject fs) ->
  (forall v, In ("n"%string, v) fs
     <-> exists a x, Text.truthy (EvalFn.n e) = Some a /\ exported = Some x
                     /\ EvalFn.nFunction x a = Fulfilled v)
  /\ (forall v, In ("sig"%string, v) fs
        <-> exists a x, Text.truthy (EvalFn.sig e) = Some a /\ exported = Some x
                        /\ EvalFn.sigFunction x a = Fulfilled v)
  /\ map fst fs
     = match Text.truthy (EvalFn.n e) with
       | Some _ => ["n"%string]
       | None => []
       end
       ++ match Text.truthy (EvalFn.sig e) with
          | Some _ => ["sig"%string]
          | None => []
          end.
Proof.
  intros Hrun. unfold EvalFn.run_clause. rewrite Hrun.
  unfold EvalFn.properties.
  destruct (Text.truthy (EvalFn.n e)) as [a |];
    destruct (Text.truthy (EvalFn.sig e)) as [b |];
    cbn [app EvalFn.eval_literal];
    destruct exported as [x |]; try discriminate;
    unfold EvalFn.call; cbn [EvalFn.fn EvalFn.arg EvalFn.key String.eqb Ascii.eqb
                              Bool.eqb];
    repeat match goal with
           | |- context [EvalFn.nFunction x ?t] =>
               destruct (EvalFn.nFunction x t) eqn:?; try discriminate;
               cbn [EvalFn.eval_literal EvalFn.set_field EvalFn.key EvalFn.fn
                    EvalFn.arg String.eqb Ascii.eqb Bool.eqb]
           | |- context [EvalFn.sigFunction x ?t] =>
               destruct (EvalFn.sigFunction x t) eqn:?; try discriminate;
               cbn [EvalFn.eval_literal EvalFn.set_field EvalFn.key EvalFn.fn
                    EvalFn.arg String.eqb Ascii.eqb Bool.eqb]
           end;
    intros [= <-]; cbn [map fst app In]; split_ands; try reflexivity;
    intros v; split;
    try (intros (a' & x' & Ha' & Hx' & Hv'); try discriminate;
         injection Ha' as <-; injection Hx' as <-; left; congruence);
    try (intros (a' & x' & Ha' & Hx' & Hv'); try discriminate;
         injection Ha' as <-; injection Hx' as <-; right; left; congruence);
    try (intros [H | H]; [| try destruct H as [H | H]]);
    try (intros []);
    try discriminate;
    try (injection H as <-; eexists _, _; split_ands; try reflexivity; assumption);
    try contradiction.
Qed.

Lemma json_fields_kept (fs : list (string * EvalFn.atom)) (k : string)
    (v : EvalFn.atom) :
  In (k, v) (List.filter EvalFn.json_field fs)
  <-> In (k, v) fs /\ v <> EvalFn.AUndefined.
Proof.
  rewrite List.filter_In. unfold EvalFn.json_field. cbn [snd].
  split; intros [Hin Hv]; (split; [exact Hin |]); destruct v; congruence.
Qed.

(** X19.  When [env.n] and [env.sig], where they are non-empty strings,
    hold no quote, backslash or line break, and the remote script runs to
    its end, [evalFnImpl] runs the program; what it returns, when it
    returns, is an object.  The object has a field [n] exactly when [env.n]
    is a non-empty string, holding what [exportedVars.nFunction] returned
    for it, a field [sig] exactly when [env.sig] is a non-empty string,
    holding what [exportedVars.sigFunction] returned for it, and no other
    field; [n] comes before [sig].  The [/eval] route answers 200 with
    these fields, less those whose value is [undefined]. *)
Theorem eval_result_fields (run_output : string -> EvalFn.script_outcome)
    (d : EvalFn.BuildScriptResult) (e : EvalFn.Env)
    (exported : option EvalFn.ExportedVars) :
  (forall a, Text.truthy (EvalFn.n e) = Some a -> Text.literal_safe a = true) ->
  (forall a, Text.truthy (EvalFn.sig e) = Some a -> Text.literal_safe a = true) ->
  run_output (EvalFn.output d) = EvalFn.FallsThrough exported ->
  exists r,
    EvalFn.evalFnImpl run_output d e = Some r
    /\ (forall v, r = Fulfilled v -> exists fs, v = EvalFn.VObject fs)
    /\ (forall fs, r = Fulfilled (EvalFn.VObject fs) ->
          (forall v, In ("n"%string, v) fs
             <-> exists a x, Text.truthy (EvalFn.n e) = Some a /\ exported = Some x
                             /\ EvalFn.nFunction x a = Fulfilled v)
          /\ (forall v, In ("sig"%string, v) fs
                <-> exists a x, Text.truthy (EvalFn.sig e) = Some a
                                /\ exported = Some x
                                /\ EvalFn.sigFunction x a = Fulfilled v)
          /\ map fst fs
             = match Text.truthy (EvalFn.n e) with
               | Some _ => ["n"%string]
               | None => []
               end
               ++ match Text.truthy (EvalFn.sig e) with
                  | Some _ => ["sig"%string]
                  | None => []
                  end
          /\ exists sent,
               Server.eval_route (EvalFn.evalFnImpl run_output)
                 (Some {| Server.data := Some d; Server.env := Some e |})
               = Server.Respond 200 (Server.EvalJson (Some (EvalFn.VObject sent)))
               /\ forall k v, In (k, v) sent
                    <-> In (k, v) fs /\ v <> EvalFn.AUndefined).
Proof.
  intros Hn Hs Hrun.
  pose proof (evalFnImpl_runs run_output d e (properties_well_formed e Hn Hs))
    as Hruns.
  exists (EvalFn.run_clause run_output d (EvalFn.properties e)).
  split; [exact Hruns | split].
  - intros v. unfold EvalFn.run_clause. rewrite Hrun.
    destruct (EvalFn.eval_literal _ _ _) as [fs | err]; [| discriminate].
    intros [= <-]. now exists fs.
  - intros fs Hfs.
    destruct (eval_fields_of run_output d e exported fs Hrun Hfs)
      as (H1 & H2 & H3).
    split_ands; [exact H1 | exact H2 | exact H3 |].
    exists (List.filter EvalFn.json_field fs). split.
    + unfold Server.eval_route. cbn [Server.data Server.env].
      rewrite Hruns, Hfs. reflexivity.
    + intros k v. apply json_fields_kept.
Qed.

Lemma eval_result_fields_witness :
  EvalFn.evalFnImpl Sample.run_output Sample.script
    {| EvalFn.n := Some "abc"%string; EvalFn.sig := Some "xyz"%string |}
  = Some (Fulfilled (EvalFn.VObject [("n"%string, EvalFn.AString "n-abc");
                                     ("sig"%string, EvalFn.AString "sig-xyz")]))
  /\ map fst [("n"%string, EvalFn.AString "n-abc");
              ("sig"%string, EvalFn.AString "sig-xyz")]
     = ["n"%string] ++ ["sig"%string].
Proof.
  destruct (eval_result_fields Sample.run_output Sample.script
              {| EvalFn.n := Some "abc"%string; EvalFn.sig := Some "xyz"%string |}
              (Some Sample.exported)
              ltac:(intros a [= <-]; reflexivity)
              ltac:(intros a [= <-]; reflexivity)
              eq_refl) as (r & Hr & _ & Hfs).
  vm_compute in Hr. injection Hr as <-.
  split; [reflexivity |].
  exact (proj1 (proj2 (proj2 (Hfs _ eq_refl)))).
Defined.

(** ** Autoplay *)

Lemma scan_down_spec (queue : list Autoplay.QueueItem) (u : string) (i : nat) :
  (Autoplay.scan_down queue u i = (-1)%Z
   /\ forall j, (j <= i)%nat -> Autoplay.at_uri queue u j = false)
  \/ exists k,
       Autoplay.scan_down queue u i = Z.of_nat k
       /\ (k <= i)%nat
       /\ Autoplay.at_uri queue u k = true
       /\ forall j, (k < j <= i)%nat -> Autoplay.at_uri queue u j = false.
Proof.
  induction i as [| i IH]; cbn [Autoplay.scan_down].
  - destruct (Autoplay.at_uri queue u 0) eqn:H0.
    + right. exists 0%nat. split_ands; try reflexivity; [exact H0 | intros j Hj; lia].
    + left. split; [reflexivity |]. intros j Hj.
      assert (j = 0)%nat as -> by lia. exact H0.
  - destruct (Autoplay.at_uri queue u (S i)) eqn:HS.
    + right. exists (S i). split_ands; try reflexivity; [exact HS | intros j Hj; lia].
    + destruct IH as [[Hr Hall] | (k & Hr & Hk & Hat & Hall)].
      * left. split; [exact Hr |]. intros j Hj.
        destruct (decide (j = S i)) as [-> | Hne]; [exact HS | apply Hall; lia].
      * right. exists k. split_ands; try assumption; [lia |].
        intros j Hj.
        destruct (decide (j = S i)) as [-> | Hne]; [exact HS | apply Hall; lia].
Qed.

Lemma at_uri_true (queue : list Autoplay.QueueItem) (u : string) (k : nat) :
  Autoplay.at_uri queue u k = true
  <-> exists q, queue !! k = Some q /\ Autoplay.uri q = u.
Proof.
  unfold Autoplay.at_uri. destruct (queue !! k) as [q |].
  - rewrite String.eqb_eq. split; [intros H; now exists q |].
    now intros (q' & [= <-] & H).
  - split; [discriminate | now intros (q & H & _)].
Qed.

Lemma at_uri_false (queue : list Autoplay.QueueItem) (u : string) (k : nat) :
  Autoplay.at_uri queue u k = false
  <-> forall q, queue !! k = Some q -> Autoplay.uri q <> u.
Proof.
  unfold Autoplay.at_uri. destruct (queue !! k) as [q |].
  - rewrite String.eqb_neq. split; [now intros H q' [= <-] |].
    intros H. now apply H.
  - split; [intros _ q; discriminate | reflexivity].
Qed.

Lemma find_index_cases (info : Autoplay.LastPlaybackInfo)
    (queue : list Autoplay.QueueItem) :
  let r := Autoplay.findLastPlayedTrackQueueIndex (Some info) queue in
  let u := Autoplay.uri (Autoplay.track info) in
  (r = (-1)%Z
   /\ forall j, (Z.of_nat j <= Autoplay.position info)%Z ->
        Autoplay.at_uri queue u j = false)
  \/ exists k,
       r = Z.of_nat k
       /\ (Z.of_nat k <= Autoplay.position info)%Z
       /\ Autoplay.at_uri queue u k = true
       /\ forall j, (k < j)%nat -> (Z.of_nat j <= Autoplay.position info)%Z ->
            Autoplay.at_uri queue u j = false.
Proof.
  cbn zeta. unfold Autoplay.findLastPlayedTrackQueueIndex.
  destruct (Autoplay.position info <? 0)%Z eqn:Hneg.
  - apply Z.ltb_lt in Hneg. left. split; [reflexivity |]. intros j Hj. lia.
  - apply Z.ltb_ge in Hneg.
    destruct (scan_down_spec queue (Autoplay.uri (Autoplay.track info))
                (Z.to_nat (Autoplay.position info)))
      as [[Hr Hall] | (k & Hr & Hk & Hat & Hall)].
    + left. split; [exact Hr |]. intros j Hj. apply Hall. lia.
    + right. exists k. split_ands; try assumption; [lia |].
      intros j Hlt Hj. apply Hall. lia.
Qed.

(** X20.  [#findLastPlayedTrackQueueIndex] returns the greatest index of
    the queue, not above the position of the last played track, whose item
    has the uri of that track; it returns -1 when there is no such index
    (in particular when the position is negative, or the queue is empty).
    Items of the queue above the position are never looked at. *)
Theorem last_played_index_is_greatest (info : Autoplay.LastPlaybackInfo)
    (queue : list Autoplay.QueueItem) :
  let r := Autoplay.findLastPlayedTrackQueueIndex (Some info) queue in
  let u := Autoplay.uri (Autoplay.track info) in
  (r = (-1)%Z
   /\ forall j q, (Z.of_nat j <= Autoplay.position info)%Z ->
        queue !! j = Some q -> Autoplay.uri q <> u)
  \/ exists k q,
       r = Z.of_nat k
       /\ (Z.of_nat k <= Autoplay.position info)%Z
       /\ queue !! k = Some q /\ Autoplay.uri q = u
       /\ forall j q', (k < j)%nat -> (Z.of_nat j <= Autoplay.position info)%Z ->
            queue !! j = Some q' -> Autoplay.uri q' <> u.
Proof.
  cbn zeta.
  destruct (find_index_cases info queue)
    as [[Hr Hall] | (k & Hr & Hk & Hat & Hall)]; cbn zeta in *.
  - left. split; [exact Hr |]. intros j q Hj.
    apply at_uri_false. now apply Hall.
  - right. apply at_uri_true in Hat as (q & Hq & Hu).
    exists k, q. split_ands; try assumption.
    intros j q' Hlt Hj. apply at_uri_false. now apply Hall.
Qed.

Lemma at_uri_end (front : list Autoplay.QueueItem) (q : Autoplay.QueueItem) :
  Autoplay.at_uri (front ++ [q]) (Autoplay.uri q) (length front) = true.
Proof.
  apply at_uri_true. exists q. split; [| reflexivity].
  rewrite lookup_app_r by lia. now rewrite Nat.sub_diag.
Qed.

Lemma check_triggered (state : Autoplay.PlayerState) (autoplay : bool)
    (lastPlaybackInfo : option Autoplay.LastPlaybackInfo)
    (queue : list Autoplay.QueueItem) :
  Autoplay.check state autoplay lastPlaybackInfo queue = Autoplay.Triggered
  <-> Autoplay.random state = false
      /\ Autoplay.repeat state = false
      /\ Autoplay.repeatSingle state = false
      /\ autoplay = true
      /\ exists info front q,
           lastPlaybackInfo = Some info
           /\ queue = front ++ [q]
           /\ Autoplay.uri q = Autoplay.uri (Autoplay.track info)
           /\ (Z.of_nat (length front) <= Autoplay.position info)%Z.
Proof.
  unfold Autoplay.check.
  destruct (Autoplay.random state), (Autoplay.repeat state),
    (Autoplay.repeatSingle state); cbn [orb];
    try (split; [discriminate | intros (? & ? & ? & _); discriminate]).
  destruct autoplay;
    [| split; [discriminate | intros (_ & _ & _ & ? & _); discriminate]].
  destruct lastPlaybackInfo as [info |];
    [| split; [discriminate
              | intros (_ & _ & _ & _ & i & f & q & ? & _); discriminate]].
  cbn zeta.
  destruct (find_index_cases info queue)
    as [[Hr Hall] | (k & Hr & Hk & Hat & Hall)]; cbn zeta in *; rewrite Hr.
  - cbn. split; [discriminate |].
    intros (_ & _ & _ & _ & i & front & q & [= <-] & -> & Hu & Hpos).
    specialize (Hall (length front) Hpos). rewrite <- Hu, at_uri_end in Hall.
    discriminate.
  - assert (Hlen : (k < length queue)%nat).
    { apply at_uri_true in Hat as (q & Hq & _). exact (lookup_lt_Some _ _ _ Hq). }
    destruct (Z.of_nat k <? 0)%Z eqn:Hneg; [apply Z.ltb_lt in Hneg; lia |].
    destruct (Z.of_nat (length queue) - 1 =? Z.of_nat k)%Z eqn:Hlast.
    + apply Z.eqb_eq in Hlast. split; [| reflexivity]. intros _.
      split_ands; try reflexivity.
      destruct queue as [| x queue' _] using rev_ind; [cbn in Hlen; lia |].
      rewrite length_app in Hlast. cbn in Hlast.
      assert (k = length queue') as -> by lia.
      apply at_uri_true in Hat as (q & Hq & Hu).
      rewrite lookup_app_r in Hq by lia. rewrite Nat.sub_diag in Hq.
      injection Hq as ->. now exists info, queue', q.
    + apply Z.eqb_neq in Hlast. split; [discriminate |].
      intros (_ & _ & _ & _ & i & front & q' & [= <-] & -> & Hu' & Hpos).
      rewrite length_app in Hlast, Hlen. cbn in Hlast, Hlen.
      assert (Hlt : (k < length front)%nat) by lia.
      specialize (Hall (length front) Hlt Hpos).
      rewrite <- Hu', at_uri_end in Hall. discriminate.
Qed.

Lemma handleAutoplay_triggered (state : Autoplay.PlayerState) (autoplay : bool)
    (info : Autoplay.LastPlaybackInfo) (queue : list Autoplay.QueueItem)
    (fetched : settled (list Autoplay.QueueItem)) (clearQueue : bool)
    (added : settled Z) :
  Autoplay.check state autoplay (Some info) queue = Autoplay.Triggered ->
  exists rest,
    fst (Autoplay.handleAutoplay state autoplay (Some info) queue fetched
           clearQueue added)
    = Autoplay.GetAutoplayItems info :: rest.
Proof.
  intros Hc. unfold Autoplay.handleAutoplay. rewrite Hc.
  destruct fetched as [[| i l] | e]; [| destruct added |]; cbn; eexists; reflexivity.
Qed.

Lemma handleAutoplay_idle (state : Autoplay.PlayerState) (autoplay : bool)
    (lastPlaybackInfo : option Autoplay.LastPlaybackInfo)
    (queue : list Autoplay.QueueItem)
    (fetched : settled (list Autoplay.QueueItem)) (clearQueue : bool)
    (added : settled Z) :
  Autoplay.check state autoplay lastPlaybackInfo queue <> Autoplay.Triggered ->
  Autoplay.handleAutoplay state autoplay lastPlaybackInfo queue fetched
    clearQueue added = ([], Autoplay.Done).
Proof.
  intros Hc. unfold Autoplay.handleAutoplay.
  destruct (Autoplay.check state autoplay lastPlaybackInfo queue);
    try reflexivity. now contradiction Hc.
Qed.

(** X21.  [#handleAutoplay] asks for autoplay items exactly when: random,
    repeat and repeat-single are all off; autoplay is configured; and the
    last item of the queue has the uri of the last played track, that track
    having been played at that position or after it.  Otherwise it does
    nothing: nothing is fetched, queued, played or emitted. *)
Theorem autoplay_trigger_condition (state : Autoplay.PlayerState) (autoplay : bool)
    (lastPlaybackInfo : option Autoplay.LastPlaybackInfo)
    (queue : list Autoplay.QueueItem) (fetched : settled (list Autoplay.QueueItem))
    (clearQueue : bool) (added : settled Z) :
  let done := Autoplay.handleAutoplay state autoplay lastPlaybackInfo queue
                fetched clearQueue added in
  ((exists info rest, fst done = Autoplay.GetAutoplayItems info :: rest
                      /\ lastPlaybackInfo = Some info)
   <-> Autoplay.random state = false
       /\ Autoplay.repeat state = false
       /\ Autoplay.repeatSingle state = false
       /\ autoplay = true
       /\ exists info front q,
            lastPlaybackInfo = Some info
            /\ queue = front ++ [q]
            /\ Autoplay.uri q = Autoplay.uri (Autoplay.track info)
            /\ (Z.of_nat (length front) <= Autoplay.position info)%Z)
  /\ ((forall info rest, fst done <> Autoplay.GetAutoplayItems info :: rest) ->
      done = ([], Autoplay.Done)).
Proof.
  cbn zeta. rewrite <- check_triggered. split.
  - split.
    + intros (info & rest & Hd & ->).
      destruct (Autoplay.check state autoplay (Some info) queue) eqn:Hc;
        try reflexivity;
        rewrite (handleAutoplay_idle _ _ _ _ fetched clearQueue added) in Hd
          by (rewrite Hc; discriminate);
        discriminate.
    + intros Hc. destruct lastPlaybackInfo as [info |].
      * destruct (handleAutoplay_triggered state autoplay info queue fetched
                    clearQueue added Hc) as [rest Hrest].
        now exists info, rest.
      * unfold Autoplay.check in Hc.
        destruct (_ || _ || _); [discriminate |]. destruct autoplay; discriminate.
  - intros H. apply handleAutoplay_idle. intros Hc.
    destruct lastPlaybackInfo as [info |].
    + destruct (handleAutoplay_triggered state autoplay info queue fetched
                  clearQueue added Hc) as [rest Hrest].
      exact (H info rest Hrest).
    + unfold Autoplay.check in Hc.
      destruct (_ || _ || _); [discriminate |]. destruct autoplay; discriminate.
Qed.

(** What the actions of [#handleAutoplay] presuppose. *)
Lemma autoplay_items_only (state : Autoplay.PlayerState) (autoplay : bool)
    (lastPlaybackInfo : option Autoplay.LastPlaybackInfo)
    (queue : list Autoplay.QueueItem) (fetched : settled (list Autoplay.QueueItem))
    (clearQueue : bool) (added : settled Z) :
  let done := Autoplay.handleAutoplay state autoplay lastPlaybackInfo queue
                fetched clearQueue added in
  (In Autoplay.ClearQueue (fst done) ->
     clearQueue = true
     /\ exists items before after,
          fetched = Fulfilled items /\ items <> []
          /\ fst done = before ++ Autoplay.ClearQueue
                          :: Autoplay.AddQueueItems items :: after)
  /\ (forall i, In (Autoplay.Play i) (fst done) ->
        added = Fulfilled i
        /\ exists items, items <> [] /\ In (Autoplay.AddQueueItems items) (fst done))
  /\ (forall items, In (Autoplay.EmitQueued items) (fst done) ->
        fetched = Fulfilled items /\ snd done = Autoplay.Done
        /\ (items <> [] -> exists i, added = Fulfilled i))
  /\ (forall e, snd done = Autoplay.Failed e -> fetched = Rejected e)
  /\ (snd done = Autoplay.Hangs ->
      exists e, added = Rejected e /\ forall items, ~ In (Autoplay.EmitQueued items) (fst done)).
Proof.
  cbn zeta. unfold Autoplay.handleAutoplay.
  destruct (Autoplay.check state autoplay lastPlaybackInfo queue);
    try (cbn; split_ands; intros; try contradiction; discriminate).
  destruct lastPlaybackInfo as [info |];
    [| cbn; split_ands; intros; try contradiction; discriminate].
  destruct fetched as [[| x items] | e].
  - cbn. split_ands.
    + intros [H | [H | []]]; discriminate.
    + intros i [H | [H | []]]; discriminate.
    + intros items [H | [H | []]]; try discriminate.
      injection H as <-. split_ands; try reflexivity. congruence.
    + discriminate.
    + discriminate.
  - destruct added as [i | e]; destruct clearQueue; cbn; split_ands;
      try discriminate;
      try (intros H; cbn [In app] in H;
           repeat (match type of H with
                   | _ \/ _ => destruct H as [H | H]; try discriminate
                   end);
           contradiction);
      try (intros y H; cbn [In app] in H;
           repeat (match type of H with
                   | _ \/ _ => destruct H as [H | H]; try discriminate
                   end);
           try contradiction).
    + intros _. split; [reflexivity |].
      exists (x :: items), [Autoplay.GetAutoplayItems info],
        [Autoplay.Play i; Autoplay.EmitQueued (x :: items)].
      split_ands; [reflexivity | discriminate | reflexivity].
    + injection H as <-. split; [reflexivity |]. exists (x :: items).
      split; [discriminate | cbn; tauto].
    + injection H as <-. split_ands; try reflexivity. intros _. now exists i.
    + injection H as <-. split; [reflexivity |]. exists (x :: items).
      split; [discriminate | cbn; tauto].
    + injection H as <-. split_ands; try reflexivity. intros _. now exists i.
    + intros _. split; [reflexivity |].
      exists (x :: items), [Autoplay.GetAutoplayItems info], [].
      split_ands; [reflexivity | discriminate | reflexivity].
    + intros _. exists e. split; [reflexivity |].
      intros y [H | [H | [H | []]]]; discriminate.
    + intros _. exists e. split; [reflexivity |].
      intros y [H | [H | []]]; discriminate.
  - cbn. split_ands.
    + intros [H | []]; discriminate.
    + intros i [H | []]; discriminate.
    + intros items [H | []]; discriminate.
    + now intros e' [= <-].
    + discriminate.
Qed.

(** X22.  What [#handleAutoplay] does with the items, once the checks have
    passed (the conditions of the trigger hold).  A failed fetch rejects
    the promise and nothing else is done.  When no item was fetched,
    'queued' is emitted with the empty list and nothing is added or played.
    When items were fetched, the queue is first cleared if
    [autoplayClearQueue] is set, the items are added, playback is started at
    the index [addQueueItems] gave, and 'queued' is emitted with the items;
    when [addQueueItems] fails nothing is played or emitted and the promise
    stays pending for ever.  Conversely the queue is cleared only when
    [autoplayClearQueue] is set and there are items, playback is started
    only at the index [addQueueItems] gave, and 'queued' is emitted only
    with the items fetched. *)
Theorem autoplay_items_handling (state : Autoplay.PlayerState) (autoplay : bool)
    (lastPlaybackInfo : option Autoplay.LastPlaybackInfo)
    (queue : list Autoplay.QueueItem) (fetched : settled (list Autoplay.QueueItem))
    (clearQueue : bool) (added : settled Z) :
  let done := Autoplay.handleAutoplay state autoplay lastPlaybackInfo queue
                fetched clearQueue added in
  let clear := if clearQueue then [Autoplay.ClearQueue] else [] in
  (forall info front q,
     Autoplay.random state = false -> Autoplay.repeat state = false ->
     Autoplay.repeatSingle state = false -> autoplay = true ->
     lastPlaybackInfo = Some info -> queue = front ++ [q] ->
     Autoplay.uri q = Autoplay.uri (Autoplay.track info) ->
     (Z.of_nat (length front) <= Autoplay.position info)%Z ->
     (forall e, fetched = Rejected e ->
        done = ([Autoplay.GetAutoplayItems info], Autoplay.Failed e))
     /\ (fetched = Fulfilled [] ->
         done = ([Autoplay.GetAutoplayItems info; Autoplay.EmitQueued []],
                 Autoplay.Done))
     /\ (forall items i,
           fetched = Fulfilled items -> items <> [] -> added = Fulfilled i ->
           done = (Autoplay.GetAutoplayItems info
                     :: clear ++ [Autoplay.AddQueueItems items; Autoplay.Play i;
                                  Autoplay.EmitQueued items],
                   Autoplay.Done))
     /\ (forall items e,
           fetched = Fulfilled items -> items <> [] -> added = Rejected e ->
           done = (Autoplay.GetAutoplayItems info
                     :: clear ++ [Autoplay.AddQueueItems items],
                   Autoplay.Hangs)))
  /\ ((In Autoplay.ClearQueue (fst done) ->
     clearQueue = true
     /\ exists items before after,
          fetched = Fulfilled items /\ items <> []
          /\ fst done = before ++ Autoplay.ClearQueue
                          :: Autoplay.AddQueueItems items :: after)
  /\ (forall i, In (Autoplay.Play i) (fst done) ->
        added = Fulfilled i
        /\ exists items, items <> [] /\ In (Autoplay.AddQueueItems items) (fst done))
  /\ (forall items, In (Autoplay.EmitQueued items) (fst done) ->
        fetched = Fulfilled items /\ snd done = Autoplay.Done
        /\ (items <> [] -> exists i, added = Fulfilled i))
  /\ (forall e, snd done = Autoplay.Failed e -> fetched = Rejected e)
  /\ (snd done = Autoplay.Hangs ->
      exists e, added = Rejected e /\ forall items, ~ In (Autoplay.EmitQueued items) (fst done))).
Proof.
  cbn zeta. split; [| apply autoplay_items_only].
  intros info front q Hr Hp Hs Ha Hl Hq Hu Hpos.
  assert (Hc : Autoplay.check state autoplay lastPlaybackInfo queue
               = Autoplay.Triggered).
  { apply check_triggered. split_ands; try assumption.
    now exists info, front, q. }
  unfold Autoplay.handleAutoplay. rewrite Hc, Hl. split_ands.
  - now intros e ->.
  - now intros ->.
  - intros items i -> Hne ->. destruct items; [congruence | reflexivity].
  - intros items e -> Hne ->. destruct items; [congruence | reflexivity].
Qed.

Lemma autoplay_items_handling_witness :
  Autoplay.handleAutoplay
    {| Autoplay.random := false; Autoplay.repeat := false;
       Autoplay.repeatSingle := false |}
    true
    (Some {| Autoplay.track :=
               {| Autoplay.service := "youtube2"; Autoplay.uri := "youtube2/a";
                  Autoplay.name := "a"; Autoplay.title := "a" |};
             Autoplay.position := 0 |})
    [ {| Autoplay.service := "youtube2"; Autoplay.uri := "youtube2/a";
         Autoplay.name := "a"; Autoplay.title := "a" |} ]
    (Fulfilled [ {| Autoplay.service := "youtube2"; Autoplay.uri := "youtube2/b";
                    Autoplay.name := "b"; Autoplay.title := "b" |} ])
    true (Fulfilled 1)
  = ([ Autoplay.GetAutoplayItems
         {| Autoplay.track :=
              {| Autoplay.service := "youtube2"; Autoplay.uri := "youtube2/a";
                 Autoplay.name := "a"; Autoplay.title := "a" |};
            Autoplay.position := 0 |};
       Autoplay.ClearQueue;
       Autoplay.AddQueueItems
         [ {| Autoplay.service := "youtube2"; Autoplay.uri := "youtube2/b";
              Autoplay.name := "b"; Autoplay.title := "b" |} ];
       Autoplay.Play 1;
       Autoplay.EmitQueued
         [ {| Autoplay.service := "youtube2"; Autoplay.uri := "youtube2/b";
              Autoplay.name := "b"; Autoplay.title := "b" |} ] ],
     Autoplay.Done).
Proof.
  pose proof (autoplay_items_handling
                {| Autoplay.random := false; Autoplay.repeat := false;
                   Autoplay.repeatSingle := false |}
                true
                (Some {| Autoplay.track :=
                           {| Autoplay.service := "youtube2";
                              Autoplay.uri := "youtube2/a";
                              Autoplay.name := "a"; Autoplay.title := "a" |};
                         Autoplay.position := 0 |})
                [ {| Autoplay.service := "youtube2"; Autoplay.uri := "youtube2/a";
                     Autoplay.name := "a"; Autoplay.title := "a" |} ]
                (Fulfilled [ {| Autoplay.service := "youtube2";
                                Autoplay.uri := "youtube2/b";
                                Autoplay.name := "b"; Autoplay.title := "b" |} ])
                true (Fulfilled 1)) as [H _].
  destruct (H _ [] _ eq_refl eq_refl eq_refl eq_refl eq_refl eq_refl eq_refl
              ltac:(cbn; lia)) as (_ & _ & Hadd & _).
  exact (Hadd _ 1 eq_refl ltac:(discriminate) eq_refl).
Defined.

(** ** The shim and the [/eval] route *)

(** X23.  [#eval] (installed as [Platform.shim.eval]) and
    [generatePoToken] are guarded alike: in a wrapper that is disposed or
    has no started service both are rejected, with the same error, before
    any request is sent; otherwise both send their request to the address
    and port the service reported when it was spawned.  The body [#eval]
    sends always has [data] and [env], so the [/eval] route of the server
    never refuses it for a missing field: it answers with what [evalFn]
    gives for these two. *)
Theorem eval_reaches_evalFn (d : EvalFn.BuildScriptResult) (e : EvalFn.Env)
    (s : Wrapper.state) (ident : string)
    (evalFn : EvalFn.BuildScriptResult -> EvalFn.Env -> option (settled EvalFn.value)) :
  match WrapperEval.eval d e s with
  | Returned req =>
      Wrapper.disposed s = false
      /\ (exists svc, Wrapper.service s = Some svc
            /\ Spawn.payload svc
               = Service.Started (WrapperEval.to_address req) (WrapperEval.to_port req))
      /\ Wrapper.generatePoToken ident s
         = Returned {| Wrapper.to_address := WrapperEval.to_address req;
                       Wrapper.to_port := WrapperEval.to_port req;
                       Wrapper.for_identifier := ident |}
      /\ Server.eval_route evalFn (Some (WrapperEval.body req))
         = match evalFn d e with
           | None => Server.Unmodelled
           | Some (Rejected err) => Server.Escapes err
           | Some (Fulfilled v) =>
               Server.Respond 200 (Server.EvalJson (EvalFn.to_json v))
           end
  | RejectedNow err =>
      Wrapper.generatePoToken ident s = RejectedNow err
      /\ (Wrapper.disposed s = true
          \/ Wrapper.service s = None
          \/ exists svc, Wrapper.service s = Some svc
                         /\ Spawn.payload svc = Service.Stopped)
  | Thrown _ => False
  end.
Proof.
  unfold WrapperEval.eval, Wrapper.generatePoToken.
  destruct (Wrapper.disposed s) eqn:Hd; [split; [reflexivity | now left] |].
  destruct (Wrapper.service s) as [svc |] eqn:Hs;
    [| split; [reflexivity | right; now left]].
  destruct (Spawn.payload svc) as [| a p] eqn:Hp.
  - split; [reflexivity |]. right. right. now exists svc.
  - cbn. split_ands; try reflexivity. now exists svc.
Qed.

(** ** The subprocess and its parent *)

Lemma client_settled_resolves (p : nat) (sp : option Wrapper.POToken)
    (c : Wrapper.Innertube) (s : Wrapper.state) :
  Wrapper.disposed s = false ->
  Wrapper.sessions (Wrapper.client_settled p sp (Fulfilled c) s) !! p
  = Some (Fulfilled (Wrapper.instance c)).
Proof.
  intros Hd. unfold Wrapper.client_settled.
  destruct (applyLocale_live (Wrapper.set_innertube (Some c) s) Hd)
    as (s2 & E & _).
  rewrite E. unfold Wrapper.finish, Wrapper.set_sessions.
  cbn [Wrapper.sessions]. apply lookup_insert_eq.
Qed.

Lemma create_started (acct : option Wrapper.AccountConfig) (loc : Wrapper.Locale)
    (svc : Spawn.SpawnedInnertubeSupportService) (evs : list Wrapper.event)
    (a : string) (port : Z) :
  Spawn.payload svc = Service.Started a port ->
  let w := Wrapper.run evs
             (snd (Wrapper.initInnertubePromise (Wrapper.fresh acct loc svc))) in
  Wrapper.create acct loc svc evs
  = (match Wrapper.sessions w !! 0%nat with
     | None => Wrapper.CreatePending
     | Some (Fulfilled _) => Wrapper.CreateResolved
     | Some (Rejected e) => Wrapper.CreateRejected e
     end, Some w).
Proof. intros H. unfold Wrapper.create. rewrite H. reflexivity. Qed.

Section ScriptFacts.

Variable JSON_stringify : Service.InnertubeSupportServiceStatus -> string.
Variable JSON_parse : string -> string + Service.InnertubeSupportServiceStatus.

(** X24.  The run script and the spawn, end to end.  When the service
    starts in the subprocess, listening at [a], the script prints one
    result line; provided [JSON.parse] reads back what [JSON.stringify]
    wrote, the promise of the spawn is resolved with the status [started]
    at that address, whatever the subprocess prints or does later.
    [create] then passes its check of the status, starts the first
    construction of the client and awaits it: it is pending until that
    construction settles, it is rejected with the error of the construction
    when the session token or the client fails, and it resolves when the
    client is there, with a wrapper whose token requests go to that
    address.  When the service fails to start, the script prints no result
    line at all. *)
Theorem spawned_script_reports_start (d : Spawn.DenoInstallStatus)
    (proc_pid : option nat) (a : Server.AddressInfo)
    (later : list Spawn.event) (acct : option Wrapper.AccountConfig)
    (loc : Wrapper.Locale) :
  let status := Service.Started (Server.address a) (Server.port a) in
  JSON_parse (JSON_stringify status) = inr status ->
  let s := Spawn.run JSON_parse
             (RunScript.output JSON_stringify (inr a) ++ later)
             (Spawn.spawnInnertubeSupportService d proc_pid) in
  (exists svc,
      Spawn.promise s = Some (Fulfilled svc)
      /\ Spawn.payload svc = status
      /\ (exists w,
            Wrapper.create acct loc svc [] = (Wrapper.CreatePending, Some w)
            /\ Wrapper.constructions w = 1%nat
            /\ Wrapper.innertubePromise w = Some 0%nat
            /\ Wrapper.tasks w !! 0%nat = Some Wrapper.AwaitToken)
      /\ (forall pot,
            fst (Wrapper.create acct loc svc
                   [Wrapper.TokenSettled 0 (Fulfilled pot)])
            = Wrapper.CreatePending)
      /\ (forall err,
            fst (Wrapper.create acct loc svc
                   [Wrapper.TokenSettled 0 (Rejected err)])
            = Wrapper.CreateRejected err)
      /\ (forall pot err,
            fst (Wrapper.create acct loc svc
                   [Wrapper.TokenSettled 0 (Fulfilled pot);
                    Wrapper.ClientSettled 0 (Rejected err)])
            = Wrapper.CreateRejected err)
      /\ (forall pot c, exists w,
            Wrapper.create acct loc svc
              [Wrapper.TokenSettled 0 (Fulfilled pot);
               Wrapper.ClientSettled 0 (Fulfilled c)]
            = (Wrapper.CreateResolved, Some w)
            /\ Wrapper.sessions w !! 0%nat = Some (Fulfilled (Wrapper.instance c))
            /\ forall ident,
                 Wrapper.generatePoToken ident w
                 = Returned {| Wrapper.to_address := Server.address a;
                               Wrapper.to_port := Server.port a;
                               Wrapper.for_identifier := ident |}))
  /\ (forall err, RunScript.printed JSON_stringify (inl err) = []).
Proof.
  intros status Hjson s. split; [| reflexivity].
  set (svc := {| Spawn.payload := status;
                 Spawn.runtime_used :=
                   Spawn.used (Spawn.spawnInnertubeSupportService d proc_pid) |}).
  exists svc. split_ands.
  - unfold s, RunScript.output, RunScript.printed. cbn [Service.start snd
      Service.startPromise Service.lifecycle0 Server.start Server.new
      Server.startPromise flat_map app].
    change (Spawn.run JSON_parse (?e1 :: ?e2 :: later) ?s0)
      with (Spawn.run JSON_parse later
              (Spawn.step JSON_parse e2 (Spawn.step JSON_parse e1 s0))).
    apply spawn_run_settled.
    destruct (spawn_initially_pending d proc_pid) as (Hp0 & _).
    rewrite ready_line_settles by (cbn; exact Hp0).
    fold status. rewrite Hjson. reflexivity.
  - reflexivity.
  - eexists. split_ands; reflexivity.
  - intros [pot |]; reflexivity.
  - intros err. reflexivity.
  - intros [pot |] err; reflexivity.
  - intros pot c.
    set (s1 := Wrapper.run [Wrapper.TokenSettled 0 (Fulfilled pot)]
                 (snd (Wrapper.initInnertubePromise (Wrapper.fresh acct loc svc)))).
    set (w := Wrapper.client_settled 0 pot (Fulfilled c) s1).
    assert (Hd : Wrapper.disposed s1 = false) by (destruct pot; reflexivity).
    assert (Hsvc : Wrapper.service s1 = Some svc) by (destruct pot; reflexivity).
    assert (Hw : Wrapper.run [Wrapper.TokenSettled 0 (Fulfilled pot);
                              Wrapper.ClientSettled 0 (Fulfilled c)]
                   (snd (Wrapper.initInnertubePromise (Wrapper.fresh acct loc svc)))
                 = w).
    { assert (Ht : Wrapper.tasks s1 !! 0%nat = Some (Wrapper.AwaitClient pot))
        by (destruct pot; reflexivity).
      change (Wrapper.step (Wrapper.ClientSettled 0 (Fulfilled c)) s1 = w).
      cbn [Wrapper.step]. rewrite Ht. reflexivity. }
    pose proof (client_settled_resolves 0 pot c s1 Hd) as Hres. fold w in Hres.
    destruct (client_settled_fields 0 pot (Fulfilled c) s1) as (Hdw & _).
    destruct (client_settled_more 0 pot (Fulfilled c) s1) as (_ & _ & Hsw & _).
    fold w in Hdw, Hsw. exists w. split_ands.
    + rewrite (create_started acct loc svc _ _ _ eq_refl). cbn zeta.
      rewrite Hw, Hres. reflexivity.
    + exact Hres.
    + intros ident. unfold Wrapper.generatePoToken.
      rewrite Hdw, Hd, Hsw, Hsvc. reflexivity.
Qed.

End ScriptFacts.

Lemma spawned_script_reports_start_witness :
  Sample.JSON_stringify_status (Service.Started "127.0.0.1" 40123)
  = "started at 127.0.0.1"%string
  /\ (exists svc,
        Spawn.promise
          (Spawn.run Sample.JSON_parse_status
             (RunScript.output Sample.JSON_stringify_status (inr Sample.address)
                ++ [Spawn.Close (Some 0)])
             (Spawn.spawnInnertubeSupportService (Spawn.Installed "2.1.4")
                (Some 4242%nat)))
        = Some (Fulfilled svc)
        /\ Spawn.payload svc = Service.Started "127.0.0.1" 40123
        /\ fst (Wrapper.create None Sample.locale svc
                  [Wrapper.TokenSettled 0 (Rejected "no session token")])
           = Wrapper.CreateRejected "no session token")
  /\ RunScript.printed Sample.JSON_stringify_status (inl "EADDRNOTAVAIL") = [].
Proof.
  destruct (spawned_script_reports_start Sample.JSON_stringify_status
              Sample.JSON_parse_status (Spawn.Installed "2.1.4") (Some 4242%nat)
              Sample.address [Spawn.Close (Some 0)] None Sample.locale eq_refl)
    as [(svc & Hp & Hpay & _ & _ & Hrej & _) Hnone].
  split; [reflexivity | split].
  - exists svc. split; [exact Hp | split; [exact Hpay | apply Hrej]].
  - apply Hnone.
Defined.

(** ** The refresh cycles *)

Lemma applyLocale_keeps_token (s s' : Wrapper.state) :
  Wrapper.applyLocale s = inr s' ->
  Wrapper.lastSessionPoToken s' = Wrapper.lastSessionPoToken s.
Proof.
  unfold Wrapper.applyLocale. destruct (Wrapper.disposed s); [discriminate |].
  destruct (Wrapper.innertube s); now intros [= <-].
Qed.

Lemma arm_refresh_keeps_token (pot : Wrapper.POToken) (s : Wrapper.state) :
  Wrapper.lastSessionPoToken (Wrapper.arm_refresh pot s)
  = Wrapper.lastSessionPoToken s.
Proof.
  unfold Wrapper.arm_refresh. destruct (Wrapper.ttl pot) as [t |]; [| reflexivity].
  now destruct (t =? 0)%Z.
Qed.

(** The timer that [arm_refresh] leaves, by the [ttl] of the token. *)
Lemma arm_refresh_timer (pot : Wrapper.POToken) (s : Wrapper.state) :
  EventLoop.pending (Wrapper.loop s) = ∅ ->
  match Wrapper.ttl pot with
  | Some t =>
      if (t =? 0)%Z then EventLoop.pending (Wrapper.loop (Wrapper.arm_refresh pot s)) = ∅
      else
        exists h,
          Wrapper.poTokenRefreshTimer (Wrapper.arm_refresh pot s) = Some h
          /\ EventLoop.pending (Wrapper.loop (Wrapper.arm_refresh pot s))
             = {[h := (Wrapper.session_timeout t (Wrapper.refreshThreshold pot) * 1000)%Z]}
  | None => EventLoop.pending (Wrapper.loop (Wrapper.arm_refresh pot s)) = ∅
  end.
Proof.
  intros Hp. unfold Wrapper.arm_refresh.
  destruct (Wrapper.ttl pot) as [t |]; [| exact Hp].
  destruct (t =? 0)%Z; [exact Hp |].
  cbn. eexists. split; [reflexivity |]. rewrite Hp. apply insert_empty.
Qed.

Lemma client_arrives (p : nat) (pot : Wrapper.POToken) (c : Wrapper.Innertube)
    (s : Wrapper.state) :
  Wrapper.disposed s = false ->
  EventLoop.pending (Wrapper.loop s) = ∅ ->
  let s' := Wrapper.client_settled p (Some pot) (Fulfilled c) s in
  Wrapper.sessions s' !! p = Some (Fulfilled (Wrapper.instance c))
  /\ Wrapper.lastSessionPoToken s' = Wrapper.lastSessionPoToken s
  /\ (Wrapper.instance <$> Wrapper.innertube s') = Some (Wrapper.instance c)
  /\ match Wrapper.ttl pot with
     | Some t =>
         if (t =? 0)%Z then EventLoop.pending (Wrapper.loop s') = ∅
         else
           exists h,
             Wrapper.poTokenRefreshTimer s' = Some h
             /\ EventLoop.pending (Wrapper.loop s')
                = {[h := (Wrapper.session_timeout t (Wrapper.refreshThreshold pot) * 1000)%Z]}
     | None => EventLoop.pending (Wrapper.loop s') = ∅
     end.
Proof.
  intros Hd Hp. cbn zeta. unfold Wrapper.client_settled.
  destruct (applyLocale_live (Wrapper.set_innertube (Some c) s) Hd)
    as (s2 & Ha & Hl & _ & _ & _ & _ & _ & _ & Hinst).
  rewrite Ha. pose proof (applyLocale_keeps_token _ _ Ha) as Hk.
  cbn [Wrapper.set_innertube Wrapper.lastSessionPoToken Wrapper.loop
       Wrapper.innertube fmap option_fmap option_map] in Hk, Hl, Hinst.
  assert (Hp2 : EventLoop.pending (Wrapper.loop s2) = ∅) by (now rewrite Hl).
  pose proof (arm_refresh_timer pot s2 Hp2) as Ht.
  pose proof (arm_refresh_keeps_token pot s2) as Hk2.
  destruct (arm_refresh_frame pot s2) as (_ & _ & _ & Hi & _).
  set (s3 := Wrapper.arm_refresh pot s2) in *. clearbody s3.
  unfold_setters. split_ands.
  - apply lookup_insert_eq.
  - congruence.
  - now rewrite Hi.
  - exact Ht.
Qed.

(** X25.  One turn of the session refresh.  When the refresh timer of a
    wrapper fires, a construction is started at once and its promise
    replaces the cached one; when the session token and then the client
    arrive, that promise is fulfilled with the new client, the token becomes
    the last session token, and the refresh timer is armed again, alone,
    with the delay of the new token; a token without [ttl] (or with [ttl]
    zero) ends the chain: no timer is left. *)
Theorem session_refresh_cycle (acct : option Wrapper.AccountConfig)
    (loc : Wrapper.Locale) (svc : Spawn.SpawnedInnertubeSupportService)
    (before : list Wrapper.event) (h : nat) (ms : Z)
    (pot : Wrapper.POToken) (c : Wrapper.Innertube) :
  let w := Wrapper.run before (Wrapper.fresh acct loc svc) in
  EventLoop.pending (Wrapper.loop w) !! h = Some ms ->
  let p := Wrapper.next_promise w in
  let w1 := Wrapper.step (Wrapper.TimerFired h) w in
  let w2 := Wrapper.step (Wrapper.TokenSettled p (Fulfilled (Some pot))) w1 in
  let w3 := Wrapper.step (Wrapper.ClientSettled p (Fulfilled c)) w2 in
  (Wrapper.innertubePromise w1 = Some p
   /\ Wrapper.tasks w1 = {[p := Wrapper.AwaitToken]}
   /\ EventLoop.pending (Wrapper.loop w1) = ∅
   /\ Wrapper.constructions w1 = S (Wrapper.constructions w))
  /\ (Wrapper.innertubePromise w3 = Some p
      /\ Wrapper.sessions w3 !! p = Some (Fulfilled (Wrapper.instance c))
      /\ (Wrapper.instance <$> Wrapper.innertube w3) = Some (Wrapper.instance c)
      /\ Wrapper.lastSessionPoToken w3 = Some pot
      /\ Wrapper.tasks w3 = ∅
      /\ Wrapper.constructions w3 = S (Wrapper.constructions w))
  /\ match Wrapper.ttl pot with
     | Some t =>
         if (t =? 0)%Z then EventLoop.pending (Wrapper.loop w3) = ∅
         else
           exists h',
             Wrapper.poTokenRefreshTimer w3 = Some h'
             /\ EventLoop.pending (Wrapper.loop w3)
                = {[h' := (Wrapper.session_timeout t (Wrapper.refreshThreshold pot) * 1000)%Z]}
     | None => EventLoop.pending (Wrapper.loop w3) = ∅
     end.
Proof.
  intros w Hh p w1 w2 w3.
  assert (Hw : wrapper_shape w) by (apply wrapper_run_shape, fresh_shape).
  assert (Harmed : Wrapper.disposed w = false /\ Wrapper.tasks w = ∅
                   /\ Wrapper.poTokenRefreshTimer w = Some h
                   /\ EventLoop.pending (Wrapper.loop w) = {[h := ms]}).
  { destruct Hw as [H1 H2 H3 H4 | q st H1 H2 H3 H4 | q h' ms' H1 H2 H3 H4 H5
                    | q H1 H2 H3 H4 | H1 H3 H4 | q st H1 H3 H4];
      try (rewrite H4, lookup_empty in Hh; discriminate).
    rewrite H5 in Hh. apply lookup_singleton_Some in Hh as [-> ->].
    now repeat split. }
  destruct Harmed as (Hd & Ht & Hr & Hp).
  set (w0 := Wrapper.set_loop (EventLoop.fire h (Wrapper.loop w)) w).
  assert (Hw1 : w1 = Wrapper.refreshSessionPoToken w0).
  { unfold w1. cbn [Wrapper.step].
    destruct (decide (is_Some (EventLoop.pending (Wrapper.loop w) !! h)))
      as [_ | Hn]; [reflexivity |].
    exfalso. apply Hn. rewrite Hp, lookup_singleton_eq. now eexists. }
  assert (Hp0 : EventLoop.pending (Wrapper.loop (Wrapper.clearPoTokenRefreshTimer w0)) = ∅).
  { apply clearPoTokenRefreshTimer_idle. unfold w0. cbn. rewrite Hp.
    apply delete_singleton_eq. }
  destruct (refreshSessionPoToken_fields w0 Ht Hp0) as (R1 & R2 & R3 & R4 & R5).
  cbn zeta in *. rewrite <- Hw1 in R1, R2, R3, R4, R5.
  change (Wrapper.next_promise w0) with p in R2, R3.
  change (Wrapper.disposed w0) with (Wrapper.disposed w) in R1.
  change (Wrapper.constructions w0) with (Wrapper.constructions w) in R5.
  clearbody w1. clear Hw1 Hp0 w0.
  assert (Hw2 : w2 = Wrapper.set_tasks
                       (<[p := Wrapper.AwaitClient (Some pot)]> (Wrapper.tasks w1))
                       (Wrapper.set_lastSessionPoToken (Some pot) w1)).
  { assert (Hl1 : Wrapper.tasks w1 !! p = Some Wrapper.AwaitToken)
      by (rewrite R3; apply lookup_singleton_eq).
    unfold w2. cbn [Wrapper.step]. now rewrite Hl1. }
  assert (F2 : Wrapper.disposed w2 = false
               /\ EventLoop.pending (Wrapper.loop w2) = ∅
               /\ Wrapper.tasks w2 = {[p := Wrapper.AwaitClient (Some pot)]}
               /\ Wrapper.lastSessionPoToken w2 = Some pot
               /\ Wrapper.innertubePromise w2 = Some p
               /\ Wrapper.constructions w2 = S (Wrapper.constructions w)).
  { rewrite Hw2. unfold_setters. rewrite R3, insert_singleton_eq.
    split_ands; try reflexivity; congruence. }
  clearbody w2. clear Hw2.
  destruct F2 as (D2 & P2 & T2 & L2 & I2 & C2).
  assert (Hw3 : w3 = Wrapper.client_settled p (Some pot) (Fulfilled c) w2).
  { assert (Hl2 : Wrapper.tasks w2 !! p = Some (Wrapper.AwaitClient (Some pot)))
      by (rewrite T2; apply lookup_singleton_eq).
    unfold w3. cbn [Wrapper.step]. now rewrite Hl2. }
  destruct (client_arrives p pot c w2 D2 P2) as (A1 & A2 & A3 & A4).
  destruct (client_settled_fields p (Some pot) (Fulfilled c) w2)
    as (_ & B2 & B3 & B4 & _).
  cbn zeta in *. rewrite <- Hw3 in A1, A2, A3, A4, B2, B3, B4.
  split_ands; try assumption; try congruence.
  rewrite B3, T2. apply delete_singleton_eq.
Qed.

Lemma session_refresh_cycle_witness :
  let w := Wrapper.run
             [Wrapper.GetInnertube;
              Wrapper.TokenSettled 0 (Fulfilled (Some (Sample.sessionPot (Some 600) None)));
              Wrapper.ClientSettled 0 (Fulfilled Sample.client)]
             (Wrapper.fresh None Sample.locale Sample.spawned) in
  let w1 := Wrapper.step (Wrapper.TimerFired 0) w in
  Wrapper.innertubePromise w1 = Some (Wrapper.next_promise w)
  /\ Wrapper.tasks w1 = {[Wrapper.next_promise w := Wrapper.AwaitToken]}
  /\ EventLoop.pending (Wrapper.loop w1) = ∅
  /\ Wrapper.constructions w1 = S (Wrapper.constructions w).
Proof.
  refine (proj1 (session_refresh_cycle None Sample.locale Sample.spawned
            [Wrapper.GetInnertube;
             Wrapper.TokenSettled 0 (Fulfilled (Some (Sample.sessionPot (Some 600) None)));
             Wrapper.ClientSettled 0 (Fulfilled Sample.client)]
            0 500000 (Sample.sessionPot (Some 300) (Some 100))
            {| Wrapper.instance := 2; Wrapper.gl := None; Wrapper.hl := None |} _)).
  vm_compute. reflexivity.
Defined.

Lemma service_promise_below_next (evs : list Service.event) (s : Service.minting) :
  (forall q, Service.minterPromise s = Some q -> (q < Service.next_promise s)%nat) ->
  forall q, Service.minterPromise (Service.run evs s) = Some q ->
            (q < Service.next_promise (Service.run evs s))%nat.
Proof.
  revert s. induction evs as [| e evs IH]; intros s H; [exact H |].
  change (Service.run (e :: evs) s) with (Service.run evs (Service.step e s)).
  apply IH. clear IH. destruct e as [| p r | h]; cbn [Service.step].
  - unfold Service.getMinter.
    destruct (Service.minterPromise s) as [q0 |] eqn:Hm;
      [cbn [snd]; rewrite Hm; exact H |].
    unfold Service.createMinter, Service.clearRefreshMinterTimer. cbn.
    intros q [= <-]. lia.
  - destruct (decide (p ∈ Service.creating s)); [| exact H].
    unfold Service.createMinter_resume. destruct r; cbn; exact H.
  - destruct (decide _); [| exact H].
    unfold Service.refresh_callback, Service.createMinter,
      Service.clearRefreshMinterTimer. cbn.
    intros q [= <-]. lia.
Qed.

(** X26.  One turn of the minter refresh.  When the refresh timer of the
    service fires, a new creation is started at once and its promise
    replaces the cached one: requests that arrive during the refresh wait
    for the new minter and are no longer given the previous one.  When the
    exchange succeeds, that promise is fulfilled with the new minter and the
    refresh timer is armed again, alone, with the delay of the new
    minter. *)
Theorem minter_refresh_cycle (before : list Service.event) (h : nat) (ms : Z)
    (r : PoToken.PoTokenMinterResult) :
  let s := Service.run before Service.minting0 in
  EventLoop.pending (Service.loop s) !! h = Some ms ->
  let p := Service.next_promise s in
  let s1 := Service.step (Service.TimerFired h) s in
  let s2 := Service.step (Service.ExchangeSettled p (Fulfilled r)) s1 in
  (Service.minterPromise s <> Some p
   /\ Service.minterPromise s1 = Some p
   /\ fst (Service.getMinter false s1) = p
   /\ Service.creating s1 = {[p]}
   /\ EventLoop.pending (Service.loop s1) = ∅
   /\ Service.exchanges s1 = S (Service.exchanges s))
  /\ (Service.minterPromise s2 = Some p
      /\ Service.minters s2 !! p = Some (Fulfilled r)
      /\ Service.creating s2 = ∅
      /\ Service.exchanges s2 = S (Service.exchanges s)
      /\ exists h',
           Service.refreshMinterTimer s2 = Some h'
           /\ EventLoop.pending (Service.loop s2)
              = {[h' := (Service.refresh_timeout (PoToken.ttl r)
                           (PoToken.refreshThreshold r) * 1000)%Z]}).
Proof.
  intros s Hh p s1 s2.
  assert (Hs : minting_shape s) by (apply run_shape, minting0_shape).
  assert (Hold : Service.minterPromise s <> Some p).
  { intros Hm.
    assert ((p < Service.next_promise s)%nat); [| unfold p in *; lia].
    apply (service_promise_below_next before Service.minting0);
      [intros q; discriminate | exact Hm]. }
  destruct Hs as [Hm Hc Hp | q Hm Hc Hp | q h' ms' Hm Hc Ht Hp | q Hm Hc Hp];
    try (rewrite Hp, lookup_empty in Hh; discriminate).
  rewrite Hp in Hh. apply lookup_singleton_Some in Hh as [-> ->].
  assert (F1 : Service.minterPromise s1 = Some p
               /\ Service.creating s1 = {[p]}
               /\ EventLoop.pending (Service.loop s1) = ∅
               /\ Service.exchanges s1 = S (Service.exchanges s)).
  { unfold s1. cbn [Service.step].
    destruct (decide (is_Some (EventLoop.pending (Service.loop s) !! h)))
      as [_ | Hn]; [| exfalso; apply Hn; rewrite Hp, lookup_singleton_eq; now eexists].
    unfold Service.refresh_callback, Service.createMinter,
      Service.clearRefreshMinterTimer. cbn. rewrite Ht. cbn.
    split_ands; try reflexivity.
    - rewrite Hc. apply union_empty_r_L.
    - rewrite Hp, delete_singleton_eq. apply delete_empty. }
  clearbody s1. destruct F1 as (M1 & C1 & P1 & E1).
  split.
  - split_ands; try assumption. unfold Service.getMinter. now rewrite M1.
  - unfold s2. cbn [Service.step].
    destruct (decide (p ∈ Service.creating s1)) as [_ | Hn];
      [| exfalso; apply Hn; rewrite C1; now apply elem_of_singleton].
    unfold Service.createMinter_resume, EventLoop.setTimeout. cbn.
    split_ands; try assumption.
    + apply lookup_insert_eq.
    + rewrite C1. apply difference_diag_L.
    + eexists. split; [reflexivity |]. rewrite P1. apply insert_empty.
Qed.

Lemma minter_refresh_cycle_witness :
  let s := Service.run
             [Service.PotRequest;
              Service.ExchangeSettled 0 (Fulfilled (Sample.minterResult 500 (Some 100)))]
             Service.minting0 in
  let s1 := Service.step (Service.TimerFired 0) s in
  Service.minterPromise s <> Some (Service.next_promise s)
  /\ Service.minterPromise s1 = Some (Service.next_promise s)
  /\ fst (Service.getMinter false s1) = Service.next_promise s
  /\ Service.creating s1 = {[Service.next_promise s]}
  /\ EventLoop.pending (Service.loop s1) = ∅
  /\ Service.exchanges s1 = S (Service.exchanges s).
Proof.
  refine (proj1 (minter_refresh_cycle
            [Service.PotRequest;
             Service.ExchangeSettled 0 (Fulfilled (Sample.minterResult 500 (Some 100)))]
            0 300000 (Sample.minterResult 600 None) _)).
  vm_compute. reflexivity.
Defined.

(** ** The listeners of the autoplay manager *)

Lemma remove_first_last (x : AutoplayManager.listener)
    (l : list AutoplayManager.listener) :
  ~ In x l -> AutoplayManager.remove_first x (l ++ [x]) = l.
Proof.
  induction l as [| y l IH]; intros Hn; cbn.
  - now destruct (decide (x = x)).
  - destruct (decide (x = y)) as [-> | Hne]; [exfalso; apply Hn; now left |].
    rewrite IH; [reflexivity |]. intros Hin. apply Hn. now right.
Qed.

Lemma remove_last_last (x : AutoplayManager.listener)
    (l : list AutoplayManager.listener) :
  AutoplayManager.remove_last x (l ++ [x]) = l.
Proof.
  unfold AutoplayManager.remove_last. rewrite rev_app_distr. cbn.
  destruct (decide (x = x)) as [_ | N]; [apply rev_involutive | congruence].
Qed.

Lemma foreign_not_own (theirs : list AutoplayManager.listener) (n : nat) :
  Forall (fun l => AutoplayManager.is_own l = false) theirs ->
  ~ In (AutoplayManager.Own n) theirs.
Proof.
  intros H Hin. rewrite List.Forall_forall in H. specialize (H _ Hin). discriminate.
Qed.

Section ManagerFacts.

Variable serviceName : string.
Variables theirs_volumio theirs_mpd : list AutoplayManager.listener.
Hypothesis volumio_foreign :
  Forall (fun l => AutoplayManager.is_own l = false) theirs_volumio.

Local Abbreviation tidy := (registries_tidy theirs_volumio theirs_mpd).
Local Abbreviation step := (AutoplayManager.step serviceName).
Local Abbreviation run := (AutoplayManager.run serviceName).

Lemma addVolumio_tidy (s : AutoplayManager.state) :
  tidy s -> tidy (AutoplayManager.addVolumioStateListener s).
Proof.
  intros [H1 H2]. unfold AutoplayManager.addVolumioStateListener.
  destruct (AutoplayManager.volumioStateListener s) eqn:Hv;
    unfold registries_tidy; cbn; rewrite ?Hv; [now split |].
  split; [| exact H2]. rewrite H1. now rewrite app_nil_r.
Qed.

Lemma removeVolumio_tidy (s : AutoplayManager.state) :
  tidy s -> tidy (AutoplayManager.removeVolumioStateListener s).
Proof using volumio_foreign.
  intros [H1 H2]. unfold AutoplayManager.removeVolumioStateListener.
  destruct (AutoplayManager.volumioStateListener s) as [n |] eqn:Hv;
    unfold registries_tidy; cbn; rewrite ?Hv; [| now split].
  split; [| exact H2]. rewrite H1, app_nil_r.
  apply remove_first_last. now apply foreign_not_own.
Qed.

Lemma addMpd_tidy (s : AutoplayManager.state) :
  tidy s -> tidy (AutoplayManager.addMpdStateListener s).
Proof.
  intros [H1 H2]. unfold AutoplayManager.addMpdStateListener.
  destruct (AutoplayManager.mpdStateListener s) eqn:Hm;
    unfold registries_tidy; cbn; rewrite ?Hm; [now split |].
  split; [exact H1 |]. rewrite H2. now rewrite app_nil_r.
Qed.

Lemma removeMpd_tidy (s : AutoplayManager.state) :
  tidy s -> tidy (AutoplayManager.removeMpdStateListener s).
Proof.
  intros [H1 H2]. unfold AutoplayManager.removeMpdStateListener.
  destruct (AutoplayManager.mpdStateListener s) as [n |] eqn:Hm;
    unfold registries_tidy; cbn; rewrite ?Hm; [| now split].
  split; [exact H1 |]. rewrite H2, app_nil_r. apply remove_last_last.
Qed.

Lemma on_volumio_state_tidy (pushed : AutoplayManager.VolumioState)
    (s : AutoplayManager.state) :
  tidy s -> tidy (AutoplayManager.on_volumio_state serviceName pushed s).
Proof.
  intros H. unfold AutoplayManager.on_volumio_state.
  destruct (String.eqb _ "play"); [| exact H].
  destruct (String.eqb _ serviceName).
  - apply addMpd_tidy. exact H.
  - apply removeMpd_tidy in H. exact H.
Qed.

Lemma fold_keeps {A : Type} (P : AutoplayManager.state -> Prop)
    (f : AutoplayManager.state -> AutoplayManager.state) (l : list A)
    (s : AutoplayManager.state) :
  (forall x, P x -> P (f x)) -> P s -> P (fold_left (fun acc _ => f acc) l s).
Proof.
  intros Hf. revert s. induction l as [| a l IH]; intros s Hs; [exact Hs |].
  cbn. apply IH. now apply Hf.
Qed.

Lemma manager_step_tidy (e : AutoplayManager.event) (s : AutoplayManager.state) :
  tidy s -> tidy (step e s).
Proof using volumio_foreign.
  intros H. destruct e as [| | pushed | | q st]; cbn [AutoplayManager.step].
  - now apply addVolumio_tidy.
  - now apply removeVolumio_tidy, removeMpd_tidy.
  - apply fold_keeps; [apply on_volumio_state_tidy | exact H].
  - apply fold_keeps; [| exact H]. intros x Hx. exact Hx.
  - destruct (decide _); [| exact H].
    unfold AutoplayManager.on_mpd_state.
    destruct (String.eqb st "stop"); [| exact H].
    apply removeMpd_tidy. exact H.
Qed.

Lemma manager_run_tidy (evs : list AutoplayManager.event) (s : AutoplayManager.state) :
  tidy s -> tidy (run evs s).
Proof using volumio_foreign.
  revert s. induction evs as [| e evs IH]; intros s H; [exact H |].
  cbn. apply IH. now apply manager_step_tidy.
Qed.

(** X27.  The manager keeps the two registries tidy.  Whatever happens
    (enabling and disabling any number of times, states pushed by Volumio,
    events and replies of MPD), the callbacks of Volumio and the listeners of
    the MPD client are those that others registered, in their order,
    followed by at most one listener of the manager, the one its field
    holds; and [disable()] leaves exactly what the others registered and
    clears both fields. *)
Theorem autoplay_listeners_tidy (evs : list AutoplayManager.event) :
  let s := run evs (AutoplayManager.new theirs_volumio theirs_mpd) in
  registries_tidy theirs_volumio theirs_mpd s
  /\ AutoplayManager.callbacks (AutoplayManager.disable s) = theirs_volumio
  /\ AutoplayManager.mpd_listeners (AutoplayManager.disable s) = theirs_mpd
  /\ AutoplayManager.volumioStateListener (AutoplayManager.disable s) = None
  /\ AutoplayManager.mpdStateListener (AutoplayManager.disable s) = None.
Proof using volumio_foreign.
  intros s.
  assert (Hs : tidy s).
  { apply manager_run_tidy. unfold registries_tidy. cbn. now rewrite !app_nil_r. }
  split; [exact Hs |].
  assert (Hd : tidy (AutoplayManager.disable s))
    by (now apply removeVolumio_tidy, removeMpd_tidy).
  assert (Hv : AutoplayManager.volumioStateListener (AutoplayManager.disable s) = None).
  { unfold AutoplayManager.disable, AutoplayManager.removeVolumioStateListener.
    destruct (AutoplayManager.volumioStateListener
                (AutoplayManager.removeMpdStateListener s)) eqn:E;
      [reflexivity | exact E]. }
  assert (Hm : AutoplayManager.mpdStateListener (AutoplayManager.disable s) = None).
  { unfold AutoplayManager.disable, AutoplayManager.removeVolumioStateListener,
      AutoplayManager.removeMpdStateListener.
    destruct (AutoplayManager.mpdStateListener s) eqn:E; cbn;
      destruct (AutoplayManager.volumioStateListener s) eqn:E'; cbn;
      rewrite ?E, ?E'; reflexivity. }
  destruct Hd as [D1 D2]. rewrite Hv in D1. rewrite Hm in D2.
  rewrite app_nil_r in D1, D2. now repeat split.
Qed.

End ManagerFacts.

Lemma autoplay_listeners_tidy_witness :
  AutoplayManager.callbacks
    (AutoplayManager.disable
       (AutoplayManager.run "youtube2"
          [AutoplayManager.Enable; AutoplayManager.Enable;
           AutoplayManager.VolumioPushState
             {| AutoplayManager.status := "play";
                AutoplayManager.item :=
                  {| Autoplay.service := "youtube2"; Autoplay.uri := "youtube2/video@a";
                     Autoplay.name := "a"; Autoplay.title := "a" |};
                AutoplayManager.at_position := 0 |};
           AutoplayManager.MpdSystemPlayer]
          (AutoplayManager.new [AutoplayManager.Foreign 1; AutoplayManager.Foreign 2]
             [AutoplayManager.Foreign 3])))
  = [AutoplayManager.Foreign 1; AutoplayManager.Foreign 2].
Proof.
  refine (proj1 (proj2 (autoplay_listeners_tidy "youtube2"
            [AutoplayManager.Foreign 1; AutoplayManager.Foreign 2]
            [AutoplayManager.Foreign 3] _
            [AutoplayManager.Enable; AutoplayManager.Enable;
             AutoplayManager.VolumioPushState
               {| AutoplayManager.status := "play";
                  AutoplayManager.item :=
                    {| Autoplay.service := "youtube2"; Autoplay.uri := "youtube2/video@a";
                       Autoplay.name := "a"; Autoplay.title := "a" |};
                  AutoplayManager.at_position := 0 |};
             AutoplayManager.MpdSystemPlayer]))).
  repeat constructor.
Defined.

Section PlaybackFacts.

Variable serviceName : string.

Local Abbreviation known := (playback_known serviceName).

Lemma removeMpd_none (s : AutoplayManager.state) :
  AutoplayManager.mpdStateListener (AutoplayManager.removeMpdStateListener s) = None.
Proof.
  unfold AutoplayManager.removeMpdStateListener.
  destruct (AutoplayManager.mpdStateListener s) eqn:E; [reflexivity | exact E].
Qed.

Lemma removeMpd_known (s : AutoplayManager.state) :
  known s -> known (AutoplayManager.removeMpdStateListener s).
Proof.
  intros H. pose proof H as (H1 & H2 & H3).
  unfold AutoplayManager.removeMpdStateListener.
  destruct (AutoplayManager.mpdStateListener s) eqn:Hm; [| exact H].
  unfold playback_known. cbn. split_ands; try assumption.
  intros [x Hx]. discriminate.
Qed.

Lemma on_volumio_state_known (pushed : AutoplayManager.VolumioState)
    (s : AutoplayManager.state) :
  known s -> known (AutoplayManager.on_volumio_state serviceName pushed s).
Proof.
  intros H. unfold AutoplayManager.on_volumio_state.
  destruct (String.eqb _ "play"); [| exact H].
  destruct (String.eqb _ serviceName) eqn:Hsv.
  - apply String.eqb_eq in Hsv. destruct H as (H1 & H2 & H3).
    unfold AutoplayManager.addMpdStateListener, playback_known.
    destruct (AutoplayManager.mpdStateListener _); cbn; split_ands;
      try assumption; try (intros _; now eexists);
      intros info [= <-]; exact Hsv.
  - apply removeMpd_known in H. destruct H as (H1 & H2 & H3).
    unfold playback_known. cbn. split_ands; try assumption; [discriminate |].
    intros Hm. rewrite removeMpd_none in Hm. destruct Hm as [y Hy]. discriminate.
Qed.

Lemma manager_step_known (e : AutoplayManager.event) (s : AutoplayManager.state) :
  known s -> known (AutoplayManager.step serviceName e s).
Proof.
  intros H. destruct e as [| | pushed | | q st]; cbn [AutoplayManager.step].
  - unfold AutoplayManager.enable, AutoplayManager.addVolumioStateListener.
    destruct (AutoplayManager.volumioStateListener s); exact H.
  - apply removeMpd_known in H.
    unfold AutoplayManager.disable, AutoplayManager.removeVolumioStateListener.
    destruct (AutoplayManager.volumioStateListener _); exact H.
  - apply fold_keeps; [apply on_volumio_state_known | exact H].
  - apply fold_keeps; [| exact H]. intros x Hx. exact Hx.
  - destruct (decide _); [| exact H].
    unfold AutoplayManager.on_mpd_state.
    destruct (String.eqb st "stop"); [| exact H].
    apply removeMpd_known. destruct H as (H1 & H2 & H3).
    unfold playback_known. cbn. split_ands; try assumption.
    intros info Hin. apply in_app_iff in Hin as [Hin | [Hin | []]];
      [now apply H3 | now apply H1].
Qed.

Lemma manager_run_known (evs : list AutoplayManager.event)
    (s : AutoplayManager.state) :
  known s -> known (AutoplayManager.run serviceName evs s).
Proof.
  revert s. induction evs as [| e evs IH]; intros s H; [exact H |].
  cbn. apply IH. now apply manager_step_known.
Qed.

(** X28.  What the manager remembers of the playback.  Whatever happens,
    the track in [#lastPlaybackInfo] is one of the plugin's own service;
    while the MPD listener is registered there is such a track; and every
    call of [#handleAutoplay] that found a track found one of the plugin's
    service (a call may find none: then it does nothing). *)
Theorem autoplay_remembers_own_tracks (theirs_volumio theirs_mpd : list AutoplayManager.listener)
    (evs : list AutoplayManager.event) :
  let s := AutoplayManager.run serviceName evs
             (AutoplayManager.new theirs_volumio theirs_mpd) in
  (forall info, AutoplayManager.lastPlaybackInfo s = Some info ->
     Autoplay.service (Autoplay.track info) = serviceName)
  /\ (is_Some (AutoplayManager.mpdStateListener s) ->
      is_Some (AutoplayManager.lastPlaybackInfo s))
  /\ (forall info, In (Some info) (AutoplayManager.handled s) ->
        Autoplay.service (Autoplay.track info) = serviceName)
  /\ (forall state autoplay queue fetched clearQueue added,
        Autoplay.handleAutoplay state autoplay None queue fetched clearQueue added
        = ([], Autoplay.Done)).
Proof.
  intros s.
  assert (H : known s).
  { apply manager_run_known. unfold playback_known. cbn.
    split_ands; try discriminate.
    - intros [x Hx]. discriminate.
    - intros info []. }
  destruct H as (H1 & H2 & H3). split_ands; try assumption.
  intros state autoplay queue fetched clearQueue added.
  unfold Autoplay.handleAutoplay.
  now destruct (Autoplay.check state autoplay None queue).
Qed.

End PlaybackFacts.
